(** * python-bulletml: the action interpreter, the loader and the expression
      evaluator, embedded from [bulletml/expr.py], [bulletml/parser.py] and
      [bulletml/impl.py].

    Conventions of the embedding.
    - Python numbers ([int] and [float]) that hold quantities are real
      numbers [R]; frame counters, repeat counters and program counters,
      which the code keeps as Python [int], are [Z].
    - Python 3 semantics are used where Python 2 and 3 differ
      ([round] rounds half to even, a [dict] keeps insertion order).
    - Running actions are objects with identity: they live in a heap and are
      named by their address.  The Python [list] held in [Bullet.actions] is
      an object too, and lives in a heap of lists.
    - An exception is a value of [exn]; a computation returns a [result]. *)

From Stdlib Require Import Reals Lra Lia ZArith.
From Stdlib Require Import Ascii String DecimalString.
From stdpp Require Import base list gmap strings.

Set Warnings "-register-all".

(** ** Results and exceptions *)

Inductive exn : Type :=
| ExprError            (* bulletml.expr.ExprError *)
| ParseError           (* bulletml.parser.ParseError *)
| SyntaxError
| NameError
| TypeError
| ValueError
| IndexError
| KeyError
| ZeroDivisionError
| UnboundLocalError
| DanglingReference.   (* an address that names no object: impossible in
                          Python, where a reference keeps its object alive *)

Inductive result (A : Type) : Type :=
| Ok (a : A)
| Raise (e : exn)
| Diverge.             (* the fuel of the model ran out *)

Arguments Ok {A} a.
Arguments Raise {A} e.
Arguments Diverge {A}.

(** ** Strings: the text processing of [NumberDef.__init__] *)

Module Str.

Fixpoint prefix (p s : string) : bool :=
  match p, s with
  | EmptyString, _ => true
  | String a p', String b s' => if Ascii.eqb a b then prefix p' s' else false
  | String _ _, EmptyString => false
  end.

(** [p in s] *)
Fixpoint contains (p s : string) : bool :=
  if prefix p s then true
  else match s with
       | EmptyString => false
       | String _ s' => contains p s'
       end.

Fixpoint drop (n : nat) (s : string) : string :=
  match n, s with
  | O, _ => s
  | S n', String _ s' => drop n' s'
  | S _, EmptyString => EmptyString
  end.

(** [s.replace(old, new)] for a non-empty [old]: left to right, without
    overlap.  [skip] counts the characters of a match still to be dropped. *)
Fixpoint replace_from (old new : string) (skip : nat) (s : string) : string :=
  match s with
  | EmptyString => EmptyString
  | String c s' =>
      match skip with
      | S k => replace_from old new k s'
      | O =>
          if prefix old s
          then new +:+ replace_from old new (String.length old - 1) s'
          else String c (replace_from old new O s')
      end
  end.

Definition replace (old new s : string) : string := replace_from old new O s.

Definition lower_ascii (c : ascii) : ascii :=
  let n := nat_of_ascii c in
  if (Nat.leb 65 n && Nat.leb n 90)%bool then ascii_of_nat (n + 32) else c.

(** [s.lower()] on ASCII text. *)
Fixpoint lower (s : string) : string :=
  match s with
  | EmptyString => EmptyString
  | String c s' => String (lower_ascii c) (lower s')
  end.

Definition is_digit (c : ascii) : bool :=
  let n := nat_of_ascii c in (Nat.leb 48 n && Nat.leb n 57)%bool.

(** The longest run of digits at the head of [s], as a number, with the
    rest of the string; [None] when [s] does not start with a digit. *)
Fixpoint digits (acc : option Z) (s : string) : option Z * string :=
  match s with
  | String c s' =>
      if is_digit c
      then digits (Some (10 * default 0%Z acc
                         + Z.of_nat (nat_of_ascii c - 48))%Z) s'
      else (acc, s)
  | EmptyString => (acc, s)
  end.

Definition of_Z (z : Z) : string := NilZero.string_of_int (Z.to_int z).

(** [re.sub(r"\$\d+", repl, s)] with
    [repl = lambda match: "params[%d]" % (int(match.group()[1:]) - 1)].
    [skip] counts the digits of a match still to be dropped. *)
Fixpoint sub_params (skip : nat) (s : string) : string :=
  match s with
  | EmptyString => EmptyString
  | String c s' =>
      match skip with
      | S k => sub_params k s'
      | O =>
          if Ascii.eqb c "$"
          then match digits None s' with
               | (Some n, rest) =>
                   "params[" +:+ of_Z (n - 1) +:+ "]"
                     +:+ sub_params (String.length s' - String.length rest) s'
               | (None, _) => String c (sub_params O s')
               end
          else String c (sub_params O s')
      end
  end.

(** [s.startswith(p)] *)
Definition startswith (s p : string) : bool := prefix p s.

(** [s.rsplit(sep, 1)] for a one-character [sep]: the text after the last
    [sep], or [None] when [s] has no [sep] (the list then has one item). *)
Fixpoint after_last (sep : ascii) (s : string) : option string :=
  match s with
  | EmptyString => None
  | String c s' =>
      match after_last sep s' with
      | Some t => Some t
      | None => if Ascii.eqb c sep then Some s' else None
      end
  end.

End Str.

(** ** Numbers *)

Definition PI_2 : R := (PI * 2)%R.

(** [math.radians] *)
Definition radians (deg : R) : R := (deg * PI / 180)%R.

(** Python's [x % y] on floats: the result has the sign of [y]. *)
Definition py_mod (x y : R) : R := (x - y * IZR (Zfloor (x / y)))%R.

(** [int(round(x))]: the nearest integer, a tie going to the even one. *)
Definition py_round (x : R) : Z :=
  let f := Zfloor x in
  let d := (x - IZR f)%R in
  if Rlt_dec d (1 / 2) then f
  else if Rlt_dec (1 / 2) d then (f + 1)%Z
  else if Z.even f then f else (f + 1)%Z.

(** [math.atan2(y, x)], signed zeros left out. *)
Definition atan2 (y x : R) : R :=
  match total_order_T 0 x with
  | inleft (left _) => atan (y / x)                        (* 0 < x *)
  | inright _ =>                                           (* x < 0 *)
      if Rle_dec 0 y then (atan (y / x) + PI)%R else (atan (y / x) - PI)%R
  | inleft (right _) =>                                    (* x = 0 *)
      match total_order_T 0 y with
      | inleft (left _) => (PI / 2)%R
      | inleft (right _) => 0%R
      | inright _ => (- PI / 2)%R
      end
  end.

(** [l[i]] on a Python list: a negative index counts from the end, and an
    index out of range is [None] (an [IndexError]). *)
Definition py_index {A} (l : list A) (i : Z) : option A :=
  if (0 <=? i)%Z then l !! Z.to_nat i
  else if (0 <=? i + Z.of_nat (length l))%Z
       then l !! Z.to_nat (i + Z.of_nat (length l))
       else None.

(** ** The expression evaluator ([bulletml/expr.py])

    [NumberDef] hands the rewritten text to Python's [eval].  Python's
    parser is not part of the repository: it is a parameter [py_parse] of
    the loader, and the evaluation of the parsed expression is modelled on
    the arithmetic fragment below. *)

Inductive binop : Type := Add | Sub | Mul | Div.

Inductive pyexpr : Type :=
| ENum (r : R)                         (* a numeric literal *)
| EName (id : string)                  (* an identifier *)
| ECall (f : pyexpr)                   (* f() *)
| ESubscript (e : pyexpr) (i : Z)      (* e[i] with a literal index *)
| ENeg (e : pyexpr)                    (* -e *)
| EBin (op : binop) (a b : pyexpr).    (* a op b *)

Inductive pyval : Type :=
| VNum (r : R)
| VList (l : list R)                   (* the [params] list *)
| VRandom.                             (* the function [random.random] *)

(** The process-wide random source: the draws that [random.random()] will
    return, in order. *)
Definition rng : Type := nat -> R.

Definition draw (g : rng) : R * rng := (g O, fun n => g (S n)).

Definition namespace : Type := string -> option pyval.

Definition no_names : namespace := fun _ => None.

(** [GLOBALS] together with the [variables] of an evaluation. *)
Definition variables (rank : R) (params : list R) : namespace :=
  fun id =>
    if String.eqb id "random" then Some VRandom
    else if String.eqb id "rank" then Some (VNum rank)
    else if String.eqb id "params" then Some (VList params)
    else None.

Definition eval_binop (op : binop) (x y : R) : result R :=
  match op with
  | Add => Ok (x + y)%R
  | Sub => Ok (x - y)%R
  | Mul => Ok (x * y)%R
  | Div => if Req_dec_T y 0 then Raise ZeroDivisionError else Ok (x / y)%R
  end.

(** [eval(code, globals, locals)]: operands left to right. *)
Fixpoint eval (ns : namespace) (e : pyexpr) (g : rng) : result (pyval * rng) :=
  match e with
  | ENum r => Ok (VNum r, g)
  | EName id =>
      match ns id with
      | Some v => Ok (v, g)
      | None => Raise NameError
      end
  | ECall f =>
      match eval ns f g with
      | Ok (VRandom, g1) => let (r, g2) := draw g1 in Ok (VNum r, g2)
      | Ok (_, _) => Raise TypeError
      | Raise x => Raise x
      | Diverge => Diverge
      end
  | ESubscript a i =>
      match eval ns a g with
      | Ok (VList l, g1) =>
          match py_index l i with
          | Some r => Ok (VNum r, g1)
          | None => Raise IndexError
          end
      | Ok (_, _) => Raise TypeError
      | Raise x => Raise x
      | Diverge => Diverge
      end
  | ENeg a =>
      match eval ns a g with
      | Ok (VNum r, g1) => Ok (VNum (- r)%R, g1)
      | Ok (_, _) => Raise TypeError
      | Raise x => Raise x
      | Diverge => Diverge
      end
  | EBin op a b =>
      match eval ns a g with
      | Ok (va, g1) =>
          match eval ns b g1 with
          | Ok (vb, g2) =>
              match va, vb with
              | VNum x, VNum y =>
                  match eval_binop op x y with
                  | Ok r => Ok (VNum r, g2)
                  | Raise x => Raise x
                  | Diverge => Diverge
                  end
              | _, _ => Raise TypeError
              end
          | Raise x => Raise x
          | Diverge => Diverge
          end
      | Raise x => Raise x
      | Diverge => Diverge
      end
  end.

(** A compiled [NumberDef]: [_value] is the constant the expression folds
    to, if it has one; [code] is [self.__expr]; [text] is [self.string]. *)
Record NumberDef : Type := mkNumberDef {
  nd_value : option R;
  nd_code : pyexpr;
  nd_text : string;
}.

(** An [INumberDef]: the constant is rounded once, when it is built. *)
Record INumberDef : Type := mkINumberDef {
  ind_value : option Z;
  ind_base : NumberDef;
}.

(** [str(expr)] for the text of an element, which is [None] when the
    element is empty. *)
Definition py_str (text : option string) : string := default "None" text.

(** ["__" in expr]; when [expr] is [None] the test is a [TypeError], which
    is passed over. *)
Definition has_dunder (expr : option string) : bool :=
  match expr with
  | Some s => Str.contains "__" s
  | None => false
  end.

(** The Python expression that the text of a BulletML expression is
    rewritten to. *)
Definition python_source (text : string) : string :=
  Str.replace "$rank" "rank"
    (Str.replace "$rand" "random()" (Str.sub_params 0 (Str.lower text))).

Section Compile.

(** Python's parser: [None] is a [SyntaxError]. *)
Variable py_parse : string -> option pyexpr.

(** [NumberDef.__init__(self, expr)], with the random source it draws from
    when the expression calls [random()] while it is checked. *)
Definition NumberDef_init (expr : option string) (g : rng)
  : result (NumberDef * rng) :=
  if has_dunder expr
  then Raise ExprError
  else
    let text := py_str expr in
    match py_parse (python_source text) with
    | None => Raise ExprError                       (* SyntaxError *)
    | Some code =>
        match eval no_names code g with
        | Ok (VNum v, g1) => Ok (mkNumberDef (Some v) code text, g1)
        | Ok (_, _) => Raise ExprError
        | Raise NameError =>
            match eval (variables 1 (replicate 99 0%R)) code g with
            | Ok (VNum _, g1) => Ok (mkNumberDef None code text, g1)
            | Ok (_, _) => Raise ExprError          (* TypeError(expr) *)
            | Raise _ => Raise ExprError
            | Diverge => Diverge
            end
        | Raise _ => Raise ExprError
        | Diverge => Diverge
        end
    end.

(** [INumberDef.__init__] *)
Definition INumberDef_init (expr : option string) (g : rng)
  : result (INumberDef * rng) :=
  match NumberDef_init expr g with
  | Ok (nd, g1) => Ok (mkINumberDef (py_round <$> nd_value nd) nd, g1)
  | Raise x => Raise x
  | Diverge => Diverge
  end.

End Compile.

(** [NumberDef.__call__(self, params, rank)]: nothing is caught here. *)
Definition NumberDef_call (nd : NumberDef) (params : list R) (rank : R)
    (g : rng) : result (R * rng) :=
  match nd_value nd with
  | Some v => Ok (v, g)
  | None =>
      match eval (variables rank params) (nd_code nd) g with
      | Ok (VNum v, g1) => Ok (v, g1)
      | Ok (_, _) => Raise TypeError   (* not a number: its first use fails *)
      | Raise x => Raise x
      | Diverge => Diverge
      end
  end.

(** [INumberDef.__call__] *)
Definition INumberDef_call (nd : INumberDef) (params : list R) (rank : R)
    (g : rng) : result (Z * rng) :=
  match ind_value nd with
  | Some v => Ok (v, g)
  | None =>
      match NumberDef_call (ind_base nd) params rank g with
      | Ok (v, g1) => Ok (py_round v, g1)
      | Raise x => Raise x
      | Diverge => Diverge
      end
  end.

(** ** The action tree ([bulletml/parser.py]) *)

(** The [label] attribute of an element, [None] when it has none. *)
Definition label : Type := option string.

(** A bullet tag: the text of a [<tag>] element, [None] when it is empty. *)
Definition tag : Type := option string.

Inductive dir_type : Type := relative | absolute | aim | sequence.

Inductive spd_type : Type := spd_relative | spd_absolute | spd_sequence.

Inductive off_type : Type := off_relative | off_absolute.

Record Direction : Type := mkDirection {
  dir_kind : dir_type;
  dir_value : NumberDef;
}.

Record Speed : Type := mkSpeed {
  spd_kind : spd_type;
  spd_value : NumberDef;
}.

Record Offset : Type := mkOffset {
  off_kind : off_type;
  off_x : option NumberDef;
  off_y : option NumberDef;
}.

Definition ParamList : Type := list NumberDef.

(** The nodes, typed as [FromXML] builds them: the action of a [Repeat] and
    the actions of a bullet are an [ActionDef] or an [ActionRef], the
    branches of an [If] are [ActionDef]s, the bullet of a fire is a
    [BulletDef] or a [BulletRef].  A reference holds the label of its
    target, which the tables of the document resolve. *)
Inductive Node : Type :=
| ChangeDirection (term : INumberDef) (direction : Direction)
| ChangeSpeed (term : INumberDef) (speed : Speed)
| Accel (term : INumberDef) (horizontal vertical : option Speed)
| Wait (frames : INumberDef)
| Tag (t : tag)
| Untag (t : tag)
| Appearance (appearance : option string)
| Vanish
| Repeat (times : INumberDef) (action : ActionNode)
| If (cond : INumberDef) (then_ : ActionDef) (else_ : option ActionDef)
| Fire (fire : FireNode)
| Act (action : ActionNode)
with ActionDef : Type :=
| mkActionDef (actions : list Node)
with ActionNode : Type :=
| ADef (d : ActionDef)
| ActionRef (action : label) (params : ParamList)
with FireDef : Type :=
| mkFireDef (bullet : BulletNode) (direction : option Direction)
    (speed : option Speed) (offset : option Offset) (tags : gset tag)
    (appearance : option string)
with FireNode : Type :=
| FDef (d : FireDef)
| FireRef (fire : label) (params : ParamList)
with BulletDef : Type :=
| mkBulletDef (actions : list ActionNode) (direction : option Direction)
    (speed : option Speed) (tags : gset tag) (appearance : option string)
with BulletNode : Type :=
| BDef (d : BulletDef)
| BulletRef (bullet : label) (params : ParamList).

Definition ad_actions (d : ActionDef) : list Node :=
  match d with mkActionDef l => l end.

Definition fd_bullet (d : FireDef) : BulletNode :=
  match d with mkFireDef b _ _ _ _ _ => b end.
Definition fd_direction (d : FireDef) : option Direction :=
  match d with mkFireDef _ x _ _ _ _ => x end.
Definition fd_speed (d : FireDef) : option Speed :=
  match d with mkFireDef _ _ x _ _ _ => x end.
Definition fd_offset (d : FireDef) : option Offset :=
  match d with mkFireDef _ _ _ x _ _ => x end.
Definition fd_tags (d : FireDef) : gset tag :=
  match d with mkFireDef _ _ _ _ x _ => x end.
Definition fd_appearance (d : FireDef) : option string :=
  match d with mkFireDef _ _ _ _ _ x => x end.

Definition bd_actions (d : BulletDef) : list ActionNode :=
  match d with mkBulletDef x _ _ _ _ => x end.
Definition bd_direction (d : BulletDef) : option Direction :=
  match d with mkBulletDef _ x _ _ _ => x end.
Definition bd_speed (d : BulletDef) : option Speed :=
  match d with mkBulletDef _ _ x _ _ => x end.
Definition bd_tags (d : BulletDef) : gset tag :=
  match d with mkBulletDef _ _ _ x _ => x end.
Definition bd_appearance (d : BulletDef) : option string :=
  match d with mkBulletDef _ _ _ _ x => x end.

(** ** Python dictionaries

    A [dict] keyed by labels is kept as the sequence of its assignments.
    [d[k]] is the value assigned last under [k]; [d.items()] lists each key
    once, at the place of its first assignment, with that value. *)

Definition dict (V : Type) : Type := list (label * V).

(** [d[k] = v] *)
Definition dict_set {V} (k : label) (v : V) (d : dict V) : dict V :=
  d ++ [(k, v)].

(** [d[k]]; [None] is a [KeyError]. *)
Fixpoint dict_get {V} (k : label) (d : dict V) : option V :=
  match d with
  | [] => None
  | (k', v) :: d' =>
      match dict_get k d' with
      | Some v' => Some v'
      | None => if decide (k = k') then Some v else None
      end
  end.

(** The keys of [d], each once, in the order of their first assignment;
    [seen] holds the keys already listed. *)
Fixpoint dict_keys_from {V} (seen : list label) (d : dict V) : list label :=
  match d with
  | [] => []
  | (k, _) :: d' =>
      if decide (k ∈ seen) then dict_keys_from seen d'
      else k :: dict_keys_from (k :: seen) d'
  end.

Definition dict_keys {V} (d : dict V) : list label := dict_keys_from [] d.

(** [d.items()] *)
Definition dict_items {V} (d : dict V) : list (label * V) :=
  omap (fun k => (fun v => (k, v)) <$> dict_get k d) (dict_keys d).

(** The tables of a loaded document, through which references resolve. *)
Record Tables : Type := mkTables {
  t_bullets : dict BulletDef;
  t_actions : dict ActionDef;
  t_fires : dict FireDef;
}.

(** ** Run-time state ([bulletml/impl.py]) *)

(** The address of a running action, and of a list object. *)
Definition addr : Type := nat.
Definition lid : Type := nat.

(** A running action.  [a_pc] is [None] once the action is dead. *)
Record Action : Type := mkAction {
  a_actions : list Node;
  a_parent : option addr;
  a_repeat : Z;
  a_wait_frames : Z;
  a_speed : R;
  a_speed_frames : Z;
  a_direction : R;
  a_direction_frames : Z;
  a_aiming : bool;
  a_mx : R;
  a_my : R;
  a_accel_frames : Z;
  a_previous_fire_direction : R;
  a_previous_fire_speed : R;
  a_params : list R;
  a_pc : option Z;
  a_finished : bool;
}.

Definition set_a_repeat (v : Z) (a : Action) : Action :=
  mkAction (a_actions a) (a_parent a) v (a_wait_frames a) (a_speed a)
    (a_speed_frames a) (a_direction a) (a_direction_frames a) (a_aiming a)
    (a_mx a) (a_my a) (a_accel_frames a) (a_previous_fire_direction a)
    (a_previous_fire_speed a) (a_params a) (a_pc a) (a_finished a).
Definition set_a_wait_frames (v : Z) (a : Action) : Action :=
  mkAction (a_actions a) (a_parent a) (a_repeat a) v (a_speed a)
    (a_speed_frames a) (a_direction a) (a_direction_frames a) (a_aiming a)
    (a_mx a) (a_my a) (a_accel_frames a) (a_previous_fire_direction a)
    (a_previous_fire_speed a) (a_params a) (a_pc a) (a_finished a).
Definition set_a_speed (v : R) (a : Action) : Action :=
  mkAction (a_actions a) (a_parent a) (a_repeat a) (a_wait_frames a) v
    (a_speed_frames a) (a_direction a) (a_direction_frames a) (a_aiming a)
    (a_mx a) (a_my a) (a_accel_frames a) (a_previous_fire_direction a)
    (a_previous_fire_speed a) (a_params a) (a_pc a) (a_finished a).
Definition set_a_speed_frames (v : Z) (a : Action) : Action :=
  mkAction (a_actions a) (a_parent a) (a_repeat a) (a_wait_frames a) (a_speed
    a) v (a_direction a) (a_direction_frames a) (a_aiming a) (a_mx a) (a_my a)
    (a_accel_frames a) (a_previous_fire_direction a) (a_previous_fire_speed a)
    (a_params a) (a_pc a) (a_finished a).
Definition set_a_direction (v : R) (a : Action) : Action :=
  mkAction (a_actions a) (a_parent a) (a_repeat a) (a_wait_frames a) (a_speed
    a) (a_speed_frames a) v (a_direction_frames a) (a_aiming a) (a_mx a) (a_my
    a) (a_accel_frames a) (a_previous_fire_direction a) (a_previous_fire_speed
    a) (a_params a) (a_pc a) (a_finished a).
Definition set_a_direction_frames (v : Z) (a : Action) : Action :=
  mkAction (a_actions a) (a_parent a) (a_repeat a) (a_wait_frames a) (a_speed
    a) (a_speed_frames a) (a_direction a) v (a_aiming a) (a_mx a) (a_my a)
    (a_accel_frames a) (a_previous_fire_direction a) (a_previous_fire_speed a)
    (a_params a) (a_pc a) (a_finished a).
Definition set_a_aiming (v : bool) (a : Action) : Action :=
  mkAction (a_actions a) (a_parent a) (a_repeat a) (a_wait_frames a) (a_speed
    a) (a_speed_frames a) (a_direction a) (a_direction_frames a) v (a_mx a)
    (a_my a) (a_accel_frames a) (a_previous_fire_direction a)
    (a_previous_fire_speed a) (a_params a) (a_pc a) (a_finished a).
Definition set_a_mx (v : R) (a : Action) : Action :=
  mkAction (a_actions a) (a_parent a) (a_repeat a) (a_wait_frames a) (a_speed
    a) (a_speed_frames a) (a_direction a) (a_direction_frames a) (a_aiming a)
    v (a_my a) (a_accel_frames a) (a_previous_fire_direction a)
    (a_previous_fire_speed a) (a_params a) (a_pc a) (a_finished a).
Definition set_a_my (v : R) (a : Action) : Action :=
  mkAction (a_actions a) (a_parent a) (a_repeat a) (a_wait_frames a) (a_speed
    a) (a_speed_frames a) (a_direction a) (a_direction_frames a) (a_aiming a)
    (a_mx a) v (a_accel_frames a) (a_previous_fire_direction a)
    (a_previous_fire_speed a) (a_params a) (a_pc a) (a_finished a).
Definition set_a_accel_frames (v : Z) (a : Action) : Action :=
  mkAction (a_actions a) (a_parent a) (a_repeat a) (a_wait_frames a) (a_speed
    a) (a_speed_frames a) (a_direction a) (a_direction_frames a) (a_aiming a)
    (a_mx a) (a_my a) v (a_previous_fire_direction a) (a_previous_fire_speed
    a) (a_params a) (a_pc a) (a_finished a).
Definition set_a_previous_fire_direction (v : R) (a : Action) : Action :=
  mkAction (a_actions a) (a_parent a) (a_repeat a) (a_wait_frames a) (a_speed
    a) (a_speed_frames a) (a_direction a) (a_direction_frames a) (a_aiming a)
    (a_mx a) (a_my a) (a_accel_frames a) v (a_previous_fire_speed a) (a_params
    a) (a_pc a) (a_finished a).
Definition set_a_previous_fire_speed (v : R) (a : Action) : Action :=
  mkAction (a_actions a) (a_parent a) (a_repeat a) (a_wait_frames a) (a_speed
    a) (a_speed_frames a) (a_direction a) (a_direction_frames a) (a_aiming a)
    (a_mx a) (a_my a) (a_accel_frames a) (a_previous_fire_direction a) v
    (a_params a) (a_pc a) (a_finished a).
Definition set_a_pc (v : option Z) (a : Action) : Action :=
  mkAction (a_actions a) (a_parent a) (a_repeat a) (a_wait_frames a) (a_speed
    a) (a_speed_frames a) (a_direction a) (a_direction_frames a) (a_aiming a)
    (a_mx a) (a_my a) (a_accel_frames a) (a_previous_fire_direction a)
    (a_previous_fire_speed a) (a_params a) v (a_finished a).
Definition set_a_finished (v : bool) (a : Action) : Action :=
  mkAction (a_actions a) (a_parent a) (a_repeat a) (a_wait_frames a) (a_speed
    a) (a_speed_frames a) (a_direction a) (a_direction_frames a) (a_aiming a)
    (a_mx a) (a_my a) (a_accel_frames a) (a_previous_fire_direction a)
    (a_previous_fire_speed a) (a_params a) (a_pc a) v.

(** A bullet.  [b_target] is the position of the target object, if there is
    one; [b_actions] names the list object in [Bullet.actions];
    [b_apearance] is the attribute of that name, which a bullet has only
    once an [Appearance] node has run (see [Appearance_call]). *)
Record Bullet : Type := mkBullet {
  b_x : R;
  b_y : R;
  b_px : R;
  b_py : R;
  b_radius : R;
  b_mx : R;
  b_my : R;
  b_direction : R;
  b_speed : R;
  b_vanished : bool;
  b_finished : bool;
  b_target : option (R * R);
  b_rank : R;
  b_tags : gset tag;
  b_appearance : option string;
  b_apearance : option (option string);
  b_actions : lid;
}.

Definition set_b_x (v : R) (b : Bullet) : Bullet :=
  mkBullet v (b_y b) (b_px b) (b_py b) (b_radius b) (b_mx b) (b_my b)
    (b_direction b) (b_speed b) (b_vanished b) (b_finished b) (b_target b)
    (b_rank b) (b_tags b) (b_appearance b) (b_apearance b) (b_actions b).
Definition set_b_y (v : R) (b : Bullet) : Bullet :=
  mkBullet (b_x b) v (b_px b) (b_py b) (b_radius b) (b_mx b) (b_my b)
    (b_direction b) (b_speed b) (b_vanished b) (b_finished b) (b_target b)
    (b_rank b) (b_tags b) (b_appearance b) (b_apearance b) (b_actions b).
Definition set_b_px (v : R) (b : Bullet) : Bullet :=
  mkBullet (b_x b) (b_y b) v (b_py b) (b_radius b) (b_mx b) (b_my b)
    (b_direction b) (b_speed b) (b_vanished b) (b_finished b) (b_target b)
    (b_rank b) (b_tags b) (b_appearance b) (b_apearance b) (b_actions b).
Definition set_b_py (v : R) (b : Bullet) : Bullet :=
  mkBullet (b_x b) (b_y b) (b_px b) v (b_radius b) (b_mx b) (b_my b)
    (b_direction b) (b_speed b) (b_vanished b) (b_finished b) (b_target b)
    (b_rank b) (b_tags b) (b_appearance b) (b_apearance b) (b_actions b).
Definition set_b_mx (v : R) (b : Bullet) : Bullet :=
  mkBullet (b_x b) (b_y b) (b_px b) (b_py b) (b_radius b) v (b_my b)
    (b_direction b) (b_speed b) (b_vanished b) (b_finished b) (b_target b)
    (b_rank b) (b_tags b) (b_appearance b) (b_apearance b) (b_actions b).
Definition set_b_my (v : R) (b : Bullet) : Bullet :=
  mkBullet (b_x b) (b_y b) (b_px b) (b_py b) (b_radius b) (b_mx b) v
    (b_direction b) (b_speed b) (b_vanished b) (b_finished b) (b_target b)
    (b_rank b) (b_tags b) (b_appearance b) (b_apearance b) (b_actions b).
Definition set_b_direction (v : R) (b : Bullet) : Bullet :=
  mkBullet (b_x b) (b_y b) (b_px b) (b_py b) (b_radius b) (b_mx b) (b_my b) v
    (b_speed b) (b_vanished b) (b_finished b) (b_target b) (b_rank b) (b_tags
    b) (b_appearance b) (b_apearance b) (b_actions b).
Definition set_b_speed (v : R) (b : Bullet) : Bullet :=
  mkBullet (b_x b) (b_y b) (b_px b) (b_py b) (b_radius b) (b_mx b) (b_my b)
    (b_direction b) v (b_vanished b) (b_finished b) (b_target b) (b_rank b)
    (b_tags b) (b_appearance b) (b_apearance b) (b_actions b).
Definition set_b_vanished (v : bool) (b : Bullet) : Bullet :=
  mkBullet (b_x b) (b_y b) (b_px b) (b_py b) (b_radius b) (b_mx b) (b_my b)
    (b_direction b) (b_speed b) v (b_finished b) (b_target b) (b_rank b)
    (b_tags b) (b_appearance b) (b_apearance b) (b_actions b).
Definition set_b_finished (v : bool) (b : Bullet) : Bullet :=
  mkBullet (b_x b) (b_y b) (b_px b) (b_py b) (b_radius b) (b_mx b) (b_my b)
    (b_direction b) (b_speed b) (b_vanished b) v (b_target b) (b_rank b)
    (b_tags b) (b_appearance b) (b_apearance b) (b_actions b).
Definition set_b_tags (v : gset tag) (b : Bullet) : Bullet :=
  mkBullet (b_x b) (b_y b) (b_px b) (b_py b) (b_radius b) (b_mx b) (b_my b)
    (b_direction b) (b_speed b) (b_vanished b) (b_finished b) (b_target b)
    (b_rank b) v (b_appearance b) (b_apearance b) (b_actions b).
Definition set_b_appearance (v : option string) (b : Bullet) : Bullet :=
  mkBullet (b_x b) (b_y b) (b_px b) (b_py b) (b_radius b) (b_mx b) (b_my b)
    (b_direction b) (b_speed b) (b_vanished b) (b_finished b) (b_target b)
    (b_rank b) (b_tags b) v (b_apearance b) (b_actions b).
Definition set_b_apearance (v : option (option string)) (b : Bullet) : Bullet
    :=
  mkBullet (b_x b) (b_y b) (b_px b) (b_py b) (b_radius b) (b_mx b) (b_my b)
    (b_direction b) (b_speed b) (b_vanished b) (b_finished b) (b_target b)
    (b_rank b) (b_tags b) (b_appearance b) v (b_actions b).
Definition set_b_actions (v : lid) (b : Bullet) : Bullet :=
  mkBullet (b_x b) (b_y b) (b_px b) (b_py b) (b_radius b) (b_mx b) (b_my b)
    (b_direction b) (b_speed b) (b_vanished b) (b_finished b) (b_target b)
    (b_rank b) (b_tags b) (b_appearance b) (b_apearance b) v.

(** What a step reads and writes: the heap of running actions, the heap of
    list objects, the bullet that is stepped, the list [created] of the
    bullets spawned so far in the step, and the random source. *)
Record World : Type := mkWorld {
  w_heap : list Action;
  w_lists : list (list addr);
  w_owner : Bullet;
  w_created : list Bullet;
  w_random : rng;
}.

Definition set_w_heap (v : list Action) (w : World) : World :=
  mkWorld v (w_lists w) (w_owner w) (w_created w) (w_random w).
Definition set_w_lists (v : list (list addr)) (w : World) : World :=
  mkWorld (w_heap w) v (w_owner w) (w_created w) (w_random w).
Definition set_w_owner (v : Bullet) (w : World) : World :=
  mkWorld (w_heap w) (w_lists w) v (w_created w) (w_random w).
Definition set_w_created (v : list Bullet) (w : World) : World :=
  mkWorld (w_heap w) (w_lists w) (w_owner w) v (w_random w).
Definition set_w_random (v : rng) (w : World) : World :=
  mkWorld (w_heap w) (w_lists w) (w_owner w) (w_created w) v.


(** ** State and exceptions

    [ST S A] is a computation over a state [S] that returns an [A], raises
    an exception, or runs out of fuel. *)

Definition ST (S A : Type) : Type := S -> result (A * S).

Definition ret {S A} (a : A) : ST S A := fun s => Ok (a, s).

Definition bind {S A B} (m : ST S A) (k : A -> ST S B) : ST S B :=
  fun s =>
    match m s with
    | Ok (a, s1) => k a s1
    | Raise e => Raise e
    | Diverge => Diverge
    end.

Definition raise {S A} (e : exn) : ST S A := fun _ => Raise e.

Definition diverge {S A} : ST S A := fun _ => Diverge.

(** A result that does not touch the state. *)
Definition lift {S A} (r : result A) : ST S A :=
  fun s =>
    match r with
    | Ok a => Ok (a, s)
    | Raise e => Raise e
    | Diverge => Diverge
    end.

Notation "'let*' x ':=' m 'in' k" := (bind m (fun x => k))
  (at level 10, x pattern, m at level 100, k at level 200).

Notation "m1 '>>' m2" := (bind m1 (fun _ => m2))
  (at level 61, left associativity).

Fixpoint mapM {S A B} (f : A -> ST S B) (l : list A) : ST S (list B) :=
  match l with
  | [] => ret []
  | x :: l' => let* y := f x in let* ys := mapM f l' in ret (y :: ys)
  end.

Fixpoint foldM {S A B} (f : B -> A -> ST S B) (b : B) (l : list A) : ST S B :=
  match l with
  | [] => ret b
  | x :: l' => let* b' := f b x in foldM f b' l'
  end.

(** The monad of a step. *)
Definition M : Type -> Type := ST World.

Definition get_action (a : addr) : M Action :=
  fun w =>
    match w_heap w !! a with
    | Some x => Ok (x, w)
    | None => Raise DanglingReference
    end.

Definition update_action (a : addr) (f : Action -> Action) : M unit :=
  fun w =>
    match w_heap w !! a with
    | Some x => Ok (tt, set_w_heap (<[a := f x]> (w_heap w)) w)
    | None => Raise DanglingReference
    end.

Definition new_action (x : Action) : M addr :=
  fun w => Ok (length (w_heap w), set_w_heap (w_heap w ++ [x]) w).

Definition get_owner : M Bullet := fun w => Ok (w_owner w, w).

Definition update_owner (f : Bullet -> Bullet) : M unit :=
  fun w => Ok (tt, set_w_owner (f (w_owner w)) w).

Definition get_list (l : lid) : M (list addr) :=
  fun w =>
    match w_lists w !! l with
    | Some x => Ok (x, w)
    | None => Raise DanglingReference
    end.

Definition put_list (l : lid) (x : list addr) : M unit :=
  fun w =>
    match w_lists w !! l with
    | Some _ => Ok (tt, set_w_lists (<[l := x]> (w_lists w)) w)
    | None => Raise DanglingReference
    end.

Definition new_list (x : list addr) : M lid :=
  fun w => Ok (length (w_lists w), set_w_lists (w_lists w ++ [x]) w).

Definition append_created (b : Bullet) : M unit :=
  fun w => Ok (tt, set_w_created (w_created w ++ [b]) w).

(** An evaluation that draws from the random source. *)
Definition with_random {A} (f : rng -> result (A * rng)) : M A :=
  fun w =>
    match f (w_random w) with
    | Ok (a, g) => Ok (a, set_w_random g w)
    | Raise e => Raise e
    | Diverge => Diverge
    end.

(** ** [Action] and [Bullet]: construction, [vanish], [replace] *)

(** [Action.copy_state(self, other)] *)
Definition Action_copy_state (other self : Action) : Action :=
  mkAction (a_actions self) (a_parent self) (a_repeat self)
    (a_wait_frames self) (a_speed other) (a_speed_frames other)
    (a_direction other) (a_direction_frames other) (a_aiming other)
    (a_mx other) (a_my other) (a_accel_frames other)
    (a_previous_fire_direction other) (a_previous_fire_speed other)
    (a_params self) (a_pc self) (a_finished self).

(** The fields [Action.__init__] sets before it looks at [parent]. *)
Definition Action_fresh (parent : option addr) (actions : list Node)
    (params : list R) (repeat : Z) : Action :=
  mkAction actions parent repeat 0 0 0 0 0 false 0 0 0 0 0 params
    (Some (-1)%Z) false.

(** [Action(parent, actions, params, rank, repeat)] *)
Definition Action_init (parent : option addr) (actions : list Node)
    (params : list R) (repeat : Z) : M addr :=
  match parent with
  | Some p =>
      let* P := get_action p in
      new_action (Action_copy_state P (Action_fresh parent actions params repeat))
  | None => new_action (Action_fresh parent actions params repeat)
  end.

(** [Action.vanish(self)]: the parents first.  [fuel] bounds the length of
    the chain of parents. *)
Fixpoint Action_vanish (fuel : nat) (self : addr) : M unit :=
  match fuel with
  | O => diverge
  | S f =>
      let* A := get_action self in
      (match a_parent A with
       | Some p => Action_vanish f p
       | None => ret tt
       end) >>
      update_action self (fun A => set_a_finished true (set_a_pc None A))
  end.

(** [Bullet.aim] *)
Definition Bullet_aim (b : Bullet) : R :=
  match b_target b with
  | Some (target_x, target_y) => atan2 (target_x - b_x b) (target_y - b_y b)
  | None => 0
  end.

(** [Bullet.__init__], given the list object made from [actions]. *)
Definition Bullet_fresh (x y direction speed : R) (target : option (R * R))
    (actions : lid) (rank : R) (tags : gset tag) (appearance : option string)
    (radius : R) : Bullet :=
  mkBullet x y x y radius 0 0 direction speed false false target rank tags
    appearance None actions.

(** [Bullet(x, y, direction, speed, target, actions, rank, tags,
    appearance)], with the default radius. *)
Definition Bullet_init (x y direction speed : R) (target : option (R * R))
    (actions : list addr) (rank : R) (tags : gset tag)
    (appearance : option string) : M Bullet :=
  let* l := new_list actions in
  ret (Bullet_fresh x y direction speed target l rank tags appearance (1 / 2)).

(** [Bullet.vanish(self)].  A chain of parents is no longer than the heap. *)
Definition Bullet_vanish : M unit :=
  update_owner (set_b_vanished true) >>
  let* B := get_owner in
  let* l := get_list (b_actions B) in
  mapM (fun a => fun w => Action_vanish (S (length (w_heap w))) a w) l >>
  let* e := new_list [] in
  update_owner (set_b_actions e).

(** [l.index(x)]; [None] is a [ValueError]. *)
Fixpoint list_index (x : addr) (l : list addr) : option nat :=
  match l with
  | [] => None
  | y :: l' => if decide (x = y) then Some O else S <$> list_index x l'
  end.

(** [Bullet.replace(self, old, new)] *)
Definition Bullet_replace (old new : addr) : M unit :=
  let* B := get_owner in
  let* l := get_list (b_actions B) in
  match list_index old l with
  | None => ret tt
  | Some idx => put_list (b_actions B) (<[idx := new]> l)
  end.

(** ** The nodes, executed ([__call__] of each class) *)

(** [ParamList.__call__] *)
Definition ParamList_call (ps : ParamList) (params : list R) (rank : R)
  : M (list R) :=
  mapM (fun p => with_random (NumberDef_call p params rank)) ps.

(** [Direction.__call__] *)
Definition Direction_call (d : Direction) (params : list R) (rank : R)
  : M (R * dir_type) :=
  let* v := with_random (NumberDef_call (dir_value d) params rank) in
  ret (radians v, dir_kind d).

(** [Speed.__call__] *)
Definition Speed_call (s : Speed) (params : list R) (rank : R)
  : M (R * spd_type) :=
  let* v := with_random (NumberDef_call (spd_value s) params rank) in
  ret (v, spd_kind s).

(** [Offset.__call__] *)
Definition Offset_call (o : Offset) (params : list R) (rank : R)
  : M (R * R) :=
  let* x := match off_x o with
            | Some e => with_random (NumberDef_call e params rank)
            | None => ret 0%R
            end in
  let* y := match off_y o with
            | Some e => with_random (NumberDef_call e params rank)
            | None => ret 0%R
            end in
  ret (x, y).

(** [x and x(params, rank)] for an optional [Direction] or [Speed]. *)
Definition opt_call {X V} (call : X -> list R -> R -> M V) (x : option X)
    (params : list R) (rank : R) : M (option V) :=
  match x with
  | Some d => let* v := call d params rank in ret (Some v)
  | None => ret None
  end.

Section Arming.
Local Open Scope R_scope.

(** What [ChangeDirection.__call__] does to the action and its owner, once
    [frames] and [(direction, type)] are evaluated. *)
Definition ChangeDirection_arm (frames : Z) (direction : R) (type : dir_type)
    (A : Action) (B : Bullet) : Action * Bullet :=
  let A := set_a_aiming false (set_a_direction_frames frames A) in
  match type with
  | sequence => (set_a_direction direction A, B)
  | _ =>
      let '(A, direction) :=
        match type with
        | absolute => (A, direction - b_direction B)
        | relative => (A, direction)
        | _ => (set_a_aiming true A,
                direction + (Bullet_aim B - b_direction B))
        end in
      (* Normalize to [-pi, pi). *)
      let direction := py_mod (direction + PI) PI_2 - PI in
      if (frames <=? 0)%Z
      then (A, set_b_direction (b_direction B + direction) B)
      else (set_a_direction (direction / IZR frames) A, B)
  end.

(** [ChangeSpeed.__call__], likewise. *)
Definition ChangeSpeed_arm (frames : Z) (speed : R) (type : spd_type)
    (A : Action) (B : Bullet) : Action * Bullet :=
  let A := set_a_speed_frames frames A in
  if (frames <=? 0)%Z then
    match type with
    | spd_absolute => (A, set_b_speed speed B)
    | spd_relative => (A, set_b_speed (b_speed B + speed) B)
    | spd_sequence => (A, B)
    end
  else
    match type with
    | spd_sequence => (set_a_speed speed A, B)
    | spd_relative => (set_a_speed (speed / IZR frames) A, B)
    | spd_absolute => (set_a_speed ((speed - b_speed B) / IZR frames) A, B)
    end.

(** The [horizontal] half of [Accel.__call__]. *)
Definition Accel_arm_x (frames : Z) (horizontal : option (R * spd_type))
    (A : Action) (B : Bullet) : Action * Bullet :=
  match horizontal with
  | None => (A, B)
  | Some (mx, type) =>
      if (frames <=? 0)%Z then
        match type with
        | spd_absolute => (A, set_b_mx mx B)
        | spd_relative => (A, set_b_mx (b_mx B + mx) B)
        | spd_sequence => (A, B)
        end
      else
        match type with
        | spd_sequence => (set_a_mx mx A, B)
        | spd_absolute => (set_a_mx ((mx - b_mx B) / IZR frames) A, B)
        | spd_relative => (set_a_mx (mx / IZR frames) A, B)
        end
  end.

(** The [vertical] half of [Accel.__call__]. *)
Definition Accel_arm_y (frames : Z) (vertical : option (R * spd_type))
    (A : Action) (B : Bullet) : Action * Bullet :=
  match vertical with
  | None => (A, B)
  | Some (my, type) =>
      if (frames <=? 0)%Z then
        match type with
        | spd_absolute => (A, set_b_my my B)
        | spd_relative => (A, set_b_my (b_my B + my) B)
        | spd_sequence => (A, B)
        end
      else
        match type with
        | spd_sequence => (set_a_my my A, B)
        | spd_absolute => (set_a_my ((my - b_my B) / IZR frames) A, B)
        | spd_relative => (set_a_my (my / IZR frames) A, B)
        end
  end.

(** The head of [Action.step]: the pending changes of speed, direction and
    acceleration, each for one frame. *)
Definition step_speed (A : Action) (B : Bullet) : Action * Bullet :=
  if (0 <? a_speed_frames A)%Z
  then (set_a_speed_frames (a_speed_frames A - 1) A,
        set_b_speed (b_speed B + a_speed A) B)
  else (A, B).

Definition step_direction (A : Action) (B : Bullet) : Action * Bullet :=
  if (0 <? a_direction_frames A)%Z then
    let A := set_a_direction_frames (a_direction_frames A - 1) A in
    (* I'm still not sure what the aim check is supposed to do. *)
    if (a_aiming A && (a_direction_frames A <=? 0)%Z)%bool
    then (A, set_b_direction (b_direction B + Bullet_aim B) B)
    else (A, set_b_direction (b_direction B + a_direction A) B)
  else (A, B).

Definition step_accel (A : Action) (B : Bullet) : Action * Bullet :=
  if (0 <? a_accel_frames A)%Z
  then (set_a_accel_frames (a_accel_frames A - 1) A,
        set_b_my (b_my B + a_my A) (set_b_mx (b_mx B + a_mx A) B))
  else (A, B).

Definition step_changes (A : Action) (B : Bullet) : Action * Bullet :=
  let '(A, B) := step_speed A B in
  let '(A, B) := step_direction A B in
  step_accel A B.

(** The tail of [Bullet.step]: the move. *)
Definition Bullet_move (B : Bullet) : Bullet :=
  let speed := b_speed B in
  let direction := b_direction B in
  let B := set_b_py (b_y B) (set_b_px (b_x B) B) in
  let B := set_b_x (b_x B + (b_mx B + sin direction * speed)) B in
  set_b_y (b_y B + (- b_my B + cos direction * speed)) B.

(** The direction of the bullet that a fire spawns. *)
Definition fire_direction (direction : option (R * dir_type)) (A : Action)
    (B : Bullet) : R :=
  match direction with
  | Some (direction, type) =>
      match type with
      | aim => direction + Bullet_aim B
      | sequence => direction + a_previous_fire_direction A
      | relative => direction + b_direction B
      | absolute => direction
      end
  | None => Bullet_aim B
  end.

(** The speed of the bullet that a fire spawns. *)
Definition fire_speed (speed : option (R * spd_type)) (A : Action)
    (B : Bullet) : R :=
  match speed with
  | Some (speed, type) =>
      match type with
      | spd_sequence => speed + a_previous_fire_speed A
      | spd_relative => speed + b_speed B
      | spd_absolute => speed
      end
  | None => 1
  end.

(** The position of the bullet that a fire spawns. *)
Definition fire_position (offset : option (off_type * (R * R)))
    (direction : R) (B : Bullet) : R * R :=
  let x := b_x B in
  let y := b_y B in
  match offset with
  | Some (type, (off_x, off_y)) =>
      match type with
      | off_relative =>
          let s := sin direction in
          let c := cos direction in
          (x + (c * off_x + s * off_y), y + (s * off_x - c * off_y))
      | off_absolute => (x + off_x, y + off_y)
      end
  | None => (x, y)
  end.

End Arming.

(** [s.remove(t)] on a set. *)
Definition set_remove (t : tag) (s : gset tag) : result (gset tag) :=
  if decide (t ∈ s) then Ok (s ∖ {[t]}) else Raise KeyError.

Section Interpreter.

(** The definitions that the references of the document point to. *)
Variable tables : Tables.

(** Apply a change of the action [self] and of the owner. *)
Definition arm (self : addr) (f : Action -> Bullet -> Action * Bullet)
  : M unit :=
  let* A := get_action self in
  let* B := get_owner in
  update_action self (fun _ => fst (f A B)) >>
  update_owner (fun _ => snd (f A B)).

(** [ChangeDirection.__call__] *)
Definition ChangeDirection_call (term : INumberDef) (direction : Direction)
    (self : addr) (params : list R) (rank : R) : M bool :=
  let* frames := with_random (INumberDef_call term params rank) in
  let* d := Direction_call direction params rank in
  arm self (ChangeDirection_arm frames (fst d) (snd d)) >>
  ret false.

(** [ChangeSpeed.__call__] *)
Definition ChangeSpeed_call (term : INumberDef) (speed : Speed)
    (self : addr) (params : list R) (rank : R) : M bool :=
  let* frames := with_random (INumberDef_call term params rank) in
  let* s := Speed_call speed params rank in
  arm self (ChangeSpeed_arm frames (fst s) (snd s)) >>
  ret false.

(** [Accel.__call__] *)
Definition Accel_call (term : INumberDef) (horizontal vertical : option Speed)
    (self : addr) (params : list R) (rank : R) : M bool :=
  let* frames := with_random (INumberDef_call term params rank) in
  let* h := opt_call Speed_call horizontal params rank in
  let* v := opt_call Speed_call vertical params rank in
  update_action self (set_a_accel_frames frames) >>
  arm self (Accel_arm_x frames h) >>
  arm self (Accel_arm_y frames v) >>
  ret false.

(** [Wait.__call__] *)
Definition Wait_call (frames : INumberDef) (self : addr) (params : list R)
    (rank : R) : M bool :=
  let* n := with_random (INumberDef_call frames params rank) in
  update_action self (set_a_wait_frames n) >>
  ret true.

(** [Tag.__call__] *)
Definition Tag_call (t : tag) : M bool :=
  update_owner (fun B => set_b_tags ({[t]} ∪ b_tags B) B) >>
  ret false.

(** [Untag.__call__]: a [KeyError] is passed over. *)
Definition Untag_call (t : tag) : M bool :=
  let* B := get_owner in
  match set_remove t (b_tags B) with
  | Ok s => update_owner (set_b_tags s) >> ret false
  | Raise KeyError => ret false
  | Raise e => raise e
  | Diverge => diverge
  end.

(** [Appearance.__call__]: the attribute it assigns is [apearance]. *)
Definition Appearance_call (appearance : option string) : M bool :=
  update_owner (set_b_apearance (Some appearance)) >>
  ret false.

(** [Vanish.__call__] *)
Definition Vanish_call : M bool :=
  Bullet_vanish >>
  ret true.

(** A reference that was not resolved still holds a string, and calling a
    string is a [TypeError]. *)
Definition resolve {V} (l : label) (d : dict V) : M V :=
  match dict_get l d with
  | Some v => ret v
  | None => raise TypeError
  end.

(** [ActionDef.__call__] and [ActionRef.__call__] with [owner = None], as
    [BulletDef.__call__] calls them: the new action has no parent and is not
    stepped. *)
Definition ActionNode_make (a : ActionNode) (params : list R) (rank : R)
  : M addr :=
  match a with
  | ADef d => Action_init None (ad_actions d) params 1
  | ActionRef l ps =>
      let* params := ParamList_call ps params rank in
      let* d := resolve l (t_actions tables) in
      Action_init None (ad_actions d) params 1
  end.

(** [BulletDef.__call__] *)
Definition BulletDef_call (d : BulletDef) (params : list R) (rank : R)
  : M (option (R * dir_type) * option (R * spd_type) * gset tag
       * option string * list addr) :=
  let* actions := mapM (fun a => ActionNode_make a params rank)
                       (bd_actions d) in
  let* direction := opt_call Direction_call (bd_direction d) params rank in
  let* speed := opt_call Speed_call (bd_speed d) params rank in
  ret (direction, speed, bd_tags d, bd_appearance d, actions).

(** [self.bullet(owner, action, params, rank, created)] in a fire: a
    [BulletDef], or a [BulletRef] with its own parameters. *)
Definition BulletNode_call (b : BulletNode) (params : list R) (rank : R)
  : M (option (R * dir_type) * option (R * spd_type) * gset tag
       * option string * list addr) :=
  match b with
  | BDef d => BulletDef_call d params rank
  | BulletRef l ps =>
      let* params := ParamList_call ps params rank in
      let* d := resolve l (t_bullets tables) in
      BulletDef_call d params rank
  end.

(** [FireDef.__call__].  It returns nothing, so the action goes on to its
    next node in the same frame. *)
Definition FireDef_call (d : FireDef) (self : addr) (params : list R)
    (rank : R) : M bool :=
  let* (direction, speed, tags, appearance, actions) :=
    BulletNode_call (fd_bullet d) params rank in
  let* direction :=
    match fd_direction d with
    | Some x => let* v := Direction_call x params rank in ret (Some v)
    | None => ret direction
    end in
  let* speed :=
    match fd_speed d with
    | Some x => let* v := Speed_call x params rank in ret (Some v)
    | None => ret speed
    end in
  let tags := tags ∪ fd_tags d in
  let appearance :=
    match fd_appearance d with
    | Some a => Some a
    | None => appearance
    end in
  let* B := get_owner in
  let* A := get_action self in
  let direction := fire_direction direction A B in
  update_action self (set_a_previous_fire_direction direction) >>
  let speed := fire_speed speed A B in
  update_action self (set_a_previous_fire_speed speed) >>
  let* offset :=
    match fd_offset d with
    | Some o => let* v := Offset_call o params rank in ret (Some (off_kind o, v))
    | None => ret None
    end in
  let '(x, y) := fire_position offset direction B in
  let appearance :=
    match appearance with
    | None => b_appearance B
    | Some a => Some a
    end in
  let* bullet := Bullet_init x y direction speed (b_target B) actions rank
                   tags appearance in
  append_created bullet >>
  ret false.

(** [FireDef.__call__] or [FireRef.__call__] *)
Definition FireNode_call (f : FireNode) (self : addr) (params : list R)
    (rank : R) : M bool :=
  match f with
  | FDef d => FireDef_call d self params rank
  | FireRef l ps =>
      let* params := ParamList_call ps params rank in
      let* d := resolve l (t_fires tables) in
      FireDef_call d self params rank
  end.

(** [ActionDef.__call__(owner, action, params, rank, created, repeat)] with
    an owner: the child takes the place of its parent and is stepped at
    once.  The child it returns is true. *)
Definition ActionDef_call (step : addr -> M unit) (d : ActionDef)
    (parent : addr) (params : list R) (repeat : Z) : M bool :=
  let* child := Action_init (Some parent) (ad_actions d) params repeat in
  Bullet_replace parent child >>
  step child >>
  ret true.

(** [ActionDef.__call__] or [ActionRef.__call__] *)
Definition ActionNode_call (step : addr -> M unit) (a : ActionNode)
    (self : addr) (params : list R) (rank : R) (repeat : Z) : M bool :=
  match a with
  | ADef d => ActionDef_call step d self params repeat
  | ActionRef l ps =>
      let* params := ParamList_call ps params rank in
      let* d := resolve l (t_actions tables) in
      ActionDef_call step d self params repeat
  end.

(** [Repeat.__call__] *)
Definition Repeat_call (step : addr -> M unit) (times : INumberDef)
    (action : ActionNode) (self : addr) (params : list R) (rank : R)
  : M bool :=
  let* repeat := with_random (INumberDef_call times params rank) in
  ActionNode_call step action self params rank repeat.

(** [If.__call__] *)
Definition If_call (step : addr -> M unit) (cond : INumberDef)
    (then_ : ActionDef) (else_ : option ActionDef) (self : addr)
    (params : list R) (rank : R) : M bool :=
  let* c := with_random (INumberDef_call cond params rank) in
  let branch := if decide (c = 0%Z) then else_ else Some then_ in
  match branch with
  | Some d => ActionDef_call step d self params 1
  | None => ret false
  end.

(** [action(owner, self, s_params, rank, created)] for a node of an action:
    true when the action is to stop for this frame.  [step] steps a child. *)
Definition Node_call_with (step : addr -> M unit) (n : Node) (self : addr)
    (params : list R) (rank : R) : M bool :=
  match n with
  | ChangeDirection term direction =>
      ChangeDirection_call term direction self params rank
  | ChangeSpeed term speed => ChangeSpeed_call term speed self params rank
  | Accel term horizontal vertical =>
      Accel_call term horizontal vertical self params rank
  | Wait frames => Wait_call frames self params rank
  | Tag t => Tag_call t
  | Untag t => Untag_call t
  | Appearance a => Appearance_call a
  | Vanish => Vanish_call
  | Repeat times action => Repeat_call step times action self params rank
  | If cond then_ else_ => If_call step cond then_ else_ self params rank
  | Fire f => FireNode_call f self params rank
  | Act a => ActionNode_call step a self params rank 1
  end.

(** The loop of [Action.step], one turn: [call] executes a node and [again]
    is the rest of the loop. *)
Definition Action_run_with (call : Node -> addr -> list R -> R -> M bool)
    (again : addr -> list R -> R -> M unit) (self : addr)
    (s_params : list R) (rank : R) : M unit :=
  let* A := get_action self in
  match a_pc A with
  | None => raise TypeError                       (* None += 1 *)
  | Some pc =>
      update_action self (set_a_pc (Some (pc + 1)%Z)) >>
      match py_index (a_actions A) (pc + 1) with
      | Some action =>
          let* stop := call action self s_params rank in
          if stop : bool then ret tt else again self s_params rank
      | None =>                                   (* IndexError *)
          update_action self (set_a_repeat (a_repeat A - 1)%Z) >>
          if (a_repeat A - 1 <=? 0)%Z then
            update_action self (set_a_pc None) >>
            update_action self (set_a_finished true) >>
            match a_parent A with
            | Some parent =>
                let* A' := get_action self in
                update_action parent (Action_copy_state A') >>
                Bullet_replace self parent
            | None => ret tt
            end
          else
            update_action self (set_a_pc (Some 0%Z)) >>
            match py_index (a_actions A) 0 with
            | Some action =>
                let* stop := call action self s_params rank in
                if stop : bool then ret tt else again self s_params rank
            | None => raise IndexError
            end
      end
  end.

(** [Action.step(self, owner, created)]; [run] is its loop. *)
Definition Action_step_with (run : addr -> list R -> R -> M unit)
    (self : addr) : M unit :=
  arm self step_changes >>
  let* A := get_action self in
  match a_pc A with
  | None => ret tt
  | Some _ =>
      if (0 <? a_wait_frames A)%Z
      then update_action self (set_a_wait_frames (a_wait_frames A - 1)%Z)
      else
        let* B := get_owner in
        run self (a_params A) (b_rank B)
  end.

(** The three are tied by [fuel], which bounds the turns of the loops and
    the depth of the actions that start one another. *)
Fixpoint Action_step (fuel : nat) (self : addr) {struct fuel} : M unit :=
  match fuel with
  | O => diverge
  | S f => Action_step_with (Action_run f) self
  end
with Action_run (fuel : nat) (self : addr) (s_params : list R) (rank : R)
    {struct fuel} : M unit :=
  match fuel with
  | O => diverge
  | S f => Action_run_with (Node_call f) (Action_run f) self s_params rank
  end
with Node_call (fuel : nat) (n : Node) (self : addr) (params : list R)
    (rank : R) {struct fuel} : M bool :=
  match fuel with
  | O => diverge
  | S f => Node_call_with (Action_step f) n self params rank
  end.

(** [for action in self.actions: action.step(self, created); finished =
    finished and action.finished], over the list object [l] from index [i];
    the list keeps its length, so [n] turns are enough when [n] is what is
    left of it. *)
Fixpoint step_actions (fuel : nat) (l : lid) (n i : nat) (finished : bool)
  : M bool :=
  match n with
  | O => ret finished
  | S n' =>
      let* actions := get_list l in
      match actions !! i with
      | None => ret finished
      | Some action =>
          Action_step fuel action >>
          let* A := get_action action in
          step_actions fuel l n' (S i) (finished && a_finished A)
      end
  end.

(** [for action in self.actions: finished = finished and action.finished] *)
Definition all_finished (finished : bool) : M bool :=
  let* B := get_owner in
  let* actions := get_list (b_actions B) in
  let* As := mapM get_action actions in
  ret (fold_left (fun f A => f && a_finished A) As finished).

(** [Bullet.step(self)] *)
Definition Bullet_step (fuel : nat) : M (list Bullet) :=
  (fun w => Ok (tt, set_w_created [] w)) >>
  let* B := get_owner in
  let finished := b_vanished B in
  let* actions := get_list (b_actions B) in
  let* finished :=
    step_actions fuel (b_actions B) (length actions) 0 finished in
  let* finished :=
    if finished : bool then all_finished finished else ret finished in
  update_owner (set_b_finished finished) >>
  update_owner Bullet_move >>
  fun w => Ok (w_created w, w).

End Interpreter.

(** ** The loader ([FromXML] of each class)

    The XML text is parsed by [xml.etree.ElementTree], which is not part of
    the repository: the loader is modelled from the element tree on. *)

Inductive Element : Type :=
| mkElement (e_tag : string) (e_attrib : list (string * string))
    (e_text : option string) (e_children : list Element).

Definition e_tag (e : Element) : string :=
  match e with mkElement t _ _ _ => t end.
Definition e_attrib (e : Element) : list (string * string) :=
  match e with mkElement _ a _ _ => a end.
Definition e_text (e : Element) : option string :=
  match e with mkElement _ _ t _ => t end.
Definition e_children (e : Element) : list Element :=
  match e with mkElement _ _ _ c => c end.

(** [element.get(key)] *)
Fixpoint attrib_get (key : string) (a : list (string * string))
  : option string :=
  match a with
  | [] => None
  | (k, v) :: a' => if String.eqb key k then Some v else attrib_get key a'
  end.

Definition e_get (e : Element) (key : string) : option string :=
  attrib_get key (e_attrib e).

(** [realtag(element)]: [element.tag.rsplit('}', 1)[1]].  A tag with no
    ['}'] splits into one item, and the index [1] is an [IndexError], which
    the [except ValueError] does not catch. *)
Definition realtag (e : Element) : result string :=
  match Str.after_last "}" (e_tag e) with
  | Some t => Ok t
  | None => Raise IndexError
  end.

(** What [FromXML] writes to while a document is loaded: the tables
    [_bullets], [_actions], [_fires], the lists of the references met, and
    the random source. *)
Record DocState : Type := mkDocState {
  ds_bullets : dict BulletDef;
  ds_actions : dict ActionDef;
  ds_fires : dict FireDef;
  ds_bullet_refs : list label;
  ds_action_refs : list label;
  ds_fire_refs : list label;
  ds_random : rng;
}.

Definition L : Type -> Type := ST DocState.

Definition set_bullet (l : label) (d : BulletDef) : L unit :=
  fun s => Ok (tt, mkDocState (dict_set l d (ds_bullets s)) (ds_actions s)
                     (ds_fires s) (ds_bullet_refs s) (ds_action_refs s)
                     (ds_fire_refs s) (ds_random s)).

Definition set_action (l : label) (d : ActionDef) : L unit :=
  fun s => Ok (tt, mkDocState (ds_bullets s) (dict_set l d (ds_actions s))
                     (ds_fires s) (ds_bullet_refs s) (ds_action_refs s)
                     (ds_fire_refs s) (ds_random s)).

Definition set_fire (l : label) (d : FireDef) : L unit :=
  fun s => Ok (tt, mkDocState (ds_bullets s) (ds_actions s)
                     (dict_set l d (ds_fires s)) (ds_bullet_refs s)
                     (ds_action_refs s) (ds_fire_refs s) (ds_random s)).

Definition add_bullet_ref (l : label) : L unit :=
  fun s => Ok (tt, mkDocState (ds_bullets s) (ds_actions s) (ds_fires s)
                     (ds_bullet_refs s ++ [l]) (ds_action_refs s)
                     (ds_fire_refs s) (ds_random s)).

Definition add_action_ref (l : label) : L unit :=
  fun s => Ok (tt, mkDocState (ds_bullets s) (ds_actions s) (ds_fires s)
                     (ds_bullet_refs s) (ds_action_refs s ++ [l])
                     (ds_fire_refs s) (ds_random s)).

Definition add_fire_ref (l : label) : L unit :=
  fun s => Ok (tt, mkDocState (ds_bullets s) (ds_actions s) (ds_fires s)
                     (ds_bullet_refs s) (ds_action_refs s)
                     (ds_fire_refs s ++ [l]) (ds_random s)).

Definition with_doc_random {A} (f : rng -> result (A * rng)) : L A :=
  fun s =>
    match f (ds_random s) with
    | Ok (a, g) => Ok (a, mkDocState (ds_bullets s) (ds_actions s)
                            (ds_fires s) (ds_bullet_refs s)
                            (ds_action_refs s) (ds_fire_refs s) g)
    | Raise e => Raise e
    | Diverge => Diverge
    end.

(** [Direction.VALID_TYPES], [Speed.VALID_TYPES], [Offset.VALID_TYPES]:
    a type that is not in the list is a [ValueError]. *)
Definition dir_type_of (s : string) : result dir_type :=
  if String.eqb s "relative" then Ok relative
  else if String.eqb s "absolute" then Ok absolute
  else if String.eqb s "aim" then Ok aim
  else if String.eqb s "sequence" then Ok sequence
  else Raise ValueError.

Definition spd_type_of (s : string) : result spd_type :=
  if String.eqb s "relative" then Ok spd_relative
  else if String.eqb s "absolute" then Ok spd_absolute
  else if String.eqb s "sequence" then Ok spd_sequence
  else Raise ValueError.

Definition off_type_of (s : string) : result off_type :=
  if String.eqb s "relative" then Ok off_relative
  else if String.eqb s "absolute" then Ok off_absolute
  else Raise ValueError.

(** The document that [BulletML.FromXML] returns: its type, its top
    actions, and the definitions its references were resolved to. *)
Record BulletML : Type := mkBulletML {
  doc_type : string;
  doc_actions : list ActionDef;
  doc_tables : Tables;
}.

(** [name and name.startswith("top")] *)
Definition is_top (name : label) : bool :=
  match name with
  | None => false
  | Some s => negb (String.eqb s "") && Str.startswith s "top"
  end.

Section Loader.

Variable py_parse : string -> option pyexpr.

Definition new_NumberDef (text : option string) : L NumberDef :=
  with_doc_random (NumberDef_init py_parse text).

Definition new_INumberDef (text : option string) : L INumberDef :=
  with_doc_random (INumberDef_init py_parse text).

(** [ParamList.FromXML] *)
Definition ParamList_FromXML (element : Element) : L ParamList :=
  foldM (fun ps subelem =>
           let* tag := lift (realtag subelem) in
           if String.eqb tag "param"
           then let* p := new_NumberDef (e_text subelem) in ret (ps ++ [p])
           else ret ps)
        [] (e_children element).

(** [Direction.FromXML] *)
Definition Direction_FromXML (element : Element) (type_default : string)
  : L Direction :=
  let type := default type_default (e_get element "type") in
  let* value := new_NumberDef (e_text element) in
  let* type := lift (dir_type_of type) in
  ret (mkDirection type value).

(** [Speed.FromXML] *)
Definition Speed_FromXML (element : Element) : L Speed :=
  let type := default "absolute" (e_get element "type") in
  let* value := new_NumberDef (e_text element) in
  let* type := lift (spd_type_of type) in
  ret (mkSpeed type value).

(** [Offset.FromXML] *)
Definition Offset_FromXML (element : Element) : L Offset :=
  let type := default "relative" (e_get element "type") in
  let* xy :=
    foldM (fun '(x, y) subelem =>
             let* tag := lift (realtag subelem) in
             if String.eqb tag "x"
             then let* v := new_NumberDef (e_text subelem) in ret (Some v, y)
             else if String.eqb tag "y"
             then let* v := new_NumberDef (e_text subelem) in ret (x, Some v)
             else ret (x, y))
          (None, None) (e_children element) in
  let* type := lift (off_type_of type) in
  ret (mkOffset type (fst xy) (snd xy)).

(** [ChangeDirection.FromXML] *)
Definition ChangeDirection_FromXML (element : Element) : L Node :=
  let* td :=
    foldM (fun '(term, direction) subelem =>
             let* tag := lift (realtag subelem) in
             if String.eqb tag "direction"
             then let* d := Direction_FromXML subelem "absolute" in
                  ret (term, Some d)
             else if String.eqb tag "term"
             then let* t := new_INumberDef (e_text subelem) in
                  ret (Some t, direction)
             else ret (term, direction))
          (None, None) (e_children element) in
  match td with
  | (Some term, Some direction) => ret (ChangeDirection term direction)
  | _ => raise ParseError                          (* UnboundLocalError *)
  end.

(** [ChangeSpeed.FromXML] *)
Definition ChangeSpeed_FromXML (element : Element) : L Node :=
  let* ts :=
    foldM (fun '(term, speed) subelem =>
             let* tag := lift (realtag subelem) in
             if String.eqb tag "speed"
             then let* d := Speed_FromXML subelem in ret (term, Some d)
             else if String.eqb tag "term"
             then let* t := new_INumberDef (e_text subelem) in
                  ret (Some t, speed)
             else ret (term, speed))
          (None, None) (e_children element) in
  match ts with
  | (Some term, Some speed) => ret (ChangeSpeed term speed)
  | _ => raise ParseError                          (* UnboundLocalError *)
  end.

(** [Accel.FromXML]: without a [<term>] the [UnboundLocalError] is not the
    [AttributeError] that is caught. *)
Definition Accel_FromXML (element : Element) : L Node :=
  let* thv :=
    foldM (fun '(term, horizontal, vertical) subelem =>
             let* tag := lift (realtag subelem) in
             if String.eqb tag "term"
             then let* t := new_INumberDef (e_text subelem) in
                  ret (Some t, horizontal, vertical)
             else if String.eqb tag "horizontal"
             then let* d := Speed_FromXML subelem in
                  ret (term, Some d, vertical)
             else if String.eqb tag "vertical"
             then let* d := Speed_FromXML subelem in
                  ret (term, horizontal, Some d)
             else ret (term, horizontal, vertical))
          (None, None, None) (e_children element) in
  match thv with
  | (Some term, horizontal, vertical) => ret (Accel term horizontal vertical)
  | _ => raise UnboundLocalError
  end.

(** [Wait.FromXML] *)
Definition Wait_FromXML (element : Element) : L Node :=
  let* frames := new_INumberDef (e_text element) in
  ret (Wait frames).

(** [BulletRef.FromXML], [ActionRef.FromXML], [FireRef.FromXML] *)
Definition BulletRef_FromXML (element : Element) : L BulletNode :=
  let* params := ParamList_FromXML element in
  add_bullet_ref (e_get element "label") >>
  ret (BulletRef (e_get element "label") params).

Definition ActionRef_FromXML (element : Element) : L ActionNode :=
  let* params := ParamList_FromXML element in
  add_action_ref (e_get element "label") >>
  ret (ActionRef (e_get element "label") params).

Definition FireRef_FromXML (element : Element) : L FireNode :=
  let* params := ParamList_FromXML element in
  add_fire_ref (e_get element "label") >>
  ret (FireRef (e_get element "label") params).

(** [Repeat.FromXML]; [action_def] is [ActionDef.FromXML]. *)
Definition Repeat_FromXML (action_def : Element -> L ActionDef)
    (element : Element) : L Node :=
  let* ta :=
    foldM (fun '(times, action) subelem =>
             let* tag := lift (realtag subelem) in
             if String.eqb tag "times"
             then let* t := new_INumberDef (e_text subelem) in
                  ret (Some t, action)
             else if String.eqb tag "action"
             then let* d := action_def subelem in ret (times, Some (ADef d))
             else if String.eqb tag "actionRef"
             then let* r := ActionRef_FromXML subelem in ret (times, Some r)
             else ret (times, action))
          (None, None) (e_children element) in
  match ta with
  | (Some times, Some action) => ret (Repeat times action)
  | _ => raise ParseError                          (* UnboundLocalError *)
  end.

(** [If.FromXML] *)
Definition If_FromXML (action_def : Element -> L ActionDef)
    (element : Element) : L Node :=
  let* cte :=
    foldM (fun '(cond, then_, else_) subelem =>
             let* tag := lift (realtag subelem) in
             if String.eqb tag "cond"
             then let* c := new_INumberDef (e_text subelem) in
                  ret (Some c, then_, else_)
             else if String.eqb tag "then"
             then let* d := action_def subelem in ret (cond, Some d, else_)
             else if String.eqb tag "else"
             then let* d := action_def subelem in ret (cond, then_, Some d)
             else ret (cond, then_, else_))
          (None, None, None) (e_children element) in
  match cte with
  | (Some cond, Some then_, else_) => ret (If cond then_ else_)
  | _ => raise ParseError                          (* UnboundLocalError *)
  end.

(** The fields that [BulletDef.FromXML] collects. *)
Definition BulletDef_FromXML (action_def : Element -> L ActionDef)
    (element : Element) : L BulletDef :=
  let* fields :=
    foldM (fun '(actions, speed, direction, tags) subelem =>
             let* tag := lift (realtag subelem) in
             if String.eqb tag "direction"
             then let* d := Direction_FromXML subelem "absolute" in
                  ret (actions, speed, Some d, tags)
             else if String.eqb tag "speed"
             then let* s := Speed_FromXML subelem in
                  ret (actions, Some s, direction, tags)
             else if String.eqb tag "action"
             then let* d := action_def subelem in
                  ret (actions ++ [ADef d], speed, direction, tags)
             else if String.eqb tag "actionRef"
             then let* r := ActionRef_FromXML subelem in
                  ret (actions ++ [r], speed, direction, tags)
             else if String.eqb tag "tag"
             then ret (actions, speed, direction,
                       {[e_text subelem]} ∪ tags)
             else ret (actions, speed, direction, tags))
          ([], None, None, ∅) (e_children element) in
  let '(actions, speed, direction, tags) := fields in
  let dfn := mkBulletDef actions direction speed tags None in
  set_bullet (e_get element "label") dfn >>
  ret dfn.

(** [FireDef.FromXML] *)
Definition FireDef_FromXML (action_def : Element -> L ActionDef)
    (element : Element) : L FireDef :=
  let* fields :=
    foldM (fun '(bullet, direction, speed, offset, tags, appearance) subelem =>
             let* tag := lift (realtag subelem) in
             if String.eqb tag "direction"
             then let* d := Direction_FromXML subelem "aim" in
                  ret (bullet, Some d, speed, offset, tags, appearance)
             else if String.eqb tag "speed"
             then let* s := Speed_FromXML subelem in
                  ret (bullet, direction, Some s, offset, tags, appearance)
             else if String.eqb tag "bullet"
             then let* b := BulletDef_FromXML action_def subelem in
                  ret (Some (BDef b), direction, speed, offset, tags,
                       appearance)
             else if String.eqb tag "bulletRef"
             then let* b := BulletRef_FromXML subelem in
                  ret (Some b, direction, speed, offset, tags, appearance)
             else if String.eqb tag "offset"
             then let* o := Offset_FromXML subelem in
                  ret (bullet, direction, speed, Some o, tags, appearance)
             else if String.eqb tag "tag"
             then ret (bullet, direction, speed, offset,
                       {[e_text subelem]} ∪ tags, appearance)
             else if String.eqb tag "appearance"
             then ret (bullet, direction, speed, offset, tags,
                       e_text subelem)
             else ret (bullet, direction, speed, offset, tags, appearance))
          (None, None, None, None, ∅, None) (e_children element) in
  match fields with
  | (Some bullet, direction, speed, offset, tags, appearance) =>
      let fire := mkFireDef bullet direction speed offset tags appearance in
      set_fire (e_get element "label") fire >>
      ret fire
  | _ => raise ParseError                          (* UnboundLocalError *)
  end.

(** [ctr.FromXML(doc, subelem)] for [ctr = ActionDef.CONSTRUCTORS[tag]];
    [None] when the tag is not a key of [CONSTRUCTORS]. *)
Definition Node_FromXML (action_def : Element -> L ActionDef) (tag : string)
    (subelem : Element) : L (option Node) :=
  if String.eqb tag "repeat"
  then let* n := Repeat_FromXML action_def subelem in ret (Some n)
  else if String.eqb tag "fire"
  then let* d := FireDef_FromXML action_def subelem in
       ret (Some (Fire (FDef d)))
  else if String.eqb tag "fireRef"
  then let* r := FireRef_FromXML subelem in ret (Some (Fire r))
  else if String.eqb tag "changeSpeed"
  then let* n := ChangeSpeed_FromXML subelem in ret (Some n)
  else if String.eqb tag "changeDirection"
  then let* n := ChangeDirection_FromXML subelem in ret (Some n)
  else if String.eqb tag "accel"
  then let* n := Accel_FromXML subelem in ret (Some n)
  else if String.eqb tag "wait"
  then let* n := Wait_FromXML subelem in ret (Some n)
  else if String.eqb tag "vanish" then ret (Some Vanish)
  else if String.eqb tag "tag" then ret (Some (Tag (e_text subelem)))
  else if String.eqb tag "appearance"
  then ret (Some (Appearance (e_text subelem)))
  else if String.eqb tag "untag" then ret (Some (Untag (e_text subelem)))
  else if String.eqb tag "action"
  then let* d := action_def subelem in ret (Some (Act (ADef d)))
  else if String.eqb tag "actionRef"
  then let* r := ActionRef_FromXML subelem in ret (Some (Act r))
  else if String.eqb tag "if"
  then let* n := If_FromXML action_def subelem in ret (Some n)
  else ret None.

(** [ActionDef.FromXML]; [fuel] bounds the depth of the element. *)
Fixpoint ActionDef_FromXML (fuel : nat) (element : Element) : L ActionDef :=
  match fuel with
  | O => diverge
  | S f =>
      let* actions :=
        foldM (fun actions subelem =>
                 let* tag := lift (realtag subelem) in
                 let* n := Node_FromXML (ActionDef_FromXML f) tag subelem in
                 match n with
                 | Some node => ret (actions ++ [node])
                 | None => ret actions
                 end)
              [] (e_children element) in
      let dfn := mkActionDef actions in
      set_action (e_get element "label") dfn >>
      ret dfn
  end.

(** The references are resolved: a label that is not a key of its table is
    a [KeyError], raised again as a [ParseError]. *)
Definition resolved {V} (refs : list label) (d : dict V) : bool :=
  forallb (fun l => bool_decide (is_Some (dict_get l d))) refs.

(** [BulletML.FromXML], from the root element of the parsed source. *)
Definition BulletML_FromXML (fuel : nat) (root : Element) (g : rng)
  : result BulletML :=
  let type := default "none" (e_get root "type") in
  let load :=
    foldM (fun (_ : unit) element =>
             let* tag := lift (realtag element) in
             if String.eqb tag "bullet"
             then BulletDef_FromXML (ActionDef_FromXML fuel) element >> ret tt
             else if String.eqb tag "action"
             then ActionDef_FromXML fuel element >> ret tt
             else if String.eqb tag "fire"
             then FireDef_FromXML (ActionDef_FromXML fuel) element >> ret tt
             else ret tt)
          tt (e_children root) in
  match load (mkDocState [] [] [] [] [] [] g) with
  | Ok (_, s) =>
      if resolved (ds_bullet_refs s) (ds_bullets s)
         && resolved (ds_fire_refs s) (ds_fires s)
         && resolved (ds_action_refs s) (ds_actions s)
      then Ok (mkBulletML type
                 (snd <$> filter (fun item => is_top (fst item))
                                   (dict_items (ds_actions s)))
                 (mkTables (ds_bullets s) (ds_actions s) (ds_fires s)))
      else Raise ParseError
  | Raise e => Raise e
  | Diverge => Diverge
  end.

End Loader.

(** [Bullet.FromDocument]: the world of a new bullet, with one running
    action for each top action of the document. *)
Definition Bullet_FromDocument (doc : BulletML) (x y direction speed : R)
    (target : option (R * R)) (params : list R) (rank : R) (g : rng)
  : World :=
  let actions :=
    (fun d => Action_fresh None (ad_actions d) params 1) <$> doc_actions doc in
  mkWorld actions [seq 0 (length actions)]
    (Bullet_fresh x y direction speed target 0 rank ∅ None (1 / 2)) [] g.

(** * Properties *)

(** ** Reasoning about computations *)

Lemma bind_Ok {S A B} (m : ST S A) (k : A -> ST S B) (s s' : S) (b : B) :
  bind m k s = Ok (b, s') <->
  exists a s1, m s = Ok (a, s1) /\ k a s1 = Ok (b, s').
Proof.
  unfold bind. split.
  - destruct (m s) as [[a s1]| |]; try discriminate. eauto.
  - intros (a & s1 & Hm & H). rewrite Hm. exact H.
Qed.

Lemma bind_ret_Ok {S A B} (m : ST S A) (f : A -> B) (s s' : S) (b : B) :
  bind m (fun a => ret (f a)) s = Ok (b, s') <->
  exists a, m s = Ok (a, s') /\ b = f a.
Proof.
  rewrite bind_Ok. unfold ret. split.
  - intros (a & s1 & H & [= <- <-]). eauto.
  - intros (a & H & ->). eauto.
Qed.

(** Split a hypothesis [bind m k s = Ok _] into its two halves. *)
Tactic Notation "inv_bind" hyp(H) :=
  let a := fresh "a" in
  let s := fresh "s" in
  let H1 := fresh H in
  apply bind_Ok in H; destruct H as (a & s & H1 & H).

Tactic Notation "inv_bind" hyp(H) "as" ident(a) ident(s) ident(H1) :=
  apply bind_Ok in H; destruct H as (a & s & H1 & H).

Lemma ret_Ok {S A} (a b : A) (s s' : S) :
  ret a s = Ok (b, s') <-> b = a /\ s' = s.
Proof. unfold ret. split; [intros [= -> ->] | intros [-> ->]]; auto. Qed.

(** ** Executing one node *)

Lemma Node_call_unfold tables fuel n self params rank :
  Node_call tables (S fuel) n self params rank =
  Node_call_with tables (Action_step tables fuel) n self params rank.
Proof. reflexivity. Qed.

Lemma Action_step_unfold tables fuel self :
  Action_step tables (S fuel) self =
  Action_step_with (Action_run tables fuel) self.
Proof. reflexivity. Qed.

Lemma Action_run_unfold tables fuel self s_params rank :
  Action_run tables (S fuel) self s_params rank =
  Action_run_with (Node_call tables fuel) (Action_run tables fuel) self
    s_params rank.
Proof. reflexivity. Qed.

(** C10.  An [Untag] node never raises.  It returns false (the action goes
    on), and the only field of the world it may change is the tag set of the
    owner, which loses exactly the tag of the node: when the tag is not in
    the set, the world is left as it was. *)
Theorem Untag_removes_only_its_tag tables fuel (t : tag) self params rank
    (w : World) :
  exists w',
    Node_call tables (S fuel) (Untag t) self params rank w = Ok (false, w')
    /\ w' = (if decide (t ∈ b_tags (w_owner w))
             then set_w_owner
                    (set_b_tags (b_tags (w_owner w) ∖ {[t]}) (w_owner w)) w
             else w)
    /\ forall u : tag,
         u ∈ b_tags (w_owner w') <-> u ∈ b_tags (w_owner w) /\ u <> t.
Proof.
  rewrite Node_call_unfold. cbn [Node_call_with].
  unfold Untag_call, bind, get_owner, set_remove.
  destruct (decide (t ∈ b_tags (w_owner w))) as [Hin|Hout].
  - eexists. split; [reflexivity|]. split; [reflexivity|].
    intros u. cbn. set_solver.
  - exists w. split; [reflexivity|]. split; [reflexivity|].
    intros u. set_solver.
Qed.

(** C9.  An [Appearance] node assigns the attribute [apearance]: the
    [appearance] of the owner is what it was before the node ran. *)
Theorem Appearance_leaves_appearance tables fuel (name : option string) self
    params rank (w : World) :
  exists w',
    Node_call tables (S fuel) (Appearance name) self params rank w
      = Ok (false, w')
    /\ b_appearance (w_owner w') = b_appearance (w_owner w)
    /\ b_apearance (w_owner w') = Some name.
Proof.
  rewrite Node_call_unfold. cbn [Node_call_with].
  eexists. split; [reflexivity|]. split; reflexivity.
Qed.

(** ** The expression evaluator *)

(** Whatever Python's parser does, building a [NumberDef] raises nothing but
    [ExprError]. *)
Lemma NumberDef_init_raises_ExprError py_parse text g e :
  NumberDef_init py_parse text g = Raise e -> e = ExprError.
Proof.
  unfold NumberDef_init.
  destruct (has_dunder text); [congruence|].
  destruct (py_parse _) as [code|]; [|congruence].
  destruct (eval no_names code g) as [[[] ?]|[]|]; try congruence;
    destruct (eval _ code g) as [[[] ?]| |]; congruence.
Qed.

(** A text with ["__"] in it is refused. *)
Lemma NumberDef_init_dunder py_parse s g :
  Str.contains "__" s = true ->
  NumberDef_init py_parse (Some s) g = Raise ExprError.
Proof. intros H. unfold NumberDef_init, has_dunder. now rewrite H. Qed.

(** A text that does not parse is refused. *)
Lemma NumberDef_init_SyntaxError py_parse text g :
  py_parse (python_source (py_str text)) = None ->
  NumberDef_init py_parse text g = Raise ExprError.
Proof.
  intros H. unfold NumberDef_init. rewrite H. now destruct (has_dunder text).
Qed.

(** A name that Python does not know is refused. *)
Lemma NumberDef_init_NameError py_parse text g id :
  py_parse (python_source (py_str text)) = Some (EName id) ->
  variables 1 (replicate 99 0%R) id = None ->
  NumberDef_init py_parse text g = Raise ExprError.
Proof.
  intros H Hid. unfold NumberDef_init. rewrite H.
  destruct (has_dunder text); [reflexivity|].
  cbn [eval]. unfold no_names. now rewrite Hid.
Qed.

(** The text ["1/$rank"], as Python parses it once it is rewritten. *)
Definition parse_one_over_rank (s : string) : option pyexpr :=
  if String.eqb s "1/rank" then Some (EBin Div (ENum 1) (EName "rank"))
  else None.

(** C8.  The expression [1/$rank] is accepted when it is built, where it is
    checked with [rank = 1]; evaluated with [rank = 0] it raises
    [ZeroDivisionError], which [NumberDef.__call__] lets through: the call
    does not raise [ExprError]. *)
Theorem NumberDef_call_raises_ZeroDivisionError (g : rng) :
  exists nd,
    NumberDef_init parse_one_over_rank (Some "1/$rank") g = Ok (nd, g)
    /\ NumberDef_call nd [] 0 g = Raise ZeroDivisionError.
Proof.
  eexists. split.
  - unfold NumberDef_init.
    change (has_dunder (Some "1/$rank")) with false.
    change (python_source (py_str (Some "1/$rank"))) with "1/rank".
    change (parse_one_over_rank "1/rank")
      with (Some (EBin Div (ENum 1) (EName "rank"))).
    cbn [eval no_names].
    change (variables 1 (replicate 99 0%R) "rank") with (Some (VNum 1)).
    unfold eval_binop. destruct (Req_dec_T 1 0) as [H|H]; [lra|]. reflexivity.
  - unfold NumberDef_call. cbn [nd_value nd_code eval].
    change (variables 0 [] "rank") with (Some (VNum 0)).
    unfold eval_binop. destruct (Req_dec_T 0 0) as [H|H]; [|lra]. reflexivity.
Qed.

(** ** What evaluating and allocating leave alone

    [grows w w']: from [w] to [w'] nothing happened but draws from the
    random source and the allocation of actions and lists. *)

Definition grows (w w' : World) : Prop :=
  w_owner w' = w_owner w
  /\ w_created w' = w_created w
  /\ (exists h, w_heap w' = w_heap w ++ h)
  /\ (exists l, w_lists w' = w_lists w ++ l).

Definition growing {A} (m : M A) : Prop :=
  forall w a w', m w = Ok (a, w') -> grows w w'.

Lemma grows_refl w : grows w w.
Proof.
  repeat split; try (exists []; now rewrite app_nil_r).
Qed.

Lemma grows_trans w1 w2 w3 : grows w1 w2 -> grows w2 w3 -> grows w1 w3.
Proof.
  intros (Ho & Hc & [h Hh] & [l Hl]) (Ho' & Hc' & [h' Hh'] & [l' Hl']).
  repeat split; try congruence.
  - exists (h ++ h'). now rewrite Hh', Hh, app_assoc.
  - exists (l ++ l'). now rewrite Hl', Hl, app_assoc.
Qed.

Lemma grows_heap_lookup w w' a A :
  grows w w' -> w_heap w !! a = Some A -> w_heap w' !! a = Some A.
Proof.
  intros (_ & _ & [h ->] & _) H. now apply lookup_app_l_Some.
Qed.

Lemma grows_lists_lookup w w' i l :
  grows w w' -> w_lists w !! i = Some l -> w_lists w' !! i = Some l.
Proof.
  intros (_ & _ & _ & [h ->]) H. now apply lookup_app_l_Some.
Qed.

Lemma growing_ret {A} (a : A) : growing (ret a).
Proof. intros w b w' [-> ->]%ret_Ok. apply grows_refl. Qed.

Lemma growing_bind {A B} (m : M A) (k : A -> M B) :
  growing m -> (forall a, growing (k a)) -> growing (bind m k).
Proof.
  intros Hm Hk w b w' H. inv_bind H.
  eapply grows_trans; [eapply Hm | eapply Hk]; eauto.
Qed.

Lemma growing_raise {A} e : growing (@raise World A e).
Proof. intros w a w' H. discriminate. Qed.

Lemma growing_with_random {A} (f : rng -> result (A * rng)) :
  growing (with_random f).
Proof.
  intros w a w' H. unfold with_random in H.
  destruct (f (w_random w)) as [[x g]| |]; try discriminate.
  injection H as <- <-.
  repeat split; cbn; try (exists []; now rewrite app_nil_r).
Qed.

Lemma growing_new_action x : growing (new_action x).
Proof.
  intros w a w' [= <- <-]. repeat split; cbn; eauto.
  exists []. now rewrite app_nil_r.
Qed.

Lemma growing_new_list x : growing (new_list x).
Proof.
  intros w a w' [= <- <-]. repeat split; cbn; eauto.
  exists []. now rewrite app_nil_r.
Qed.

Lemma growing_get_action a : growing (get_action a).
Proof.
  intros w x w' H. unfold get_action in H.
  destruct (w_heap w !! a); try discriminate.
  injection H as <- <-. apply grows_refl.
Qed.

Lemma growing_mapM {A B} (f : A -> M B) (l : list A) :
  (forall x, growing (f x)) -> growing (mapM f l).
Proof.
  intros Hf. induction l as [|x l IH]; cbn [mapM].
  - apply growing_ret.
  - apply growing_bind; [apply Hf|]. intros y.
    apply growing_bind; [apply IH|]. intros ys. apply growing_ret.
Qed.

Lemma growing_opt_call {X V} (call : X -> list R -> R -> M V) x params rank :
  (forall d, growing (call d params rank)) ->
  growing (opt_call call x params rank).
Proof.
  intros H. destruct x; cbn [opt_call].
  - apply growing_bind; [apply H|]. intros v. apply growing_ret.
  - apply growing_ret.
Qed.

Lemma growing_resolve {V} l (d : dict V) : growing (resolve l d).
Proof.
  unfold resolve. destruct (dict_get l d);
    [apply growing_ret | apply growing_raise].
Qed.

Lemma growing_Direction_call d params rank :
  growing (Direction_call d params rank).
Proof.
  apply growing_bind; [apply growing_with_random|].
  intros v. apply growing_ret.
Qed.

Lemma growing_Speed_call s params rank : growing (Speed_call s params rank).
Proof.
  apply growing_bind; [apply growing_with_random|].
  intros v. apply growing_ret.
Qed.

Lemma growing_ParamList_call ps params rank :
  growing (ParamList_call ps params rank).
Proof. apply growing_mapM. intros p. apply growing_with_random. Qed.

Lemma growing_Offset_call o params rank :
  growing (Offset_call o params rank).
Proof.
  unfold Offset_call.
  apply growing_bind.
  { destruct (off_x o); [apply growing_with_random | apply growing_ret]. }
  intros x. apply growing_bind.
  { destruct (off_y o); [apply growing_with_random | apply growing_ret]. }
  intros y. apply growing_ret.
Qed.

Lemma growing_Action_init parent actions params repeat :
  growing (Action_init parent actions params repeat).
Proof.
  unfold Action_init. destruct parent.
  - apply growing_bind; [apply growing_get_action|].
    intros P. apply growing_new_action.
  - apply growing_new_action.
Qed.

Lemma growing_ActionNode_make tables a params rank :
  growing (ActionNode_make tables a params rank).
Proof.
  destruct a; cbn [ActionNode_make].
  - apply growing_Action_init.
  - apply growing_bind; [apply growing_ParamList_call|]. intros ps.
    apply growing_bind; [apply growing_resolve|]. intros d.
    apply growing_Action_init.
Qed.

Lemma growing_BulletDef_call tables d params rank :
  growing (BulletDef_call tables d params rank).
Proof.
  unfold BulletDef_call.
  apply growing_bind.
  { apply growing_mapM. intros a. apply growing_ActionNode_make. }
  intros actions. apply growing_bind.
  { apply growing_opt_call. intros x. apply growing_Direction_call. }
  intros direction. apply growing_bind.
  { apply growing_opt_call. intros x. apply growing_Speed_call. }
  intros speed. apply growing_ret.
Qed.

Lemma growing_BulletNode_call tables b params rank :
  growing (BulletNode_call tables b params rank).
Proof.
  destruct b; cbn [BulletNode_call].
  - apply growing_BulletDef_call.
  - apply growing_bind; [apply growing_ParamList_call|]. intros ps.
    apply growing_bind; [apply growing_resolve|]. intros d.
    apply growing_BulletDef_call.
Qed.

(** ** Firing *)

(** The bullet definition that a fire uses. *)
Definition bullet_def (tables : Tables) (b : BulletNode) : option BulletDef :=
  match b with
  | BDef d => Some d
  | BulletRef l _ => dict_get l (t_bullets tables)
  end.

Lemma NumberDef_call_const nd v params rank g :
  nd_value nd = Some v -> NumberDef_call nd params rank g = Ok (v, g).
Proof. intros H. unfold NumberDef_call. now rewrite H. Qed.

Lemma opt_call_None {X V} (call : X -> list R -> R -> M V) params rank w v w' :
  opt_call call None params rank w = Ok (v, w') -> v = None.
Proof. now intros [= <- <-]. Qed.

Lemma opt_call_kind_dir x params rank w v w' :
  opt_call Direction_call x params rank w = Ok (v, w') ->
  snd <$> v = dir_kind <$> x.
Proof.
  destruct x as [d|]; cbn [opt_call].
  - intros H. inv_bind H. apply ret_Ok in H as [-> ->].
    unfold Direction_call in H0. inv_bind H0.
    apply ret_Ok in H0 as [-> ->]. reflexivity.
  - now intros [= <- <-].
Qed.

Lemma BulletDef_call_inv tables d params rank w direction speed tags
    appearance actions w' :
  BulletDef_call tables d params rank w
    = Ok ((direction, speed, tags, appearance, actions), w') ->
  (bd_direction d = None -> direction = None)
  /\ (bd_speed d = None -> speed = None)
  /\ tags = bd_tags d /\ appearance = bd_appearance d.
Proof.
  unfold BulletDef_call. intros H.
  inv_bind H. inv_bind H. inv_bind H.
  apply ret_Ok in H as [[= -> -> -> -> ->] ->].
  repeat split.
  - intros E. rewrite E in H1. now apply opt_call_None in H1.
  - intros E. rewrite E in H2. now apply opt_call_None in H2.
Qed.

Lemma BulletNode_call_inv tables b params rank w direction speed tags
    appearance actions w' :
  BulletNode_call tables b params rank w
    = Ok ((direction, speed, tags, appearance, actions), w') ->
  exists d,
    bullet_def tables b = Some d
    /\ (bd_direction d = None -> direction = None)
    /\ (bd_speed d = None -> speed = None)
    /\ tags = bd_tags d /\ appearance = bd_appearance d.
Proof.
  destruct b as [d|l ps]; cbn [BulletNode_call bullet_def]; intros H.
  - exists d. split; [reflexivity|]. eapply BulletDef_call_inv, H.
  - inv_bind H. inv_bind H. unfold resolve in H1.
    destruct (dict_get l (t_bullets tables)) as [d|]; [|discriminate].
    apply ret_Ok in H1 as [-> ->].
    exists d. split; [reflexivity|]. eapply BulletDef_call_inv, H.
Qed.

(** What a fire does, step by step: the action [self] is [A] before. *)
Lemma FireDef_call_inv tables d self params rank w A r w' :
  w_heap w !! self = Some A ->
  FireDef_call tables d self params rank w = Ok (r, w') ->
  exists bd direction speed offset b,
    r = false
    /\ bullet_def tables (fd_bullet d) = Some bd
    /\ (fd_direction d = None -> bd_direction bd = None -> direction = None)
    /\ (fd_speed d = None -> bd_speed bd = None -> speed = None)
    /\ match fd_offset d with
       | Some o =>
           exists v wo wo', Offset_call o params rank wo = Ok (v, wo')
                     /\ offset = Some (off_kind o, v)
       | None => offset = None
       end
    /\ b_direction b = fire_direction direction A (w_owner w)
    /\ b_speed b = fire_speed speed A (w_owner w)
    /\ (b_x b, b_y b) = fire_position offset (b_direction b) (w_owner w)
    /\ w_owner w' = w_owner w
    /\ w_created w' = w_created w ++ [b]
    /\ w_heap w' !! self =
         Some (set_a_previous_fire_speed (b_speed b)
                 (set_a_previous_fire_direction (b_direction b) A))
    /\ (forall a X, a <> self -> w_heap w !! a = Some X ->
                    w_heap w' !! a = Some X)
    /\ (forall i l, w_lists w !! i = Some l -> w_lists w' !! i = Some l).
Proof.
  unfold FireDef_call. intros HA H.
  inv_bind H as res s0 H0. destruct res as [[[[dirB spdB] tagsB] appB] acts].
  pose proof (growing_BulletNode_call _ _ _ _ _ _ _ H0) as G0.
  apply BulletNode_call_inv in H0 as (bd & Hbd & HdB & HsB & _ & _).
  inv_bind H as direction s1 H1.
  assert (G1 : grows s0 s1 /\ (fd_direction d = None -> direction = dirB)).
  { destruct (fd_direction d) as [x|].
    - split; [|discriminate]. inv_bind H1 as v s' H1'.
      apply ret_Ok in H1 as [-> ->]. eapply growing_Direction_call, H1'.
    - apply ret_Ok in H1 as [-> ->]. split; [apply grows_refl|reflexivity]. }
  destruct G1 as [G1 Hdir]. clear H1.
  inv_bind H as speed s2 H2.
  assert (G2 : grows s1 s2 /\ (fd_speed d = None -> speed = spdB)).
  { destruct (fd_speed d) as [x|].
    - split; [|discriminate]. inv_bind H2 as v s' H2'.
      apply ret_Ok in H2 as [-> ->]. eapply growing_Speed_call, H2'.
    - apply ret_Ok in H2 as [-> ->]. split; [apply grows_refl|reflexivity]. }
  destruct G2 as [G2 Hspd]. clear H2.
  assert (G02 : grows w s2) by eauto using grows_trans.
  assert (Ho2 : w_owner s2 = w_owner w) by apply G02.
  assert (HA2 : w_heap s2 !! self = Some A) by eauto using grows_heap_lookup.
  inv_bind H as B sB HB. injection HB as <- <-.
  inv_bind H as A0 sA HA0. unfold get_action in HA0. rewrite HA2 in HA0.
  injection HA0 as <- <-.
  inv_bind H as u1 s3 H3. unfold update_action in H3. rewrite HA2 in H3.
  injection H3 as <- <-.
  inv_bind H as u2 s4 H4. unfold update_action in H4.
  cbn [w_heap set_w_heap] in H4.
  rewrite list_lookup_insert_eq in H4 by (eapply lookup_lt_Some, HA2).
  injection H4 as <- <-.
  rewrite list_insert_insert_eq in H. rewrite Ho2 in H.
  set (dir := fire_direction direction A (w_owner w)) in *.
  set (spd := fire_speed speed A (w_owner w)) in *.
  set (A' := set_a_previous_fire_speed spd _) in *.
  set (s4 := set_w_heap _ _) in H.
  assert (E4 : s4 = set_w_heap (<[self := A']> (w_heap s2)) s2) by reflexivity.
  clearbody s4.
  inv_bind H as offset s5 H5.
  assert (G5 : grows s4 s5 /\
               match fd_offset d with
               | Some o =>
                   exists v wo wo', Offset_call o params rank wo = Ok (v, wo')
                             /\ offset = Some (off_kind o, v)
               | None => offset = None
               end).
  { destruct (fd_offset d) as [o|].
    - inv_bind H5 as v s' H5'. apply ret_Ok in H5 as [-> ->].
      split; [eapply growing_Offset_call, H5' | eauto 6].
    - apply ret_Ok in H5 as [-> ->]. split; [apply grows_refl|reflexivity]. }
  destruct G5 as [G5 Hoff]. clear H5.
  destruct (fire_position offset dir (w_owner w)) as [x y] eqn:Hpos.
  inv_bind H as bullet s6 H6. unfold Bullet_init in H6.
  inv_bind H6 as l s' H6'. apply ret_Ok in H6 as [-> Hs]. subst s'.
  pose proof (growing_new_list _ _ _ _ H6') as G6. clear H6'.
  inv_bind H as u3 s7 H7. injection H7 as <- <-. apply ret_Ok in H as [-> ->].
  assert (G46 : grows s4 s6) by eauto using grows_trans.
  match goal with
  | |- context [set_w_created (_ ++ [?b]) _] =>
      exists bd, direction, speed, offset, b
  end.
  split; [reflexivity|]. split; [exact Hbd|].
  split; [intros E1 E2; rewrite (Hdir E1); auto|].
  split; [intros E1 E2; rewrite (Hspd E1); auto|].
  split; [exact Hoff|].
  cbn [w_owner w_created w_heap w_lists set_w_created Bullet_fresh
       b_direction b_speed b_x b_y].
  split; [reflexivity|]. split; [reflexivity|].
  split; [now rewrite Hpos|].
  split; [destruct G46 as (-> & _); now rewrite E4|].
  split. { destruct G46 as (_ & -> & _), G02 as (_ & <- & _). now rewrite E4. }
  split.
  { eapply grows_heap_lookup; [exact G46|]. rewrite E4. cbn.
    apply list_lookup_insert_eq. eapply lookup_lt_Some, HA2. }
  split.
  { intros a X Hne HX. eapply grows_heap_lookup; [exact G46|]. rewrite E4. cbn.
    rewrite list_lookup_insert_ne by congruence.
    eapply grows_heap_lookup; eauto. }
  intros i l' Hl. eapply grows_lists_lookup; [exact G46|]. rewrite E4. cbn.
  eapply grows_lists_lookup; eauto.
Qed.

(** C3.  A fire that completes spawns one bullet.  The action that ran it
    remembers the direction and the speed of that bullet as its previous
    fire direction and speed.  With no direction in the fire nor in the
    bullet definition, the direction is the aim of the owner; with no speed
    in either, the speed is 1. *)
Theorem fire_defaults_and_previous_fire tables d self params rank w A r w' :
  w_heap w !! self = Some A ->
  FireDef_call tables d self params rank w = Ok (r, w') ->
  exists bd b A',
    bullet_def tables (fd_bullet d) = Some bd
    /\ w_created w' = w_created w ++ [b]
    /\ w_heap w' !! self = Some A'
    /\ a_previous_fire_direction A' = b_direction b
    /\ a_previous_fire_speed A' = b_speed b
    /\ (fd_direction d = None -> bd_direction bd = None ->
        b_direction b = Bullet_aim (w_owner w))
    /\ (fd_speed d = None -> bd_speed bd = None -> b_speed b = 1%R).
Proof.
  intros HA H.
  destruct (FireDef_call_inv _ _ _ _ _ _ _ _ _ HA H)
    as (bd & direction & speed & offset & b & _ & Hbd & Hd & Hs & _ & Ed & Es
        & _ & _ & Hc & HA' & _).
  eexists bd, b, _. split; [exact Hbd|]. split; [exact Hc|].
  split; [exact HA'|]. split; [reflexivity|]. split; [reflexivity|]. split.
  - intros E1 E2. rewrite Ed, (Hd E1 E2). reflexivity.
  - intros E1 E2. rewrite Es, (Hs E1 E2). reflexivity.
Qed.

(** ** A small document to run *)

(** A constant expression, as [NumberDef] builds it. *)
Definition const (v : R) : NumberDef := mkNumberDef (Some v) (ENum v) "".

Definition iconst (z : Z) : INumberDef := mkINumberDef (Some z) (const (IZR z)).

(** [<bullet/>] and [<fire><bullet/></fire>] *)
Definition plain_bullet : BulletDef := mkBulletDef [] None None ∅ None.

Definition plain_fire : FireDef :=
  mkFireDef (BDef plain_bullet) None None None ∅ None.

Definition no_tables : Tables := mkTables [] [] [].

(** A bullet at the origin, with no target, that runs [prog] as its one top
    action. *)
Definition world_of (prog : list Node) : World :=
  Bullet_FromDocument (mkBulletML "none" [mkActionDef prog] no_tables)
    0 0 0 0 None [] (1 / 2) (fun _ => 0%R).

(** The world after the plain fire has run once in [world_of [fire]]. *)
Definition fired_world : World :=
  set_w_created [Bullet_fresh 0 0 0 1 None 1 (1 / 2) ∅ None (1 / 2)]
    (set_w_lists [[0]; []]
       (set_w_heap
          [set_a_previous_fire_speed 1
             (Action_fresh None [Fire (FDef plain_fire)] [] 1)]
          (world_of [Fire (FDef plain_fire)]))).

Lemma fire_defaults_witness :
  exists b A',
    w_created fired_world = [b]
    /\ w_heap fired_world !! 0 = Some A'
    /\ a_previous_fire_direction A' = b_direction b
    /\ a_previous_fire_speed A' = b_speed b
    /\ b_direction b = Bullet_aim (w_owner (world_of [Fire (FDef plain_fire)]))
    /\ b_speed b = 1%R.
Proof.
  destruct (fire_defaults_and_previous_fire no_tables plain_fire 0 [] (1 / 2)
              (world_of [Fire (FDef plain_fire)])
              (Action_fresh None [Fire (FDef plain_fire)] [] 1)
              false fired_world eq_refl eq_refl)
    as (bd & b & A' & Hbd & Hc & HA' & Hd & Hs & Hdir & Hspd).
  injection Hbd as <-.
  exists b, A'. repeat split; auto.
Defined.

(** ** The offset of a fire *)

(** The offset [o] evaluates to [v], whatever the state. *)
Definition offset_evaluates (o : Offset) (params : list R) (rank : R)
    (v : R * R) : Prop :=
  forall w v' w', Offset_call o params rank w = Ok (v', w') -> v' = v.

(** C7, amended.  A fire with a relative offset that evaluates to [(r, 0)],
    [r > 0], places the bullet at distance [r] from the owner, at
    [(x + r cos d, y + r sin d)], where [d] is the direction of the new
    bullet. *)
Theorem relative_offset_places_bullet tables d self params rank w A r w' o
    (rad : R) :
  w_heap w !! self = Some A ->
  fd_offset d = Some o ->
  off_kind o = off_relative ->
  offset_evaluates o params rank (rad, 0%R) ->
  (0 < rad)%R ->
  FireDef_call tables d self params rank w = Ok (r, w') ->
  exists b,
    w_created w' = w_created w ++ [b]
    /\ b_x b = (b_x (w_owner w) + rad * cos (b_direction b))%R
    /\ b_y b = (b_y (w_owner w) + rad * sin (b_direction b))%R
    /\ sqrt ((b_x b - b_x (w_owner w))² + (b_y b - b_y (w_owner w))²) = rad.
Proof.
  intros HA Ho Hk Hv Hr H.
  destruct (FireDef_call_inv _ _ _ _ _ _ _ _ _ HA H)
    as (bd & direction & speed & offset & b & _ & _ & _ & _ & Hoff & _ & _
        & Hpos & _ & Hc & _).
  rewrite Ho in Hoff. destruct Hoff as (v & wo & wo' & Hcall & ->).
  apply Hv in Hcall as ->. rewrite Hk in Hpos. cbn [fire_position] in Hpos.
  injection Hpos as Hx Hy.
  exists b. split; [exact Hc|].
  assert (Ex : b_x b = (b_x (w_owner w) + rad * cos (b_direction b))%R)
    by (rewrite Hx; ring).
  assert (Ey : b_y b = (b_y (w_owner w) + rad * sin (b_direction b))%R)
    by (rewrite Hy; ring).
  split; [exact Ex|]. split; [exact Ey|].
  replace ((b_x b - b_x (w_owner w))² + (b_y b - b_y (w_owner w))²)%R
    with (rad²)%R.
  - apply sqrt_Rsqr. lra.
  - rewrite Ex, Ey. unfold Rsqr.
    pose proof (sin2_cos2 (b_direction b)) as E. unfold Rsqr in E.
    replace ((b_x (w_owner w) + rad * cos (b_direction b) - b_x (w_owner w)) *
             (b_x (w_owner w) + rad * cos (b_direction b) - b_x (w_owner w)) +
             (b_y (w_owner w) + rad * sin (b_direction b) - b_y (w_owner w)) *
             (b_y (w_owner w) + rad * sin (b_direction b) - b_y (w_owner w)))%R
      with (rad * rad * (sin (b_direction b) * sin (b_direction b)
                         + cos (b_direction b) * cos (b_direction b)))%R by ring.
    rewrite E. ring.
Qed.

(** A fire straight down (direction 0, absolute) with the relative offset
    [(1, 0)]. *)
Definition offset_fire : FireDef :=
  mkFireDef (BDef plain_bullet) (Some (mkDirection absolute (const 0))) None
    (Some (mkOffset off_relative (Some (const 1)) None)) ∅ None.

Lemma radians_0 : radians 0 = 0%R.
Proof. unfold radians. field. Qed.

(** [b] lies at distance [rad] from [owner] in the direction that [b]
    travels: in a move, a bullet of direction [d] and speed [s] goes
    [(s sin d, s cos d)]. *)
Definition along_travel (rad : R) (owner : Bullet) (b : Bullet) : Prop :=
  b_x b = (b_x owner + rad * sin (b_direction b))%R
  /\ b_y b = (b_y owner + rad * cos (b_direction b))%R.

(** C7, as stated, fails: the bullet of [offset_fire] travels along [y] and
    is placed along [x]. *)
Lemma relative_offset_not_along_travel :
  exists w' b,
    FireDef_call no_tables offset_fire 0 [] (1 / 2)
      (world_of [Fire (FDef offset_fire)]) = Ok (false, w')
    /\ w_created w' = [b]
    /\ (b_x (Bullet_move b) - b_x b = 0
        /\ b_y (Bullet_move b) - b_y b = 1)%R
    /\ (b_x b = 1 /\ b_y b = 0)%R
    /\ ~ along_travel 1 (w_owner (world_of [Fire (FDef offset_fire)])) b.
Proof.
  eexists _, _. split.
  { cbv -[Rplus Rminus Rmult Rdiv Ropp Rinv IZR sin cos PI radians atan2].
    reflexivity. }
  split; [reflexivity|].
  unfold along_travel.
  cbn [Bullet_move Bullet_fresh b_x b_y b_px b_py b_mx b_my b_direction b_speed
       set_b_x set_b_y set_b_px set_b_py w_owner world_of Bullet_FromDocument].
  rewrite radians_0, sin_0, cos_0.
  repeat split; lra.
Qed.


Lemma offset_fire_evaluates :
  offset_evaluates (mkOffset off_relative (Some (const 1)) None) [] (1 / 2)
    (1%R, 0%R).
Proof. intros w v' w' H. now injection H as <- <-. Qed.

Lemma relative_offset_witness :
  exists b,
    b_x b = (0 + 1 * cos (b_direction b))%R
    /\ b_y b = (0 + 1 * sin (b_direction b))%R
    /\ sqrt ((b_x b - 0)² + (b_y b - 0)²) = 1%R.
Proof.
  destruct (relative_offset_places_bullet no_tables offset_fire 0 [] (1 / 2)
              (world_of [Fire (FDef offset_fire)])
              (Action_fresh None [Fire (FDef offset_fire)] [] 1)
              false
              (set_w_created
                 [Bullet_fresh (0 + (cos (radians 0) * 1 + sin (radians 0) * 0))
                    (0 + (sin (radians 0) * 1 - cos (radians 0) * 0))
                    (radians 0) 1 None 1 (1 / 2) ∅ None (1 / 2)]
                 (set_w_lists [[0]; []]
                    (set_w_heap
                       [set_a_previous_fire_speed 1
                          (set_a_previous_fire_direction (radians 0)
                             (Action_fresh None [Fire (FDef offset_fire)] [] 1))]
                       (world_of [Fire (FDef offset_fire)]))))
              _ 1%R eq_refl eq_refl eq_refl offset_fire_evaluates Rlt_0_1
              eq_refl)
    as (b & Hc & Hx & Hy & Hd).
  exists b. auto.
Defined.

(** ** What a step preserves *)

(** The fields of a bullet that no node assigns, but for [Vanish]. *)
Definition same_core (B B' : Bullet) : Prop :=
  b_x B' = b_x B /\ b_y B' = b_y B
  /\ b_vanished B' = b_vanished B /\ b_actions B' = b_actions B.

Lemma same_core_refl B : same_core B B.
Proof. repeat split. Qed.

Lemma same_core_trans B1 B2 B3 :
  same_core B1 B2 -> same_core B2 B3 -> same_core B1 B3.
Proof. unfold same_core. intuition congruence. Qed.

Lemma same_core_step_changes A B : same_core B (step_changes A B).2.
Proof.
  unfold step_changes, step_speed, step_direction, step_accel, same_core.
  repeat (case_match; simplify_eq; cbn); auto.
Qed.

Lemma same_core_ChangeDirection_arm frames direction type A B :
  same_core B (ChangeDirection_arm frames direction type A B).2.
Proof.
  unfold ChangeDirection_arm, same_core.
  repeat (case_match; simplify_eq; cbn); auto.
Qed.

Lemma same_core_ChangeSpeed_arm frames speed type A B :
  same_core B (ChangeSpeed_arm frames speed type A B).2.
Proof.
  unfold ChangeSpeed_arm, same_core.
  repeat (case_match; simplify_eq; cbn); auto.
Qed.

Lemma same_core_Accel_arm_x frames h A B :
  same_core B (Accel_arm_x frames h A B).2.
Proof.
  unfold Accel_arm_x, same_core.
  repeat (case_match; simplify_eq; cbn); auto.
Qed.

Lemma same_core_Accel_arm_y frames v A B :
  same_core B (Accel_arm_y frames v A B).2.
Proof.
  unfold Accel_arm_y, same_core.
  repeat (case_match; simplify_eq; cbn); auto.
Qed.

Section Preserving.

Variable tables : Tables.

(** A property of the world that the primitive steps keep. *)
Variable P : World -> Prop.

Hypothesis P_grows : forall w w', grows w w' -> P w -> P w'.
Hypothesis P_heap : forall w h, P w -> P (set_w_heap h w).
Hypothesis P_created : forall w c, P w -> P (set_w_created c w).
Hypothesis P_owner :
  forall w B', same_core (w_owner w) B' -> P w -> P (set_w_owner B' w).
Hypothesis P_replace :
  forall old new w u w', P w -> Bullet_replace old new w = Ok (u, w') -> P w'.
Hypothesis P_vanish :
  forall w u w', P w -> Bullet_vanish w = Ok (u, w') -> P w'.

Definition preserving {A} (m : M A) : Prop :=
  forall w a w', P w -> m w = Ok (a, w') -> P w'.

Lemma pres_ret {A} (a : A) : preserving (ret a).
Proof. intros w b w' HP [-> ->]%ret_Ok. exact HP. Qed.

Lemma pres_raise {A} e : preserving (@raise World A e).
Proof. intros w a w' _ H. discriminate. Qed.

Lemma pres_diverge {A} : preserving (@diverge World A).
Proof. intros w a w' _ H. discriminate. Qed.

Lemma pres_bind {A B} (m : M A) (k : A -> M B) :
  preserving m -> (forall a, preserving (k a)) -> preserving (bind m k).
Proof.
  intros Hm Hk w b w' HP H. inv_bind H as a s1 H1.
  eapply Hk; [|exact H]. eapply Hm; eauto.
Qed.

Lemma pres_growing {A} (m : M A) : growing m -> preserving m.
Proof. intros G w a w' HP H. eapply P_grows; eauto. Qed.

Lemma pres_update_action a f : preserving (update_action a f).
Proof.
  intros w u w' HP H. unfold update_action in H.
  destruct (w_heap w !! a); [|discriminate].
  injection H as <- <-. now apply P_heap.
Qed.

Lemma pres_get_owner : preserving get_owner.
Proof. intros w B w' HP [= <- <-]. exact HP. Qed.

Lemma pres_update_owner f :
  (forall B, same_core B (f B)) -> preserving (update_owner f).
Proof. intros Hf w u w' HP [= <- <-]. now apply P_owner. Qed.

Lemma pres_arm self f :
  (forall A B, same_core B (f A B).2) -> preserving (arm self f).
Proof.
  intros Hf w u w' HP H. unfold arm, bind, get_action, get_owner in H.
  destruct (w_heap w !! self) as [A|] eqn:HA; [|discriminate].
  unfold update_action, update_owner in H. rewrite HA in H.
  injection H as <- <-. apply P_owner; [apply Hf | now apply P_heap].
Qed.

Lemma pres_append_created b : preserving (append_created b).
Proof. intros w u w' HP [= <- <-]. now apply P_created. Qed.

Lemma pres_Bullet_replace old new : preserving (Bullet_replace old new).
Proof. intros w u w' HP H. eapply P_replace; eauto. Qed.

Lemma pres_Bullet_vanish : preserving Bullet_vanish.
Proof. intros w u w' HP H. eapply P_vanish; eauto. Qed.

Lemma pres_INumberDef_call n params rank :
  preserving (with_random (INumberDef_call n params rank)).
Proof. apply pres_growing, growing_with_random. Qed.

Lemma pres_ChangeDirection_call term direction self params rank :
  preserving (ChangeDirection_call term direction self params rank).
Proof.
  unfold ChangeDirection_call.
  apply pres_bind; [apply pres_INumberDef_call|]. intros frames.
  apply pres_bind; [apply pres_growing, growing_Direction_call|]. intros d.
  apply pres_bind; [|intros; apply pres_ret].
  apply pres_arm. intros. apply same_core_ChangeDirection_arm.
Qed.

Lemma pres_ChangeSpeed_call term speed self params rank :
  preserving (ChangeSpeed_call term speed self params rank).
Proof.
  unfold ChangeSpeed_call.
  apply pres_bind; [apply pres_INumberDef_call|]. intros frames.
  apply pres_bind; [apply pres_growing, growing_Speed_call|]. intros d.
  apply pres_bind; [|intros; apply pres_ret].
  apply pres_arm. intros. apply same_core_ChangeSpeed_arm.
Qed.

Lemma pres_Accel_call term horizontal vertical self params rank :
  preserving (Accel_call term horizontal vertical self params rank).
Proof.
  unfold Accel_call.
  apply pres_bind; [apply pres_INumberDef_call|]. intros frames.
  apply pres_bind.
  { apply pres_growing, growing_opt_call. intros. apply growing_Speed_call. }
  intros h. apply pres_bind.
  { apply pres_growing, growing_opt_call. intros. apply growing_Speed_call. }
  intros v.
  apply pres_bind; [|intros; apply pres_ret].
  apply pres_bind; [|intros; apply pres_arm; intros;
                     apply same_core_Accel_arm_y].
  apply pres_bind; [apply pres_update_action|].
  intros; apply pres_arm; intros; apply same_core_Accel_arm_x.
Qed.

Lemma pres_Wait_call frames self params rank :
  preserving (Wait_call frames self params rank).
Proof.
  unfold Wait_call.
  apply pres_bind; [apply pres_INumberDef_call|]. intros n.
  apply pres_bind; [apply pres_update_action | intros; apply pres_ret].
Qed.

Lemma pres_Tag_call t : preserving (Tag_call t).
Proof.
  unfold Tag_call. apply pres_bind; [|intros; apply pres_ret].
  apply pres_update_owner. intros B. repeat split.
Qed.

Lemma pres_Untag_call t : preserving (Untag_call t).
Proof.
  unfold Untag_call. apply pres_bind; [apply pres_get_owner|]. intros B.
  unfold set_remove. case_decide; [|apply pres_ret].
  apply pres_bind; [|intros; apply pres_ret].
  apply pres_update_owner. intros B'. repeat split.
Qed.

Lemma pres_Appearance_call a : preserving (Appearance_call a).
Proof.
  unfold Appearance_call. apply pres_bind; [|intros; apply pres_ret].
  apply pres_update_owner. intros B. repeat split.
Qed.

Lemma pres_Vanish_call : preserving Vanish_call.
Proof.
  unfold Vanish_call.
  apply pres_bind; [apply pres_Bullet_vanish | intros; apply pres_ret].
Qed.

Lemma growing_Bullet_init x y direction speed target actions rank tags
    appearance :
  growing (Bullet_init x y direction speed target actions rank tags appearance).
Proof.
  unfold Bullet_init. apply growing_bind; [apply growing_new_list|].
  intros l. apply growing_ret.
Qed.

Lemma pres_FireDef_call d self params rank :
  preserving (FireDef_call tables d self params rank).
Proof.
  unfold FireDef_call.
  apply pres_bind; [apply pres_growing, growing_BulletNode_call|].
  intros [[[[dirB spdB] tagsB] appB] acts].
  apply pres_bind.
  { destruct (fd_direction d); [|apply pres_ret].
    apply pres_bind; [apply pres_growing, growing_Direction_call|].
    intros; apply pres_ret. }
  intros direction. apply pres_bind.
  { destruct (fd_speed d); [|apply pres_ret].
    apply pres_bind; [apply pres_growing, growing_Speed_call|].
    intros; apply pres_ret. }
  intros speed.
  apply pres_bind; [apply pres_get_owner|]. intros B.
  apply pres_bind; [apply pres_growing, growing_get_action|]. intros A.
  apply pres_bind; [apply pres_update_action|]. intros _.
  apply pres_bind; [apply pres_update_action|]. intros _.
  apply pres_bind.
  { destruct (fd_offset d); [|apply pres_ret].
    apply pres_bind; [apply pres_growing, growing_Offset_call|].
    intros; apply pres_ret. }
  intros offset. destruct (fire_position _ _ _) as [x y].
  apply pres_bind; [apply pres_growing, growing_Bullet_init|]. intros b.
  apply pres_bind; [apply pres_append_created | intros; apply pres_ret].
Qed.

Lemma pres_FireNode_call f self params rank :
  preserving (FireNode_call tables f self params rank).
Proof.
  destruct f; cbn [FireNode_call]; [apply pres_FireDef_call|].
  apply pres_bind; [apply pres_growing, growing_ParamList_call|]. intros ps.
  apply pres_bind; [apply pres_growing, growing_resolve|]. intros d.
  apply pres_FireDef_call.
Qed.

Lemma pres_ActionDef_call step d parent params repeat :
  (forall a, preserving (step a)) ->
  preserving (ActionDef_call step d parent params repeat).
Proof.
  intros Hstep. unfold ActionDef_call.
  apply pres_bind; [apply pres_growing, growing_Action_init|]. intros child.
  apply pres_bind; [|intros; apply pres_ret].
  apply pres_bind; [apply pres_Bullet_replace | intros; apply Hstep].
Qed.

Lemma pres_ActionNode_call step a self params rank repeat :
  (forall a, preserving (step a)) ->
  preserving (ActionNode_call tables step a self params rank repeat).
Proof.
  intros Hstep. destruct a; cbn [ActionNode_call].
  - now apply pres_ActionDef_call.
  - apply pres_bind; [apply pres_growing, growing_ParamList_call|]. intros ps.
    apply pres_bind; [apply pres_growing, growing_resolve|]. intros d.
    now apply pres_ActionDef_call.
Qed.

Lemma pres_Node_call_with step n self params rank :
  (forall a, preserving (step a)) ->
  preserving (Node_call_with tables step n self params rank).
Proof.
  intros Hstep. destruct n; cbn [Node_call_with].
  - apply pres_ChangeDirection_call.
  - apply pres_ChangeSpeed_call.
  - apply pres_Accel_call.
  - apply pres_Wait_call.
  - apply pres_Tag_call.
  - apply pres_Untag_call.
  - apply pres_Appearance_call.
  - apply pres_Vanish_call.
  - unfold Repeat_call.
    apply pres_bind; [apply pres_INumberDef_call|]. intros repeat.
    now apply pres_ActionNode_call.
  - unfold If_call.
    apply pres_bind; [apply pres_INumberDef_call|]. intros c.
    destruct (if decide (c = 0%Z) then else_ else Some then_);
      [now apply pres_ActionDef_call | apply pres_ret].
  - apply pres_FireNode_call.
  - now apply pres_ActionNode_call.
Qed.

Lemma pres_Action_run_with call again self s_params rank :
  (forall n a ps r, preserving (call n a ps r)) ->
  (forall a ps r, preserving (again a ps r)) ->
  preserving (Action_run_with call again self s_params rank).
Proof.
  intros Hcall Hagain. unfold Action_run_with.
  apply pres_bind; [apply pres_growing, growing_get_action|]. intros A.
  destruct (a_pc A) as [pc|]; [|apply pres_raise].
  apply pres_bind; [apply pres_update_action|]. intros _.
  destruct (py_index (a_actions A) (pc + 1)) as [action|].
  - apply pres_bind; [apply Hcall|]. intros [|];
      [apply pres_ret | apply Hagain].
  - apply pres_bind; [apply pres_update_action|]. intros _.
    destruct (a_repeat A - 1 <=? 0)%Z.
    + apply pres_bind; [|intros _].
      { apply pres_bind; [apply pres_update_action|]. intros _.
        apply pres_update_action. }
      destruct (a_parent A) as [parent|]; [|apply pres_ret].
      apply pres_bind; [apply pres_growing, growing_get_action|]. intros A'.
      apply pres_bind; [apply pres_update_action|]. intros _.
      apply pres_Bullet_replace.
    + apply pres_bind; [apply pres_update_action|]. intros _.
      destruct (py_index (a_actions A) 0) as [action|]; [|apply pres_raise].
      apply pres_bind; [apply Hcall|]. intros [|];
        [apply pres_ret | apply Hagain].
Qed.

Lemma pres_Action_step_with run self :
  (forall a ps r, preserving (run a ps r)) ->
  preserving (Action_step_with run self).
Proof.
  intros Hrun. unfold Action_step_with.
  apply pres_bind.
  { apply pres_arm. intros. apply same_core_step_changes. }
  intros _.
  apply pres_bind; [apply pres_growing, growing_get_action|]. intros A.
  destruct (a_pc A); [|apply pres_ret].
  destruct (0 <? a_wait_frames A)%Z; [apply pres_update_action|].
  apply pres_bind; [apply pres_get_owner|]. intros B. apply Hrun.
Qed.

(** Whatever the actions do, they keep [P]. *)
Lemma pres_interpreter fuel :
  (forall self, preserving (Action_step tables fuel self))
  /\ (forall self ps r, preserving (Action_run tables fuel self ps r))
  /\ (forall n self ps r, preserving (Node_call tables fuel n self ps r)).
Proof.
  induction fuel as [|fuel (IHstep & IHrun & IHcall)].
  - repeat split; intros; apply pres_diverge.
  - repeat split; intros.
    + apply pres_Action_step_with, IHrun.
    + apply pres_Action_run_with; [apply IHcall | apply IHrun].
    + apply pres_Node_call_with, IHstep.
Qed.

Lemma pres_step_actions fuel l n : forall i finished,
  preserving (step_actions tables fuel l n i finished).
Proof.
  induction n as [|n IH]; intros i finished; cbn [step_actions].
  - apply pres_ret.
  - apply pres_bind.
    { intros w a w' HP H. unfold get_list in H.
      destruct (w_lists w !! l); [|discriminate]. now injection H as <- <-. }
    intros actions. destruct (actions !! i) as [action|]; [|apply pres_ret].
    apply pres_bind; [apply pres_interpreter|]. intros _.
    apply pres_bind; [apply pres_growing, growing_get_action|].
    intros A. apply IH.
Qed.

End Preserving.

(** ** [Bullet.replace] and [Bullet.vanish] *)

Lemma Bullet_replace_inv old new w u w' :
  Bullet_replace old new w = Ok (u, w') ->
  exists l,
    w_lists w !! b_actions (w_owner w) = Some l
    /\ w' = match list_index old l with
            | Some idx =>
                set_w_lists (<[b_actions (w_owner w) := <[idx := new]> l]>
                               (w_lists w)) w
            | None => w
            end.
Proof.
  unfold Bullet_replace, bind, get_owner, get_list. intros H.
  destruct (w_lists w !! b_actions (w_owner w)) as [l|] eqn:Hl;
    [|discriminate].
  exists l. split; [reflexivity|].
  destruct (list_index old l) as [idx|].
  - unfold put_list in H. rewrite Hl in H. now injection H as <- <-.
  - now injection H as <- <-.
Qed.

(** A computation that writes to the heap of actions only. *)
Definition heap_only {A} (m : M A) : Prop :=
  forall w a w', m w = Ok (a, w') ->
    w_owner w' = w_owner w /\ w_lists w' = w_lists w
    /\ w_created w' = w_created w.

Lemma heap_only_bind {A B} (m : M A) (k : A -> M B) :
  heap_only m -> (forall a, heap_only (k a)) -> heap_only (bind m k).
Proof.
  intros Hm Hk w b w' H. inv_bind H as a s1 H1.
  destruct (Hm _ _ _ H1) as (E1 & E2 & E3).
  destruct (Hk _ _ _ _ H) as (F1 & F2 & F3). repeat split; congruence.
Qed.

Lemma heap_only_ret {A} (a : A) : heap_only (ret a).
Proof. intros w b w' [-> ->]%ret_Ok. auto. Qed.

Lemma heap_only_get_action a : heap_only (get_action a).
Proof.
  intros w x w' H. unfold get_action in H.
  destruct (w_heap w !! a); [|discriminate]. now injection H as <- <-.
Qed.

Lemma heap_only_update_action a f : heap_only (update_action a f).
Proof.
  intros w x w' H. unfold update_action in H.
  destruct (w_heap w !! a); [|discriminate]. now injection H as <- <-.
Qed.

Lemma heap_only_Action_vanish fuel : forall self,
  heap_only (Action_vanish fuel self).
Proof.
  induction fuel as [|fuel IH]; intros self; cbn [Action_vanish].
  - intros w a w' H. discriminate.
  - apply heap_only_bind; [apply heap_only_get_action|]. intros A.
    apply heap_only_bind; [|intros; apply heap_only_update_action].
    destruct (a_parent A); [apply IH | apply heap_only_ret].
Qed.

Lemma heap_only_mapM {A B} (f : A -> M B) (l : list A) :
  (forall x, heap_only (f x)) -> heap_only (mapM f l).
Proof.
  intros Hf. induction l as [|x l IH]; cbn [mapM].
  - apply heap_only_ret.
  - apply heap_only_bind; [apply Hf|]. intros y.
    apply heap_only_bind; [apply IH|]. intros ys. apply heap_only_ret.
Qed.

(** After [vanish] the bullet is vanished and its list of actions is a new,
    empty list; nothing else of the bullet has changed. *)
Lemma Bullet_vanish_inv w u w' :
  Bullet_vanish w = Ok (u, w') ->
  w_owner w' = set_b_actions (length (w_lists w))
                 (set_b_vanished true (w_owner w))
  /\ w_lists w' = w_lists w ++ [[]]
  /\ w_created w' = w_created w.
Proof.
  unfold Bullet_vanish. intros H.
  inv_bind H as u1 s1 H1. injection H1 as <- <-.
  inv_bind H as B s2 H2. injection H2 as <- <-.
  inv_bind H as l s3 H3. unfold get_list in H3. cbn in H3.
  destruct (w_lists w !! b_actions (w_owner w)); [|discriminate].
  injection H3 as <- <-.
  inv_bind H as us s4 H4.
  apply heap_only_mapM in H4 as (Ho & Hl & Hc).
  2:{ intros a w1 x w2 Hx. eapply heap_only_Action_vanish, Hx. }
  inv_bind H as e s5 H5. injection H5 as <- <-. injection H as <- <-.
  cbn in *. rewrite Ho, Hl, Hc. auto.
Qed.

(** ** The move at the end of a step *)

Definition at_position (x y : R) (w : World) : Prop :=
  b_x (w_owner w) = x /\ b_y (w_owner w) = y.

Lemma pres_at_position tables x y fuel l n i finished w r w' :
  at_position x y w ->
  step_actions tables fuel l n i finished w = Ok (r, w') ->
  at_position x y w'.
Proof.
  intros HP H. revert w r w' HP H.
  apply (pres_step_actions tables (at_position x y)).
  - intros w w' (Ho & _) HP. unfold at_position. now rewrite Ho.
  - auto.
  - auto.
  - intros w B' (Hx & Hy & _) [Px Py]. split; cbn; congruence.
  - intros old new w u w' HP (l' & _ & ->)%Bullet_replace_inv.
    now destruct (list_index old l').
  - intros w u w' [Px Py] (Ho & _)%Bullet_vanish_inv.
    unfold at_position. now rewrite Ho.
Qed.

Lemma all_finished_inv finished w r w' :
  all_finished finished w = Ok (r, w') -> w' = w.
Proof.
  unfold all_finished. intros H.
  inv_bind H as B s1 H1. injection H1 as <- <-.
  inv_bind H as l s2 H2. unfold get_list in H2.
  destruct (w_lists w !! _) as [l0|]; [|discriminate].
  injection H2 as <- <-.
  inv_bind H as As s3 H3. apply ret_Ok in H as [-> ->].
  clear -H3. revert As H3.
  induction l0 as [|a l IH]; intros As H; cbn [mapM] in H.
  - apply ret_Ok in H as [_ ->]. reflexivity.
  - inv_bind H as A s1 H1. unfold get_action in H1.
    destruct (w_heap w !! a); [|discriminate]. injection H1 as <- <-.
    inv_bind H as As' s2 H2. apply ret_Ok in H as [-> ->]. eauto.
Qed.

(** C2.  After a step, [(px, py)] is the position before the step, and the
    position has moved by [(mx + sin(direction) speed,
    - my + cos(direction) speed)], for the direction, the speed and the
    acceleration that the actions of the bullet have left. *)
Theorem Bullet_step_moves tables fuel w created w' :
  Bullet_step tables fuel w = Ok (created, w') ->
  let B := w_owner w in
  let B' := w_owner w' in
  b_px B' = b_x B
  /\ b_py B' = b_y B
  /\ b_x B' = (b_x B + b_mx B' + sin (b_direction B') * b_speed B')%R
  /\ b_y B' = (b_y B - b_my B' + cos (b_direction B') * b_speed B')%R.
Proof.
  unfold Bullet_step. intros H.
  inv_bind H as u0 s0 H0. injection H0 as <- <-.
  inv_bind H as B0 s1 H1. injection H1 as <- <-.
  inv_bind H as l s2 H2. unfold get_list in H2. cbn in H2.
  destruct (w_lists w !! b_actions (w_owner w)); [|discriminate].
  injection H2 as <- <-.
  inv_bind H as f1 s3 H3.
  eapply (pres_at_position _ (b_x (w_owner w)) (b_y (w_owner w))) in H3
    as [Hx Hy]; [|split; reflexivity].
  inv_bind H as f2 s4 H4.
  assert (s4 = s3) as ->.
  { destruct f1; [eapply all_finished_inv, H4|].
    now apply ret_Ok in H4 as [_ ->]. }
  inv_bind H as u1 s5 H5. injection H5 as <- <-.
  injection H as <- <-. cbn. rewrite Hx, Hy.
  repeat split; ring.
Qed.

(** Run a computation, leaving the real numbers as they are. *)
Ltac run :=
  cbv -[Rplus Rminus Rmult Rdiv Ropp Rinv IZR sin cos PI radians atan2 py_mod
        py_round].

Lemma Bullet_step_moves_witness :
  exists created w',
    Bullet_step no_tables 5 (world_of [Fire (FDef plain_fire)])
      = Ok (created, w')
    /\ b_px (w_owner w') = 0%R /\ b_py (w_owner w') = 0%R.
Proof.
  eexists _, _.
  refine ((fun E => conj E (conj (proj1 (Bullet_step_moves _ _ _ _ _ E))
                             (proj1 (proj2 (Bullet_step_moves _ _ _ _ _ E)))))
            _).
  run. reflexivity.
Defined.

(** ** Vanished bullets *)

(** Once a bullet has vanished, the list of its actions is empty. *)
Definition vanish_ok (w : World) : Prop :=
  b_vanished (w_owner w) = true ->
  w_lists w !! b_actions (w_owner w) = Some [].

Lemma pres_vanish_ok tables fuel l n i finished w r w' :
  vanish_ok w ->
  step_actions tables fuel l n i finished w = Ok (r, w') ->
  vanish_ok w'.
Proof.
  intros HP H. revert w r w' HP H.
  apply (pres_step_actions tables vanish_ok); unfold vanish_ok.
  - intros w w' G HP Hv. destruct G as (Ho & _ & _ & [h Hh]).
    rewrite Ho in *. rewrite Hh. apply lookup_app_l_Some. auto.
  - auto.
  - auto.
  - intros w B' (_ & _ & Hv & Ha) HP. cbn. rewrite Hv, Ha. exact HP.
  - intros old new w u w' HP (l' & Hl & ->)%Bullet_replace_inv Hv.
    destruct (list_index old l') as [idx|] eqn:Hidx; [|auto].
    cbn in *. rewrite (HP Hv) in Hl. injection Hl as <-. discriminate.
  - intros w u w' _ (Ho & Hl & _)%Bullet_vanish_inv _.
    rewrite Ho, Hl. cbn. apply list_lookup_middle. reflexivity.
Qed.

Lemma Bullet_step_vanish_ok tables fuel w created w' :
  vanish_ok w -> Bullet_step tables fuel w = Ok (created, w') -> vanish_ok w'.
Proof.
  unfold Bullet_step. intros HP H.
  inv_bind H as u0 s0 H0. injection H0 as <- <-.
  inv_bind H as B0 s1 H1. injection H1 as <- <-.
  inv_bind H as l s2 H2. unfold get_list in H2. cbn in H2.
  destruct (w_lists w !! b_actions (w_owner w)); [|discriminate].
  injection H2 as <- <-.
  inv_bind H as f1 s3 H3.
  eapply pres_vanish_ok in H3; [|exact HP].
  inv_bind H as f2 s4 H4.
  assert (s4 = s3) as ->.
  { destruct f1; [eapply all_finished_inv, H4|].
    now apply ret_Ok in H4 as [_ ->]. }
  inv_bind H as u1 s5 H5. injection H5 as <- <-.
  injection H as <- <-. exact H3.
Qed.

(** A vanished bullet with no actions steps in any fuel, spawns nothing,
    and stays as it is. *)
Lemma Bullet_step_vanished tables fuel w :
  b_vanished (w_owner w) = true ->
  w_lists w !! b_actions (w_owner w) = Some [] ->
  exists w',
    Bullet_step tables fuel w = Ok ([], w')
    /\ b_vanished (w_owner w') = true
    /\ w_lists w' !! b_actions (w_owner w') = Some [].
Proof.
  intros Hv Hl. eexists. split.
  - unfold Bullet_step, bind, get_owner, get_list. cbn.
    rewrite Hl. cbn. rewrite Hv. cbn.
    unfold all_finished, bind, get_owner, get_list. cbn. rewrite Hl. cbn.
    reflexivity.
  - cbn. auto.
Qed.

(** The life of a bullet: it is made, not vanished; then it is stepped, or
    [vanish] is called on it. *)
Inductive lived (tables : Tables) : World -> Prop :=
| lived_new w : b_vanished (w_owner w) = false -> lived tables w
| lived_step fuel w created w' :
    lived tables w ->
    Bullet_step tables fuel w = Ok (created, w') ->
    lived tables w'
| lived_vanish w u w' :
    lived tables w ->
    Bullet_vanish w = Ok (u, w') ->
    lived tables w'.

Lemma lived_vanish_ok tables w : lived tables w -> vanish_ok w.
Proof.
  induction 1 as [w Hv|fuel w created w' _ IH H|w u w' _ IH H].
  - intros Hv'. congruence.
  - eapply Bullet_step_vanish_ok; eauto.
  - apply Bullet_vanish_inv in H as (Ho & Hl & _). intros _.
    rewrite Ho, Hl. cbn. apply list_lookup_middle. reflexivity.
Qed.

(** [step()], called once for each fuel of the list. *)
Fixpoint Bullet_steps (tables : Tables) (fuels : list nat)
  : M (list (list Bullet)) :=
  match fuels with
  | [] => ret []
  | fuel :: fuels' =>
      let* created := Bullet_step tables fuel in
      let* rest := Bullet_steps tables fuels' in
      ret (created :: rest)
  end.

(** C5.  Once a bullet has vanished, by a call of [vanish] or by a [Vanish]
    node in one of its steps, every later step returns, and returns no
    bullet. *)
Theorem vanished_bullet_spawns_nothing tables w fuels :
  lived tables w ->
  b_vanished (w_owner w) = true ->
  exists w',
    Bullet_steps tables fuels w = Ok ((fun _ => []) <$> fuels, w')
    /\ lived tables w'
    /\ b_vanished (w_owner w') = true.
Proof.
  revert w. induction fuels as [|fuel fuels IH]; intros w Hw Hv.
  - exists w. auto.
  - destruct (Bullet_step_vanished tables fuel w Hv (lived_vanish_ok _ _ Hw Hv))
      as (w1 & H1 & Hv1 & _).
    destruct (IH w1 (lived_step _ _ _ _ _ Hw H1) Hv1) as (w' & H' & Hw' & Hv').
    exists w'. split; [|auto].
    cbn [Bullet_steps fmap list_fmap]. unfold bind. rewrite H1.
    fold (@fmap list _ _ _ (fun _ : nat => @nil Bullet) fuels).
    rewrite H'. reflexivity.
Qed.

Lemma vanished_bullet_witness :
  exists w1,
    Bullet_step no_tables 5 (world_of [Vanish; Fire (FDef plain_fire)])
      = Ok ([], w1)
    /\ b_vanished (w_owner w1) = true
    /\ exists w2, Bullet_steps no_tables [0; 5; 9] w1 = Ok ([[]; []; []], w2).
Proof.
  eexists. split; [run; reflexivity|]. split; [reflexivity|].
  destruct (vanished_bullet_spawns_nothing no_tables _ [0; 5; 9]
              (lived_step no_tables 5
                 (world_of [Vanish; Fire (FDef plain_fire)]) _ _
                 (lived_new no_tables
                    (world_of [Vanish; Fire (FDef plain_fire)]) eq_refl)
                 ltac:(run; reflexivity))
              eq_refl)
    as (w2 & H & _).
  exists w2. exact H.
Defined.

(** ** Repeating a fire *)

(** The fields of an action that say where it is in its program. *)
Definition control (A : Action)
  : list Node * option addr * Z * Z * list R * option Z * bool :=
  (a_actions A, a_parent A, a_repeat A, a_wait_frames A, a_params A, a_pc A,
   a_finished A).

(** The fire [f] completes in every state where the action that runs it
    exists: its expressions evaluate and its references resolve. *)
Definition fire_safe (tables : Tables) (f : FireNode) (params : list R)
    (rank : R) : Prop :=
  forall self w,
    is_Some (w_heap w !! self) ->
    exists r w', FireNode_call tables f self params rank w = Ok (r, w').

(** What one fire does to the world around the action [self]. *)
Definition fired (self : addr) (w w' : World) : Prop :=
  w_owner w' = w_owner w
  /\ length (w_created w') = S (length (w_created w))
  /\ (forall A, w_heap w !! self = Some A ->
        exists A', w_heap w' !! self = Some A' /\ control A' = control A)
  /\ (forall a X, a <> self -> w_heap w !! a = Some X ->
        w_heap w' !! a = Some X)
  /\ (forall i l, w_lists w !! i = Some l -> w_lists w' !! i = Some l).

Lemma FireDef_call_fired tables d self params rank w r w' :
  is_Some (w_heap w !! self) ->
  FireDef_call tables d self params rank w = Ok (r, w') ->
  r = false /\ fired self w w'.
Proof.
  intros [A HA] H.
  destruct (FireDef_call_inv _ _ _ _ _ _ _ _ _ HA H)
    as (bd & direction & speed & offset & b & -> & _ & _ & _ & _ & _ & _ & _
        & Ho & Hc & HA' & Hrest & Hl).
  split; [reflexivity|]. repeat split; auto.
  - rewrite Hc, length_app. cbn. lia.
  - intros A0 HA0. rewrite HA in HA0. injection HA0 as <-.
    eexists. split; [exact HA'|]. reflexivity.
Qed.

Lemma FireNode_call_fired tables f self params rank w r w' :
  is_Some (w_heap w !! self) ->
  FireNode_call tables f self params rank w = Ok (r, w') ->
  r = false /\ fired self w w'.
Proof.
  destruct f as [d|l ps]; cbn [FireNode_call]; intros HA H.
  - eapply FireDef_call_fired; eauto.
  - inv_bind H as ps' s1 H1. apply growing_ParamList_call in H1 as G.
    inv_bind H as d s2 H2. unfold resolve in H2.
    destruct (dict_get l (t_fires tables)); [|discriminate].
    apply ret_Ok in H2 as [-> ->].
    destruct HA as [A HA].
    apply FireDef_call_fired in H as [-> F];
      [|eexists; eapply grows_heap_lookup; eauto].
    split; [reflexivity|].
    destruct F as (Fo & Fc & FA & Frest & Fl), G as (Go & Gc & Gh & Gl).
    repeat split.
    + congruence.
    + congruence.
    + intros A0 HA0. apply FA. destruct Gh as [h ->].
      now apply lookup_app_l_Some.
    + intros a X Hne HX. apply Frest; [exact Hne|]. destruct Gh as [h ->].
      now apply lookup_app_l_Some.
    + intros i l0 Hl0. apply Fl. destruct Gl as [h ->].
      now apply lookup_app_l_Some.
Qed.

(** Running by hand. *)
Lemma bind_eq {S A B} (m : ST S A) (k : A -> ST S B) s a s1 :
  m s = Ok (a, s1) -> bind m k s = k a s1.
Proof. intros H. unfold bind. now rewrite H. Qed.

Lemma bind_assoc {S A B C} (m : ST S A) (k : A -> ST S B) (h : B -> ST S C) s :
  bind (bind m k) h s = bind m (fun x => bind (k x) h) s.
Proof. unfold bind. now destruct (m s) as [[a s1]| |]. Qed.

Lemma get_action_eq a A w :
  w_heap w !! a = Some A -> get_action a w = Ok (A, w).
Proof. intros H. unfold get_action. now rewrite H. Qed.

Lemma update_action_eq a A f w :
  w_heap w !! a = Some A ->
  update_action a f w = Ok (tt, set_w_heap (<[a := f A]> (w_heap w)) w).
Proof. intros H. unfold update_action. now rewrite H. Qed.

Lemma get_list_eq i l w :
  w_lists w !! i = Some l -> get_list i w = Ok (l, w).
Proof. intros H. unfold get_list. now rewrite H. Qed.

Lemma put_list_eq i l x w :
  w_lists w !! i = Some l ->
  put_list i x w = Ok (tt, set_w_lists (<[i := x]> (w_lists w)) w).
Proof. intros H. unfold put_list. now rewrite H. Qed.

(** An update of the action that was updated last. *)
Lemma update_action_again c X g h w :
  c < length h ->
  update_action c g (set_w_heap (<[c := X]> h) w)
  = Ok (tt, set_w_heap (<[c := g X]> h) w).
Proof.
  intros Hc. unfold update_action. cbn [w_heap set_w_heap].
  rewrite list_lookup_insert_eq by exact Hc.
  rewrite list_insert_insert_eq. reflexivity.
Qed.

Lemma get_action_again c X h w :
  c < length h ->
  get_action c (set_w_heap (<[c := X]> h) w)
  = Ok (X, set_w_heap (<[c := X]> h) w).
Proof.
  intros Hc. unfold get_action. cbn [w_heap set_w_heap].
  now rewrite list_lookup_insert_eq by exact Hc.
Qed.

Lemma Bullet_replace_eq old new l idx w :
  w_lists w !! b_actions (w_owner w) = Some l ->
  list_index old l = Some idx ->
  Bullet_replace old new w
  = Ok (tt, set_w_lists (<[b_actions (w_owner w) := <[idx := new]> l]>
                           (w_lists w)) w).
Proof.
  intros Hl Hi. unfold Bullet_replace, bind, get_owner, get_list.
  rewrite Hl, Hi. unfold put_list. now rewrite Hl.
Qed.

Lemma list_index_head c l : list_index c (c :: l) = Some 0.
Proof. cbn. now rewrite decide_True. Qed.

Section RepeatLoop.

Variable tables : Tables.
Variable f : FireNode.
Variable params : list R.
Variable rank : R.
Hypothesis f_safe : fire_safe tables f params rank.

(** The child action [c] of a [Repeat] has fired and stands at its only
    node, with [S k] runs left, the one under way counted: it fires [k]
    more times, hands its state to its parent [a], and gives it its place
    in the list back. *)
Lemma repeat_loop (a c : addr) K : forall (k fuel : nat) w,
  k < fuel ->
  a <> c ->
  (exists C, w_heap w !! c = Some C /\ a_pc C = Some 0%Z
             /\ a_repeat C = Z.of_nat (S k) /\ a_actions C = [Fire f]
             /\ a_parent C = Some a) ->
  (exists A, w_heap w !! a = Some A /\ control A = K) ->
  w_lists w !! b_actions (w_owner w) = Some [c] ->
  exists w',
    Action_run tables fuel c params rank w = Ok (tt, w')
    /\ length (w_created w') = length (w_created w) + k
    /\ (exists A, w_heap w' !! a = Some A /\ control A = K)
    /\ w_lists w' !! b_actions (w_owner w') = Some [a]
    /\ w_owner w' = w_owner w.
Proof.
  induction k as [|k IH];
    intros fuel w Hfuel Hne (C & HC & Hpc & Hrep & Hact & Hpar)
      (A & HA & HK) Hl;
    (destruct fuel as [|fuel]; [lia|]);
    pose proof (lookup_lt_Some _ _ _ HC) as Hc;
    rewrite Action_run_unfold; unfold Action_run_with;
    rewrite (bind_eq _ _ _ _ _ (get_action_eq _ _ _ HC)), Hpc;
    rewrite (bind_eq _ _ _ _ _ (update_action_eq _ _ _ _ HC)), Hact;
    change (py_index [Fire f] (0 + 1)) with (@None Node); cbv iota;
    rewrite (bind_eq _ _ _ _ _ (update_action_again _ _ _ _ _ Hc)), Hrep.
  - change (Z.of_nat 1 - 1 <=? 0)%Z with true. cbv iota.
    rewrite !bind_assoc.
    rewrite (bind_eq _ _ _ _ _ (update_action_again _ _ _ _ _ Hc)).
    rewrite (bind_eq _ _ _ _ _ (update_action_again _ _ _ _ _ Hc)).
    rewrite Hpar.
    rewrite (bind_eq _ _ _ _ _ (get_action_again _ _ _ _ Hc)).
    match goal with
    | |- context [bind (update_action a ?g) _ ?w1] =>
        assert (HA1 : w_heap w1 !! a = Some A)
          by (cbn [w_heap set_w_heap];
              rewrite list_lookup_insert_ne by congruence; exact HA);
        rewrite (bind_eq _ _ _ _ _ (update_action_eq a A g w1 HA1))
    end.
    erewrite Bullet_replace_eq; [|exact Hl|apply list_index_head].
    eexists. split; [reflexivity|].
    cbn [w_created w_heap w_lists w_owner set_w_heap set_w_lists].
    split; [lia|]. split.
    { eexists. split.
      - apply list_lookup_insert_eq. rewrite length_insert.
        eapply lookup_lt_Some, HA.
      - exact HK. }
    split; [|reflexivity].
    apply list_lookup_insert_eq. eapply lookup_lt_Some, Hl.
  - replace (Z.of_nat (S (S k)) - 1 <=? 0)%Z with false
      by (symmetry; apply Z.leb_gt; lia).
    rewrite (bind_eq _ _ _ _ _ (update_action_again _ _ _ _ _ Hc)).
    change (py_index [Fire f] 0) with (Some (Fire f)). cbv iota.
    destruct fuel as [|fuel]; [lia|].
    rewrite Node_call_unfold. cbn [Node_call_with].
    set (C1 := set_a_pc (Some 0%Z) _).
    set (w1 := set_w_heap _ w).
    assert (HC1 : w_heap w1 !! c = Some C1)
      by (apply list_lookup_insert_eq; exact Hc).
    destruct (f_safe c w1 (ex_intro _ _ HC1)) as (r & w2 & Hfire).
    destruct (FireNode_call_fired _ _ _ _ _ _ _ _ (ex_intro _ _ HC1) Hfire)
      as (-> & Fo & Fc & FA & Frest & Fl).
    rewrite (bind_eq _ _ _ _ _ Hfire).
    destruct (FA _ HC1) as (C2 & HC2 & EC2).
    injection EC2 as E1 E2 E3 E4 E5 E6 E7.
    destruct (IH (S fuel) w2) as (w' & Hrun & Hlen & HA' & Hl' & Ho');
      [lia | exact Hne | | | |].
    + exists C2. split; [exact HC2|]. subst C1. cbn in *.
      repeat split; try congruence. rewrite E3. lia.
    + exists A. split; [|exact HK]. apply Frest; [exact Hne|].
      subst w1. cbn. rewrite list_lookup_insert_ne by congruence. exact HA.
    + rewrite Fo. apply Fl. exact Hl.
    + exists w'. split; [exact Hrun|]. split; [|split; [exact HA'|]].
      * rewrite Hlen, Fc. subst w1. cbn. lia.
      * split; [exact Hl'|]. rewrite Ho', Fo. reflexivity.
Qed.

End RepeatLoop.

Lemma arm_eq self f A w :
  w_heap w !! self = Some A ->
  arm self f w
  = Ok (tt, set_w_owner (f A (w_owner w)).2
              (set_w_heap (<[self := (f A (w_owner w)).1]> (w_heap w)) w)).
Proof.
  intros H. unfold arm, bind, get_action, get_owner, update_action,
    update_owner. rewrite H. cbn. rewrite H. reflexivity.
Qed.

Lemma control_step_changes A B : control (step_changes A B).1 = control A.
Proof.
  unfold step_changes, step_speed, step_direction, step_accel, control.
  repeat (case_match; simplify_eq; cbn); try reflexivity.
Qed.

Lemma with_random_eq {A} (f : rng -> result (A * rng)) w x g :
  f (w_random w) = Ok (x, g) -> with_random f w = Ok (x, set_w_random g w).
Proof. intros H. unfold with_random. now rewrite H. Qed.

(** The bullet has one action, [a], which has run its program to the end
    or is about to find that out. *)
Definition winding_down (a : addr) (w : World) : Prop :=
  w_lists w !! b_actions (w_owner w) = Some [a]
  /\ exists A,
       w_heap w !! a = Some A
       /\ a_parent A = None
       /\ a_wait_frames A = 0%Z
       /\ (a_pc A = None
           \/ a_pc A = Some 0%Z /\ a_repeat A = 1%Z
              /\ length (a_actions A) = 1).

Lemma all_finished_one a A finished w :
  w_lists w !! b_actions (w_owner w) = Some [a] ->
  w_heap w !! a = Some A ->
  all_finished finished w = Ok (finished && a_finished A, w).
Proof.
  intros Hl HA. unfold all_finished, bind, get_owner, get_list.
  rewrite Hl. cbn [mapM]. unfold bind, get_action. rewrite HA. reflexivity.
Qed.

(** The end of [Bullet.step], once the actions have run. *)
Lemma Bullet_step_end a A (finished : bool) w :
  w_lists w !! b_actions (w_owner w) = Some [a] ->
  w_heap w !! a = Some A ->
  exists f,
    (let* finished :=
       if finished then all_finished finished else ret finished in
     update_owner (set_b_finished finished) >>
     update_owner Bullet_move >>
     fun w => Ok (w_created w, w)) w
    = Ok (w_created w,
          set_w_owner (Bullet_move (set_b_finished f (w_owner w))) w).
Proof.
  intros Hl HA. destruct finished.
  - rewrite (bind_eq _ _ _ _ _ (all_finished_one _ _ _ _ Hl HA)).
    eexists. reflexivity.
  - eexists. reflexivity.
Qed.

(** Run the first computation of a sequence, by the equation [E]. *)
Tactic Notation "step_by" uconstr(E) :=
  rewrite ?bind_assoc; rewrite (bind_eq _ _ _ _ _ E).

Lemma Bullet_step_winding_down tables a fuel w :
  2 <= fuel ->
  winding_down a w ->
  exists w',
    Bullet_step tables fuel w = Ok ([], w') /\ winding_down a w'.
Proof.
  intros Hfuel (Hl & A & HA & Hpar & Hwait & Hpc).
  destruct fuel as [|[|fuel]]; [lia|lia|].
  unfold Bullet_step.
  rewrite ?bind_assoc.
  rewrite (bind_eq _ _ _ _ _
             (eq_refl : _ w = Ok (tt, set_w_created [] w))).
  set (w0 := set_w_created [] w).
  rewrite (bind_eq _ _ _ _ _ (eq_refl : get_owner w0 = Ok (w_owner w, w0))).
  rewrite (bind_eq _ _ _ _ _ (get_list_eq _ _ w0 Hl)).
  cbn [length step_actions]. rewrite ?bind_assoc.
  rewrite (bind_eq _ _ _ _ _ (get_list_eq _ _ w0 Hl)).
  cbn [lookup list_lookup].
  rewrite ?bind_assoc.
  rewrite Action_step_unfold. unfold Action_step_with.
  rewrite ?bind_assoc.
  rewrite (bind_eq _ _ _ _ _ (arm_eq _ step_changes _ w0 HA)).
  set (A1 := (step_changes A (w_owner w0)).1).
  set (B1 := (step_changes A (w_owner w0)).2).
  set (w1 := set_w_owner B1 _).
  assert (HA1 : w_heap w1 !! a = Some A1).
  { apply list_lookup_insert_eq. eapply lookup_lt_Some, HA. }
  pose proof (control_step_changes A (w_owner w0)) as EC.
  fold A1 in EC. injection EC as E1 E2 E3 E4 E5 E6 E7.
  destruct (same_core_step_changes A (w_owner w0)) as (_ & _ & Ev & Ea).
  fold B1 in Ev, Ea.
  assert (Hl1 : w_lists w1 !! b_actions (w_owner w1) = Some [a]).
  { subst w1. cbn. rewrite Ea. exact Hl. }
  step_by (get_action_eq _ _ _ HA1). rewrite E6.
  assert (Hdone : exists w2 A2,
    (match a_pc A with
     | Some _ =>
         if (0 <? a_wait_frames A1)%Z
         then update_action a (set_a_wait_frames (a_wait_frames A1 - 1))
         else
           let* B := get_owner in
           Action_run tables (S fuel) a (a_params A1) (b_rank B)
     | None => ret ()
     end) w1 = Ok (tt, w2)
    /\ w_owner w2 = w_owner w1 /\ w_lists w2 = w_lists w1
    /\ w_created w2 = w_created w1
    /\ w_heap w2 !! a = Some A2
    /\ a_parent A2 = None /\ a_wait_frames A2 = 0%Z /\ a_pc A2 = None).
  { destruct Hpc as [Hpc | (Hpc & Hrep & Hlen)]; rewrite Hpc.
    - exists w1, A1. repeat split; auto; congruence.
    - rewrite E4, Hwait. change (0 <? 0)%Z with false. cbv iota.
      step_by (eq_refl : get_owner w1 = Ok (w_owner w1, w1)).
      rewrite Action_run_unfold. unfold Action_run_with.
      step_by (get_action_eq _ _ _ HA1). rewrite E6, Hpc.
      step_by (update_action_eq _ _ _ _ HA1).
      assert (Hidx : py_index (a_actions A1) (0 + 1) = None).
      { rewrite E1. destruct (a_actions A) as [|x [|y l]]; try discriminate.
        reflexivity. }
      rewrite Hidx.
      assert (Ha : a < length (w_heap w1)) by (eapply lookup_lt_Some, HA1).
      step_by (update_action_again a _ (set_a_repeat (a_repeat A1 - 1))
                 _ w1 Ha).
      rewrite E3, Hrep. change (1 - 1 <=? 0)%Z with true. cbv iota.
      step_by (update_action_again a _ (set_a_pc None) _ w1 Ha).
      step_by (update_action_again a _ (set_a_finished true) _ w1 Ha).
      rewrite E2, Hpar.
      eexists _, _. split; [reflexivity|].
      cbn [w_owner w_lists w_created w_heap set_w_heap].
      repeat split; auto.
      all: try (apply list_lookup_insert_eq; exact Ha).
      all: try (cbn; congruence). }
  destruct Hdone as (w2 & A2 & Hrun & Ho2 & Hl2 & Hc2 & HA2 & Hp2 & Hw2 & Hpc2).
  step_by Hrun.
  step_by (get_action_eq _ _ _ HA2).
  cbn [step_actions].
  rewrite (bind_eq _ _ _ _ _ (eq_refl : ret _ w2 = Ok (_, w2))).
  assert (Hl2' : w_lists w2 !! b_actions (w_owner w2) = Some [a])
    by (rewrite Ho2, Hl2; exact Hl1).
  destruct (Bullet_step_end a A2 (b_vanished (w_owner w) && a_finished A2) w2
              Hl2' HA2) as (f & Hend).
  rewrite Hend. rewrite Hc2.
  eexists. split; [reflexivity|].
  split; [exact Hl2'|].
  exists A2. cbn [w_heap set_w_owner]. auto.
Qed.

Lemma rank_step_changes A B : b_rank (step_changes A B).2 = b_rank B.
Proof.
  unfold step_changes, step_speed, step_direction, step_accel.
  repeat (case_match; simplify_eq; cbn); try reflexivity.
Qed.

Section RepeatFire.

Variable tables : Tables.
Variable f : FireNode.
Variable params : list R.
Variable rank : R.
Hypothesis f_safe : fire_safe tables f params rank.
Variable times : INumberDef.

(** The program: a repeat of an action that is one fire. *)
Definition repeat_fire : list Node :=
  [Repeat times (ADef (mkActionDef [Fire f]))].

(** The first step of a bullet whose one action is about to start
    [repeat_fire]: the fire runs [n] times in this step. *)
Lemma repeat_first_step (n : Z) a fuel w A g' :
  (1 <= n)%Z ->
  Z.to_nat n + 5 <= fuel ->
  w_lists w !! b_actions (w_owner w) = Some [a] ->
  w_heap w !! a = Some A ->
  control A = (repeat_fire, None, 1%Z, 0%Z, params, Some (-1)%Z, false) ->
  b_rank (w_owner w) = rank ->
  INumberDef_call times params rank (w_random w) = Ok (n, g') ->
  exists created w',
    Bullet_step tables fuel w = Ok (created, w')
    /\ length created = Z.to_nat n
    /\ winding_down a w'.
Proof.
  intros Hn Hfuel Hl HA HK Hrank Htimes.
  destruct fuel as [|[|[|[|[|[|fuel]]]]]]; try lia.
  injection HK as K1 K2 K3 K4 K5 K6 K7.
  pose proof (lookup_lt_Some _ _ _ HA) as Ha.
  unfold Bullet_step.
  step_by (eq_refl : _ w = Ok (tt, set_w_created [] w)).
  set (w0 := set_w_created [] w).
  step_by (eq_refl : get_owner w0 = Ok (w_owner w, w0)).
  step_by (get_list_eq _ _ w0 Hl).
  cbn [length step_actions].
  step_by (get_list_eq _ _ w0 Hl).
  cbn [lookup list_lookup].
  (* the action [a] steps *)
  rewrite Action_step_unfold. unfold Action_step_with.
  step_by (arm_eq _ step_changes _ w0 HA).
  set (A1 := (step_changes A (w_owner w0)).1).
  set (B1 := (step_changes A (w_owner w0)).2).
  set (w1 := set_w_owner B1 _).
  assert (HA1 : w_heap w1 !! a = Some A1)
    by (apply list_lookup_insert_eq; exact Ha).
  pose proof (control_step_changes A (w_owner w0)) as EC.
  fold A1 in EC. injection EC as E1 E2 E3 E4 E5 E6 E7.
  destruct (same_core_step_changes A (w_owner w0)) as (_ & _ & Ev & Ea).
  pose proof (rank_step_changes A (w_owner w0)) as Er.
  fold B1 in Ev, Ea, Er.
  step_by (get_action_eq _ _ _ HA1).
  rewrite E6, K6, E4, K4, E5, K5. change (0 <? 0)%Z with false. cbv iota.
  step_by (eq_refl : get_owner w1 = Ok (B1, w1)).
  rewrite Er. change (b_rank (w_owner w0)) with (b_rank (w_owner w)).
  rewrite Hrank.
  rewrite Action_run_unfold. unfold Action_run_with.
  step_by (get_action_eq _ _ _ HA1). rewrite E6, K6.
  step_by (update_action_eq _ _ _ _ HA1).
  rewrite E1, K1.
  change (py_index repeat_fire (-1 + 1))
    with (Some (Repeat times (ADef (mkActionDef [Fire f])))).
  cbv iota.
  set (A2 := set_a_pc (Some (-1 + 1)%Z) A1).
  set (w2 := set_w_heap _ w1).
  assert (HA2 : w_heap w2 !! a = Some A2)
    by (apply list_lookup_insert_eq; eapply lookup_lt_Some, HA1).
  (* the [Repeat] node *)
  rewrite Node_call_unfold. cbn [Node_call_with]. unfold Repeat_call.
  step_by (with_random_eq _ w2 _ _ Htimes).
  set (w3 := set_w_random g' w2).
  cbn [ActionNode_call]. unfold ActionDef_call.
  unfold Action_init.
  step_by (get_action_eq a A2 w3 HA2).
  set (C0 := Action_copy_state A2 _).
  step_by (eq_refl : new_action C0 w3
                     = Ok (length (w_heap w3),
                           set_w_heap (w_heap w3 ++ [C0]) w3)).
  set (c := length (w_heap w3)).
  assert (Hc : c = length (w_heap w))
    by (subst c w3 w2 w1 w0; cbn; now rewrite !length_insert).
  assert (Hne : a <> c) by lia.
  set (w4 := set_w_heap _ w3).
  assert (Hl4 : w_lists w4 !! b_actions (w_owner w4) = Some [a])
    by (subst w4 w3 w2 w1; cbn; rewrite Ea; exact Hl).
  step_by (Bullet_replace_eq a c [a] 0 w4 Hl4 (list_index_head _ _)).
  set (w5 := set_w_lists _ w4).
  assert (HC5 : w_heap w5 !! c = Some C0)
    by (subst w5 w4; cbn; apply list_lookup_middle; reflexivity).
  assert (HA5 : w_heap w5 !! a = Some A2)
    by (subst w5 w4; cbn; apply lookup_app_l_Some; exact HA2).
  (* the child [c] steps *)
  rewrite Action_step_unfold. unfold Action_step_with.
  step_by (arm_eq _ step_changes _ w5 HC5).
  set (C1 := (step_changes C0 (w_owner w5)).1).
  set (B2 := (step_changes C0 (w_owner w5)).2).
  set (w6 := set_w_owner B2 _).
  pose proof (lookup_lt_Some _ _ _ HC5) as Hc5.
  assert (HC6 : w_heap w6 !! c = Some C1)
    by (apply list_lookup_insert_eq; exact Hc5).
  pose proof (control_step_changes C0 (w_owner w5)) as EC.
  fold C1 in EC. injection EC as F1 F2 F3 F4 F5 F6 F7.
  destruct (same_core_step_changes C0 (w_owner w5)) as (_ & _ & Fv & Fa).
  pose proof (rank_step_changes C0 (w_owner w5)) as Fr.
  fold B2 in Fv, Fa, Fr.
  step_by (get_action_eq _ _ _ HC6).
  rewrite F6, F4, F5. cbn [C0 Action_copy_state Action_fresh a_pc
    a_wait_frames a_params].
  change (0 <? 0)%Z with false. cbv iota.
  step_by (eq_refl : get_owner w6 = Ok (B2, w6)).
  rewrite Fr. change (b_rank (w_owner w5)) with (b_rank B1).
  rewrite Er. change (b_rank (w_owner w0)) with (b_rank (w_owner w)).
  rewrite Hrank.
  rewrite Action_run_unfold. unfold Action_run_with.
  step_by (get_action_eq _ _ _ HC6). rewrite F6.
  cbn [C0 Action_copy_state Action_fresh a_pc].
  step_by (update_action_eq _ _ _ _ HC6).
  rewrite F1. cbn [C0 Action_copy_state Action_fresh a_actions].
  change (py_index [Fire f] (-1 + 1)) with (Some (Fire f)). cbv iota.
  set (C2 := set_a_pc (Some (-1 + 1)%Z) C1).
  set (w7 := set_w_heap _ w6).
  assert (HC7 : w_heap w7 !! c = Some C2)
    by (apply list_lookup_insert_eq; eapply lookup_lt_Some, HC6).
  (* the first fire *)
  rewrite Node_call_unfold. cbn [Node_call_with].
  destruct (f_safe c w7 (ex_intro _ _ HC7)) as (r & w8 & Hfire).
  destruct (FireNode_call_fired _ _ _ _ _ _ _ _ (ex_intro _ _ HC7) Hfire)
    as (-> & Go & Gc & GA & Grest & Gl).
  step_by Hfire. cbv iota.
  destruct (GA _ HC7) as (C3 & HC8 & EC3).
  injection EC3 as G1 G2 G3 G4 G5 G6 G7.
  (* the other fires *)
  destruct (repeat_loop tables f params rank f_safe a c (control A2)
              (Z.to_nat n - 1) (S fuel) w8)
    as (w9 & Hrun & Hlen & (A9 & HA9 & EA9) & Hl9 & Ho9);
    [lia | exact Hne | | | |].
  { exists C3. split; [exact HC8|].
    split; [exact G6|]. split; [rewrite G3, F3; lia|].
    split; [rewrite G1, F1; reflexivity | rewrite G2, F2; reflexivity]. }
  { exists A2. split; [|reflexivity]. apply Grest; [exact Hne|].
    subst w7 w6. cbn [w_heap set_w_heap set_w_owner].
    rewrite !list_lookup_insert_ne by (intros E; apply Hne; symmetry; exact E).
    exact HA5. }
  { rewrite Go. apply Gl.
    change (w_owner w7) with B2. rewrite Fa.
    change (<[b_actions B1 := [c]]> (w_lists w) !! b_actions B1 = Some [c]).
    apply list_lookup_insert_eq. rewrite Ea. eapply lookup_lt_Some, Hl. }
  step_by Hrun.
  step_by (eq_refl : ret true w9 = Ok (true, w9)). cbv iota.
  step_by (eq_refl : ret tt w9 = Ok (tt, w9)).
  step_by (get_action_eq _ _ _ HA9).
  cbn [step_actions].
  rewrite (bind_eq _ _ _ _ _ (eq_refl : ret _ w9 = Ok (_, w9))).
  destruct (Bullet_step_end a A9 (b_vanished (w_owner w) && a_finished A9) w9
              Hl9 HA9) as (fin & Hend).
  rewrite Hend.
  eexists _, _. split; [reflexivity|]. split.
  - rewrite Hlen, Gc. subst w7 w6 w5 w4 w3 w2 w1 w0. cbn. lia.
  - split; [exact Hl9|]. exists A9. split; [exact HA9|].
    injection EA9 as H1 H2 H3 H4 H5 H6 H7. subst A2. cbn in *.
    rewrite H2, E2, K2, H4, E4, K4, H6, H3, E3, K3, H1, E1, K1.
    split; [reflexivity|]. split; [reflexivity|]. right.
    repeat split.
Qed.

End RepeatFire.

Lemma Bullet_steps_winding_down tables a fuels : forall w,
  Forall (fun k => 2 <= k) fuels ->
  winding_down a w ->
  exists w',
    Bullet_steps tables fuels w = Ok ((fun _ => []) <$> fuels, w').
Proof.
  induction fuels as [|fuel fuels IH]; intros w Hf Hw.
  - exists w. reflexivity.
  - apply Forall_cons in Hf as [Hfuel Hf].
    destruct (Bullet_step_winding_down tables a fuel w Hfuel Hw)
      as (w1 & H1 & Hw1).
    destruct (IH w1 Hf Hw1) as (w' & H').
    exists w'. cbn [Bullet_steps]. step_by H1. step_by H'. reflexivity.
Qed.

(** C4.  A bullet is made from a document whose one top action is a repeat
    of an action that is one fire, and the count of the repeat evaluates to
    [n >= 1].  If the fire completes whenever it runs, the first step of the
    bullet spawns [n] bullets, and no later step spawns any: [n] in all. *)
Theorem Repeat_fire_spawns_n doc f times (n : Z) x y direction speed target
    params rank g g' fuel fuels :
  doc_actions doc = [mkActionDef (repeat_fire f times)] ->
  (1 <= n)%Z ->
  INumberDef_call times params rank g = Ok (n, g') ->
  fire_safe (doc_tables doc) f params rank ->
  Z.to_nat n + 5 <= fuel ->
  Forall (fun k => 2 <= k) fuels ->
  exists created w1 w2,
    Bullet_step (doc_tables doc) fuel
      (Bullet_FromDocument doc x y direction speed target params rank g)
      = Ok (created, w1)
    /\ length created = Z.to_nat n
    /\ Bullet_steps (doc_tables doc) fuels w1
       = Ok ((fun _ => []) <$> fuels, w2).
Proof.
  intros Hdoc Hn Htimes Hsafe Hfuel Hfuels.
  unfold Bullet_FromDocument. rewrite Hdoc. cbn [fmap list_fmap length seq].
  edestruct (repeat_first_step (doc_tables doc) f params rank Hsafe times n 0
               fuel) as (created & w1 & H1 & Hlen & Hw1);
    [exact Hn | exact Hfuel | | | | | | ].
  6:{ destruct (Bullet_steps_winding_down (doc_tables doc) 0 fuels w1 Hfuels
                  Hw1) as (w2 & H2).
      exists created, w1, w2. split; [exact H1|]. split; [exact Hlen|exact H2]. }
  all: try reflexivity.
  exact Htimes.
Qed.

Lemma plain_fire_safe params rank :
  fire_safe no_tables (FDef plain_fire) params rank.
Proof.
  intros self w [A HA]. cbn [FireNode_call]. unfold FireDef_call.
  step_by (eq_refl : BulletNode_call no_tables (fd_bullet plain_fire) params
                       rank w = Ok ((None, None, ∅, None, []), w)).
  cbn [fd_direction fd_speed fd_offset fd_appearance fd_tags plain_fire].
  step_by (eq_refl : ret None w = Ok (None, w)).
  step_by (eq_refl : ret None w = Ok (None, w)).
  step_by (eq_refl : get_owner w = Ok (w_owner w, w)).
  step_by (get_action_eq _ _ _ HA).
  step_by (update_action_eq _ _ _ _ HA).
  step_by (update_action_again _ _ _ _ _ (lookup_lt_Some _ _ _ HA)).
  eexists _, _. reflexivity.
Qed.

Lemma Repeat_fire_spawns_n_witness :
  exists created w1 w2,
    Bullet_step no_tables 8
      (world_of (repeat_fire (FDef plain_fire) (iconst 3))) = Ok (created, w1)
    /\ length created = 3
    /\ Bullet_steps no_tables [2; 2] w1 = Ok ([[]; []], w2).
Proof.
  exact (Repeat_fire_spawns_n
           (mkBulletML "none"
              [mkActionDef (repeat_fire (FDef plain_fire) (iconst 3))]
              no_tables)
           (FDef plain_fire) (iconst 3) 3 0 0 0 0 None [] (1 / 2)
           (fun _ => 0%R) (fun _ => 0%R) 8 [2; 2]
           eq_refl ltac:(lia) eq_refl (plain_fire_safe _ _) ltac:(cbn; lia)
           ltac:(repeat constructor)).
Defined.

(** ** Changing direction over frames

    A [ChangeDirection] arms a change that the head of [Action.step] applies
    frame by frame.  The action that holds the change may start other
    actions and end: the change goes to the child with [copy_state], and
    comes back when the child ends. *)

Definition congruent (a b : R) : Prop := exists k : Z, (a - b = IZR k * PI_2)%R.

(** The direction that a [ChangeDirection] aims for, when it is armed. *)
Definition intended_direction (type : dir_type) (value : R) (B : Bullet) : R :=
  match type with
  | absolute => value
  | relative => (b_direction B + value)%R
  | aim => (value + Bullet_aim B)%R
  | sequence => value
  end.

Lemma py_mod_congruent x : congruent (py_mod (x + PI) PI_2 - PI) x.
Proof.
  unfold congruent, py_mod. exists (- Zfloor ((x + PI) / PI_2))%Z.
  rewrite opp_IZR. ring.
Qed.

Lemma PI_2_gt_6 : (6 < PI_2)%R.
Proof. unfold PI_2. pose proof PI2_3_2. lra. Qed.

Lemma not_congruent_1_0 : ~ congruent (1 + 0) (0 + 0).
Proof.
  intros [k Hk]. pose proof PI_2_gt_6 as Hpi.
  destruct (Z_lt_le_dec k 1) as [Hlt|Hge].
  - destruct (Z_lt_le_dec k 0) as [Hneg|Hz].
    + assert (IZR k <= -1)%R by (apply IZR_le; lia). nra.
    + assert (k = 0%Z) by lia. subst k. lra.
  - assert (1 <= IZR k)%R by (apply IZR_le; lia). nra.
Qed.

(** A calm node changes no direction and makes no bullet vanish, whatever
    actions it starts: it holds no [ChangeDirection] and no [Vanish]. *)
Fixpoint calm (n : Node) : bool :=
  match n with
  | ChangeDirection _ _ => false
  | Vanish => false
  | Repeat _ a => calm_action a
  | If _ then_ else_ =>
      calm_def then_
      && match else_ with Some d => calm_def d | None => true end
  | Act a => calm_action a
  | _ => true
  end
with calm_def (d : ActionDef) : bool :=
  match d with
  | mkActionDef l => forallb calm l
  end
with calm_action (a : ActionNode) : bool :=
  match a with
  | ADef d => calm_def d
  | ActionRef _ _ => true
  end.

(** The actions that the references of the document start are calm. *)
Definition calm_tables (tables : Tables) : Prop :=
  forall l d, dict_get l (t_actions tables) = Some d -> calm_def d = true.

(** What is left for a running action to run is calm: the nodes after its
    program counter, and its whole program when it is to run again. *)
Definition calm_future (A : Action) : Prop :=
  match a_pc A with
  | None => True
  | Some pc =>
      (-1 <= pc)%Z
      /\ forallb calm (drop (Z.to_nat (pc + 1)) (a_actions A)) = true
      /\ ((1 < a_repeat A)%Z -> forallb calm (a_actions A) = true)
  end.

(** The action at [s] and the actions it returns to have calm futures. *)
Inductive chain (h : list Action) : addr -> Prop :=
| chain_intro (s : addr) (A : Action) :
    h !! s = Some A ->
    calm_future A ->
    (forall p : addr, a_parent A = Some p -> p < s) ->
    (forall p : addr, a_parent A = Some p -> chain h p) ->
    chain h s.

(** Where an action is in its program. *)
Definition place (A : Action) : list Node * option addr * Z * option Z :=
  (a_actions A, a_parent A, a_repeat A, a_pc A).

(** The pending change of direction of an action. *)
Definition pending (A : Action) : R * Z * bool :=
  (a_direction A, a_direction_frames A, a_aiming A).

Lemma calm_future_place A A' :
  place A' = place A -> calm_future A -> calm_future A'.
Proof.
  unfold place, calm_future. intros [= E1 E2 E3 E4]. now rewrite E1, E3, E4.
Qed.

Lemma chain_place h h' s :
  chain h s ->
  (forall (a : addr) A, a <= s -> h !! a = Some A ->
     exists A', h' !! a = Some A' /\ place A' = place A) ->
  chain h' s.
Proof.
  induction 1 as [s A HA Hf Hlt Hch IH]. intros Hh.
  destruct (Hh s A (le_n _) HA) as (A' & HA' & E).
  assert (Ep : a_parent A' = a_parent A) by (unfold place in E; congruence).
  apply chain_intro with A'.
  - exact HA'.
  - exact (calm_future_place _ _ E Hf).
  - intros p Hp. apply Hlt. congruence.
  - intros p Hp. rewrite Ep in Hp. apply (IH p Hp).
    intros a X Ha. apply Hh. specialize (Hlt p Hp). lia.
Qed.

Lemma forallb_calm_lookup (l : list Node) i x :
  forallb calm (drop i l) = true -> l !! i = Some x ->
  calm x = true /\ forallb calm (drop (S i) l) = true.
Proof.
  intros H Hx. rewrite (drop_S _ _ _ Hx) in H. cbn in H.
  now apply andb_prop in H.
Qed.

Lemma forallb_calm_drop (l : list Node) i :
  forallb calm l = true -> forallb calm (drop i l) = true.
Proof.
  revert i. induction l as [|x l IH]; intros [|i] H; cbn in *; try done.
  apply andb_prop in H as [_ H]. auto.
Qed.

(** [quiet s w w']: from [w] to [w'] the direction of the owner, its list
    of actions, and the places and pending changes of direction of the
    actions up to [s] are as they were. *)
Definition quiet (s : addr) (w w' : World) : Prop :=
  b_direction (w_owner w') = b_direction (w_owner w)
  /\ b_actions (w_owner w') = b_actions (w_owner w)
  /\ (forall i l, w_lists w !! i = Some l -> w_lists w' !! i = Some l)
  /\ (forall (a : addr) A, a <= s -> w_heap w !! a = Some A ->
        exists A', w_heap w' !! a = Some A'
                   /\ place A' = place A /\ pending A' = pending A).

Definition quietly {A} (s : addr) (m : M A) : Prop :=
  forall w a w', m w = Ok (a, w') -> quiet s w w'.

Lemma quiet_refl s w : quiet s w w.
Proof. repeat split; eauto. Qed.

Lemma quiet_trans s w1 w2 w3 :
  quiet s w1 w2 -> quiet s w2 w3 -> quiet s w1 w3.
Proof.
  intros (Hd & Ha & Hl & Hh) (Hd' & Ha' & Hl' & Hh').
  repeat split; try congruence; auto.
  intros a A Hle HA. destruct (Hh a A Hle HA) as (A1 & HA1 & E1 & E2).
  destruct (Hh' a A1 Hle HA1) as (A2 & HA2 & E3 & E4).
  exists A2. repeat split; congruence.
Qed.

Lemma grows_quiet s w w' : grows w w' -> quiet s w w'.
Proof.
  intros G. pose proof G as (Ho & _ & _ & _).
  repeat split; try congruence.
  - intros i l. apply grows_lists_lookup, G.
  - intros a A _ HA. exists A. split; [|done].
    eapply grows_heap_lookup; eauto.
Qed.

Lemma quietly_ret {A} s (a : A) : quietly s (ret a).
Proof. intros w r w' [-> ->]%ret_Ok. apply quiet_refl. Qed.

Lemma quietly_bind {A B} s (m : M A) (k : A -> M B) :
  quietly s m -> (forall a, quietly s (k a)) -> quietly s (bind m k).
Proof.
  intros Hm Hk w b w' H. inv_bind H as a s1 H1.
  eapply quiet_trans; [eapply Hm | eapply Hk]; eauto.
Qed.

Lemma quietly_growing {A} s (m : M A) : growing m -> quietly s m.
Proof. intros G w a w' H. apply grows_quiet. eapply G, H. Qed.

Lemma quietly_raise {A} s e : quietly s (@raise World A e).
Proof. intros w a w' H. discriminate. Qed.

Lemma quietly_diverge {A} s : quietly s (@diverge World A).
Proof. intros w a w' H. discriminate. Qed.

Lemma quiet_insert s a A X w :
  w_heap w !! a = Some A ->
  place X = place A -> pending X = pending A ->
  quiet s w (set_w_heap (<[a := X]> (w_heap w)) w).
Proof.
  intros HA E1 E2. repeat split; auto. cbn.
  intros b Y _ HY. destruct (decide (b = a)) as [->|Hne].
  - exists X. rewrite list_lookup_insert_eq by (eapply lookup_lt_Some, HA).
    pose proof (eq_trans (eq_sym HY) HA) as [= ->]. done.
  - exists Y. rewrite list_lookup_insert_ne by congruence. done.
Qed.

Lemma quietly_update_action s a f :
  (forall A, place (f A) = place A /\ pending (f A) = pending A) ->
  quietly s (update_action a f).
Proof.
  intros Hf w u w' H. unfold update_action in H.
  destruct (w_heap w !! a) as [A|] eqn:HA; [|discriminate].
  injection H as <- <-. apply (quiet_insert _ _ A); auto; apply Hf.
Qed.

Lemma quietly_update_owner s f :
  (forall B, b_direction (f B) = b_direction B
             /\ b_actions (f B) = b_actions B) ->
  quietly s (update_owner f).
Proof.
  intros Hf w u w' H. injection H as <- <-.
  repeat split; cbn; try apply Hf; eauto.
Qed.

Lemma quietly_arm s a f :
  (forall A B, place (f A B).1 = place A /\ pending (f A B).1 = pending A
               /\ b_direction (f A B).2 = b_direction B
               /\ b_actions (f A B).2 = b_actions B) ->
  quietly s (arm a f).
Proof.
  intros Hf w u w' H. unfold arm in H.
  inv_bind H as A s1 H1. unfold get_action in H1.
  destruct (w_heap w !! a) as [A0|] eqn:HA; [|discriminate].
  injection H1 as <- <-.
  inv_bind H as B s2 H2. injection H2 as <- <-.
  inv_bind H as u1 s3 H3. rewrite (update_action_eq _ _ _ _ HA) in H3.
  injection H3 as <- <-. injection H as <- <-.
  destruct (Hf A0 (w_owner w)) as (E1 & E2 & E3 & E4).
  eapply quiet_trans; [apply (quiet_insert s a A0 _ w HA E1 E2)|].
  repeat split; cbn; eauto.
Qed.

Lemma quietly_append_created s b : quietly s (append_created b).
Proof. intros w u w' H. injection H as <- <-. repeat split; eauto. Qed.

Lemma quietly_with_random {A} s (f : rng -> result (A * rng)) :
  quietly s (with_random f).
Proof. apply quietly_growing, growing_with_random. Qed.

Lemma ChangeSpeed_arm_quiet frames speed type A B :
  place (ChangeSpeed_arm frames speed type A B).1 = place A
  /\ pending (ChangeSpeed_arm frames speed type A B).1 = pending A
  /\ b_direction (ChangeSpeed_arm frames speed type A B).2 = b_direction B
  /\ b_actions (ChangeSpeed_arm frames speed type A B).2 = b_actions B.
Proof.
  unfold ChangeSpeed_arm. repeat (case_match; simplify_eq; cbn); auto.
Qed.

Lemma Accel_arm_x_quiet frames h A B :
  place (Accel_arm_x frames h A B).1 = place A
  /\ pending (Accel_arm_x frames h A B).1 = pending A
  /\ b_direction (Accel_arm_x frames h A B).2 = b_direction B
  /\ b_actions (Accel_arm_x frames h A B).2 = b_actions B.
Proof.
  unfold Accel_arm_x. repeat (case_match; simplify_eq; cbn); auto.
Qed.

Lemma Accel_arm_y_quiet frames v A B :
  place (Accel_arm_y frames v A B).1 = place A
  /\ pending (Accel_arm_y frames v A B).1 = pending A
  /\ b_direction (Accel_arm_y frames v A B).2 = b_direction B
  /\ b_actions (Accel_arm_y frames v A B).2 = b_actions B.
Proof.
  unfold Accel_arm_y. repeat (case_match; simplify_eq; cbn); auto.
Qed.

Lemma quietly_ChangeSpeed_call s term speed self params rank :
  quietly s (ChangeSpeed_call term speed self params rank).
Proof.
  unfold ChangeSpeed_call.
  apply quietly_bind; [apply quietly_with_random|]. intros frames.
  apply quietly_bind; [apply quietly_growing, growing_Speed_call|]. intros v.
  apply quietly_bind; [|intros; apply quietly_ret].
  apply quietly_arm. intros. apply ChangeSpeed_arm_quiet.
Qed.

Lemma quietly_Accel_call s term horizontal vertical self params rank :
  quietly s (Accel_call term horizontal vertical self params rank).
Proof.
  unfold Accel_call.
  apply quietly_bind; [apply quietly_with_random|]. intros frames.
  apply quietly_bind;
    [apply quietly_growing, growing_opt_call; intros;
       apply growing_Speed_call|]. intros h.
  apply quietly_bind;
    [apply quietly_growing, growing_opt_call; intros;
       apply growing_Speed_call|]. intros v.
  apply quietly_bind; [|intros; apply quietly_ret].
  apply quietly_bind; [|intros; apply quietly_arm; intros;
                                 apply Accel_arm_y_quiet].
  apply quietly_bind; [|intros; apply quietly_arm; intros;
                                 apply Accel_arm_x_quiet].
  apply quietly_update_action. intros A. done.
Qed.

Lemma quietly_Wait_call s frames self params rank :
  quietly s (Wait_call frames self params rank).
Proof.
  unfold Wait_call.
  apply quietly_bind; [apply quietly_with_random|]. intros k.
  apply quietly_bind; [|intros; apply quietly_ret].
  apply quietly_update_action. intros A. done.
Qed.

Lemma quietly_Tag_call s t : quietly s (Tag_call t).
Proof.
  unfold Tag_call. apply quietly_bind; [|intros; apply quietly_ret].
  apply quietly_update_owner. intros B. done.
Qed.

Lemma quietly_Untag_call s t : quietly s (Untag_call t).
Proof.
  unfold Untag_call.
  apply quietly_bind; [intros w a w' [= <- <-]; apply quiet_refl|].
  intros B. destruct (set_remove t (b_tags B)) as [x|[]|];
    try apply quietly_raise; try apply quietly_ret; try apply quietly_diverge.
  apply quietly_bind; [|intros; apply quietly_ret].
  apply quietly_update_owner. intros B'. done.
Qed.

Lemma quietly_Appearance_call s a : quietly s (Appearance_call a).
Proof.
  unfold Appearance_call. apply quietly_bind; [|intros; apply quietly_ret].
  apply quietly_update_owner. intros B. done.
Qed.

Lemma quietly_get_owner s : quietly s get_owner.
Proof. intros w a w' [= <- <-]. apply quiet_refl. Qed.

Lemma quietly_FireDef_call tables s d self params rank :
  quietly s (FireDef_call tables d self params rank).
Proof.
  unfold FireDef_call.
  apply quietly_bind; [apply quietly_growing, growing_BulletNode_call|].
  intros [[[[dirB spdB] tagsB] appB] acts].
  apply quietly_bind.
  { destruct (fd_direction d); [|apply quietly_ret].
    apply quietly_bind; [apply quietly_growing, growing_Direction_call|].
    intros; apply quietly_ret. }
  intros direction. apply quietly_bind.
  { destruct (fd_speed d); [|apply quietly_ret].
    apply quietly_bind; [apply quietly_growing, growing_Speed_call|].
    intros; apply quietly_ret. }
  intros speed.
  apply quietly_bind; [apply quietly_get_owner|]. intros B.
  apply quietly_bind; [apply quietly_growing, growing_get_action|]. intros A.
  apply quietly_bind; [apply quietly_update_action; done|]. intros _.
  apply quietly_bind; [apply quietly_update_action; done|]. intros _.
  apply quietly_bind.
  { destruct (fd_offset d); [|apply quietly_ret].
    apply quietly_bind; [apply quietly_growing, growing_Offset_call|].
    intros; apply quietly_ret. }
  intros offset. destruct (fire_position _ _ _) as [x y].
  apply quietly_bind; [apply quietly_growing, growing_Bullet_init|]. intros b.
  apply quietly_bind; [apply quietly_append_created|].
  intros; apply quietly_ret.
Qed.

Lemma quietly_FireNode_call tables s f self params rank :
  quietly s (FireNode_call tables f self params rank).
Proof.
  destruct f; cbn [FireNode_call]; [apply quietly_FireDef_call|].
  apply quietly_bind; [apply quietly_growing, growing_ParamList_call|].
  intros ps.
  apply quietly_bind; [apply quietly_growing, growing_resolve|]. intros d.
  apply quietly_FireDef_call.
Qed.

(** A fire returns false, and so does every node but [Wait], [Vanish] and
    the nodes that start an action. *)
Lemma FireNode_call_false tables f self params rank w r w' :
  FireNode_call tables f self params rank w = Ok (r, w') -> r = false.
Proof.
  assert (Hd : forall d params w r w',
             FireDef_call tables d self params rank w = Ok (r, w') ->
             r = false).
  { clear. intros d params w r w' H. unfold FireDef_call in H.
    inv_bind H as res s0 H0. destruct res as [[[[dirB spdB] tagsB] appB] acts].
    inv_bind H as a1 s1 H1. inv_bind H as a2 s2 H2.
    inv_bind H as a3 s3 H3. inv_bind H as a4 s4 H4.
    inv_bind H as a5 s5 H5. inv_bind H as a6 s6 H6.
    inv_bind H as a7 s7 H7. destruct (fire_position _ _ _) as [x y].
    inv_bind H as a8 s8 H8. inv_bind H as a9 s9 H9.
    now apply ret_Ok in H as [-> _]. }
  destruct f; cbn [FireNode_call]; intros H; [eapply Hd, H|].
  inv_bind H as ps s1 H1. inv_bind H as d s2 H2. eapply Hd, H.
Qed.

Section Turning.

Variable tables : Tables.
Hypothesis tables_calm : calm_tables tables.

(** The direction [d0] of the owner and the change [delta] per frame when
    the change was armed, and the number [n] of its frames. *)
Variables (d0 delta : R) (n : Z).

(** [turning s j w]: the owner has one running action, [s], which holds
    what is left of the change after [j] of its frames: the owner has
    turned [j] times by [delta]. *)
Definition turning (s : addr) (j : Z) (w : World) : Prop :=
  (0 <= j <= n)%Z
  /\ w_lists w !! b_actions (w_owner w) = Some [s]
  /\ chain (w_heap w) s
  /\ b_direction (w_owner w) = (d0 + IZR j * delta)%R
  /\ exists A, w_heap w !! s = Some A
       /\ pending A = (delta, (n - j)%Z, false).

Lemma turning_quiet s j w w' : quiet s w w' -> turning s j w -> turning s j w'.
Proof.
  intros (Hd & Ha & Hl & Hh) (Hj & HL & Hc & HD & A & HA & HP).
  split; [exact Hj|]. split; [rewrite Ha; auto|].
  split.
  { apply (chain_place _ _ _ Hc). intros a X Hle HX.
    destruct (Hh a X Hle HX) as (X' & HX' & E & _). eauto. }
  split; [congruence|].
  destruct (Hh s A (le_n _) HA) as (A' & HA' & _ & E).
  exists A'. split; [exact HA'|congruence].
Qed.

(** What the loops and the nodes do to a turning bullet. *)
Definition step_spec (step : addr -> M unit) : Prop :=
  forall s j w u w',
    turning s j w -> step s w = Ok (u, w') ->
    exists s' j', turning s' j' w' /\ (j <= j')%Z /\ ((j < n)%Z -> (j < j')%Z).

Definition run_spec (run : addr -> list R -> R -> M unit) : Prop :=
  forall s j params rank w u w',
    turning s j w -> run s params rank w = Ok (u, w') ->
    exists s' j', turning s' j' w' /\ (j <= j')%Z.

Definition call_spec (call : Node -> addr -> list R -> R -> M bool) : Prop :=
  forall node s j params rank w r w',
    calm node = true ->
    turning s j w -> call node s params rank w = Ok (r, w') ->
    exists s' j', turning s' j' w' /\ (j <= j')%Z /\ (r = false -> s' = s).

(** An update of [s] that keeps its parent and its pending change, and
    leaves it a calm future. *)
Lemma turning_update s j w A X :
  turning s j w ->
  w_heap w !! s = Some A ->
  a_parent X = a_parent A -> pending X = pending A -> calm_future X ->
  turning s j (set_w_heap (<[s := X]> (w_heap w)) w).
Proof.
  intros (Hj & HL & Hc & HD & A' & HA' & HP) HA Ep Epend Hf.
  rewrite HA in HA'. injection HA' as <-.
  assert (Hs : s < length (w_heap w)) by (eapply lookup_lt_Some, HA).
  split; [exact Hj|]. split; [exact HL|]. split.
  { inversion Hc as [s0 A0 HA0 Hf0 Hlt Hch]; subst s0.
    rewrite HA in HA0. injection HA0 as <-.
    apply chain_intro with X; cbn.
    - now apply list_lookup_insert_eq.
    - exact Hf.
    - intros p Hp. apply Hlt. congruence.
    - intros p Hp. rewrite Ep in Hp.
      apply (chain_place _ _ _ (Hch p Hp)). intros a Y Hle HY.
      exists Y. split; [|done].
      rewrite list_lookup_insert_ne; [done|]. specialize (Hlt p Hp). lia. }
  split; [exact HD|].
  exists X. split; [now apply list_lookup_insert_eq|congruence].
Qed.

(** A new action takes the place of [s] and is stepped at once. *)
Lemma ActionDef_call_turning step d s j params repeat w r w' :
  step_spec step ->
  calm_def d = true ->
  turning s j w ->
  ActionDef_call step d s params repeat w = Ok (r, w') ->
  exists s' j', turning s' j' w' /\ (j <= j')%Z /\ r = true.
Proof.
  intros Hstep Hd Ht H. unfold ActionDef_call in H.
  inv_bind H as child w1 H1.
  inv_bind H as u2 w3 H3. apply ret_Ok in H as [-> ->].
  inv_bind H3 as u1 w2 H2.
  destruct Ht as (Hj & HL & Hc & HD & A & HA & HP).
  unfold Action_init in H1.
  rewrite (bind_eq _ _ _ _ _ (get_action_eq _ _ _ HA)) in H1.
  injection H1 as <- <-.
  set (C := Action_copy_state A
              (Action_fresh (Some s) (ad_actions d) params repeat)) in *.
  assert (Hs : s < length (w_heap w)) by (eapply lookup_lt_Some, HA).
  rewrite (Bullet_replace_eq s _ [s] 0 (set_w_heap (w_heap w ++ [C]) w) HL
             (list_index_head _ _)) in H2.
  injection H2 as <- <-.
  eapply Hstep in H3 as (s' & j' & Ht' & Hle & _);
    [exists s', j'; split; [exact Ht'|split; [exact Hle|reflexivity]]|].
  split; [exact Hj|]. cbn.
  split.
  { apply list_lookup_insert_eq. eapply lookup_lt_Some, HL. }
  split.
  { apply chain_intro with C.
    - apply list_lookup_middle. reflexivity.
    - unfold calm_future. cbn. split; [lia|]. destruct d as [l]. cbn in *. auto.
    - cbn. intros p [= <-]. exact Hs.
    - cbn. intros p [= <-]. apply (chain_place _ _ _ Hc).
      intros a X Hle HX. exists X. split; [|done].
      now apply lookup_app_l_Some. }
  split; [exact HD|].
  exists C. split; [apply list_lookup_middle; reflexivity|exact HP].
Qed.

Lemma ActionNode_call_turning step a s j params rank repeat w r w' :
  step_spec step ->
  calm_action a = true ->
  turning s j w ->
  ActionNode_call tables step a s params rank repeat w = Ok (r, w') ->
  exists s' j', turning s' j' w' /\ (j <= j')%Z /\ r = true.
Proof.
  intros Hstep Ha Ht H. destruct a as [d|l ps]; cbn [ActionNode_call] in H.
  - eapply ActionDef_call_turning; eauto.
  - inv_bind H as ps' w1 H1. inv_bind H as d w2 H2.
    unfold resolve in H2.
    destruct (dict_get l (t_actions tables)) as [d'|] eqn:Hl; [|discriminate].
    apply ret_Ok in H2 as [-> ->].
    eapply ActionDef_call_turning;
      [exact Hstep|eapply tables_calm, Hl| |exact H].
    eapply turning_quiet; [|exact Ht].
    eapply quietly_growing; [apply growing_ParamList_call|exact H1].
Qed.

Lemma Node_call_with_turning step :
  step_spec step -> call_spec (Node_call_with tables step).
Proof.
  intros Hstep node s j params rank w r w' Hcalm Ht H.
  assert (Hq : forall (m : M bool),
             quietly s m -> m w = Ok (r, w') ->
             exists s' j',
               turning s' j' w' /\ (j <= j')%Z /\ (r = false -> s' = s)).
  { intros m Hq Hm. exists s, j. split; [|split; [lia|done]].
    eapply turning_quiet; eauto. }
  destruct node; cbn [Node_call_with] in H; cbn [calm] in Hcalm;
    try discriminate.
  - eapply Hq, H. apply quietly_ChangeSpeed_call.
  - eapply Hq, H. apply quietly_Accel_call.
  - eapply Hq, H. apply quietly_Wait_call.
  - eapply Hq, H. apply quietly_Tag_call.
  - eapply Hq, H. apply quietly_Untag_call.
  - eapply Hq, H. apply quietly_Appearance_call.
  - unfold Repeat_call in H. inv_bind H as repeat w1 H1.
    eapply ActionNode_call_turning in H as (s' & j' & Ht' & Hle & ->); eauto.
    + exists s', j'. split; [done|]. split; [done|discriminate].
    + eapply turning_quiet; [|exact Ht].
      eapply quietly_with_random, H1.
  - unfold If_call in H. inv_bind H as c w1 H1.
    apply andb_prop in Hcalm as [Hthen Helse].
    assert (Ht1 : turning s j w1).
    { eapply turning_quiet; [|exact Ht]. eapply quietly_with_random, H1. }
    destruct (decide (c = 0%Z)).
    + destruct else_ as [d|].
      * eapply ActionDef_call_turning in H as (s' & j' & Ht' & Hle & ->); eauto.
        exists s', j'. split; [done|]. split; [done|discriminate].
      * apply ret_Ok in H as [-> ->]. exists s, j.
        split; [done|]. split; [lia|done].
    + eapply ActionDef_call_turning in H as (s' & j' & Ht' & Hle & ->); eauto.
      exists s', j'. split; [done|]. split; [done|discriminate].
  - eapply Hq, H. apply quietly_FireNode_call.
  - eapply ActionNode_call_turning in H as (s' & j' & Ht' & Hle & ->); eauto.
    exists s', j'. split; [done|]. split; [done|discriminate].
Qed.

(** A node of the program, and the rest of the loop. *)
Lemma turn_turning call again action s j params rank w u w' :
  call_spec call -> run_spec again ->
  calm action = true ->
  turning s j w ->
  (let* stop := call action s params rank in
   if stop : bool then ret tt else again s params rank) w = Ok (u, w') ->
  exists s' j', turning s' j' w' /\ (j <= j')%Z.
Proof.
  intros Hcall Hagain Hcalm Ht H. inv_bind H as stop w1 H1.
  destruct (Hcall _ _ _ _ _ _ _ _ Hcalm Ht H1) as (s1 & j1 & Ht1 & Hle & Hs).
  destruct stop.
  - apply ret_Ok in H as [_ ->]. eauto.
  - rewrite (Hs eq_refl) in Ht1.
    destruct (Hagain _ _ _ _ _ _ _ Ht1 H) as (s2 & j2 & Ht2 & Hle2).
    exists s2, j2. split; [done|lia].
Qed.

Lemma Action_run_with_turning call again :
  call_spec call -> run_spec again ->
  run_spec (Action_run_with call again).
Proof.
  intros Hcall Hagain s j params rank w u w' Ht H.
  pose proof Ht as (Hj & HL & Hc & HD & A & HA & HP).
  assert (Hs : s < length (w_heap w)) by (eapply lookup_lt_Some, HA).
  inversion Hc as [s0 A0 HA0 Hf Hlt Hch]; subst s0.
  rewrite HA in HA0. injection HA0 as <-.
  unfold Action_run_with in H.
  rewrite (bind_eq _ _ _ _ _ (get_action_eq _ _ _ HA)) in H.
  unfold calm_future in Hf.
  destruct (a_pc A) as [pc|] eqn:Hpc; [|discriminate].
  destruct Hf as (Hpc1 & Hrest & Hall).
  rewrite (bind_eq _ _ _ _ _ (update_action_eq _ _ _ _ HA)) in H.
  set (A1 := set_a_pc (Some (pc + 1)%Z) A) in *.
  destruct (py_index (a_actions A) (pc + 1)) as [action|] eqn:Hnode.
  - unfold py_index in Hnode.
    rewrite (proj2 (Z.leb_le 0 (pc + 1)) ltac:(lia)) in Hnode.
    destruct (forallb_calm_lookup _ _ _ Hrest Hnode) as [Hcalm Hrest'].
    eapply turn_turning in H; eauto.
    apply (turning_update _ _ _ A); auto.
    unfold calm_future. cbn. split; [lia|]. split; [|exact Hall].
    replace (Z.to_nat (pc + 1 + 1)) with (S (Z.to_nat (pc + 1))) by lia.
    exact Hrest'.
  - rewrite (bind_eq _ _ _ _ _ (update_action_again _ _ _ _ _ Hs)) in H.
    destruct (a_repeat A - 1 <=? 0)%Z eqn:Hrep.
    + rewrite bind_assoc in H.
      rewrite (bind_eq _ _ _ _ _ (update_action_again _ _ _ _ _ Hs)) in H.
      rewrite (bind_eq _ _ _ _ _ (update_action_again _ _ _ _ _ Hs)) in H.
      set (A4 := set_a_finished true _) in *.
      destruct (a_parent A) as [p|] eqn:Hp.
      * specialize (Hlt p eq_refl). specialize (Hch p eq_refl).
        rewrite (bind_eq _ _ _ _ _ (get_action_again _ _ _ _ Hs)) in H.
        inversion Hch as [p0 P HP0 HfP HltP HchP]; subst p0.
        assert (HP1 : w_heap (set_w_heap (<[s := A4]> (w_heap w)) w) !! p
                      = Some P).
        { cbn. rewrite list_lookup_insert_ne by lia. exact HP0. }
        rewrite (bind_eq _ _ _ _ _ (update_action_eq _ _ _ _ HP1)) in H.
        cbn [w_heap set_w_heap] in H.
        match type of H with
        | Bullet_replace _ _ ?w0 = _ =>
            rewrite (Bullet_replace_eq s p [s] 0 w0 HL (list_index_head _ _))
              in H
        end.
        injection H as <- <-.
        exists p, j. split; [|lia].
        split; [exact Hj|]. cbn. split.
        { apply list_lookup_insert_eq. eapply lookup_lt_Some, HL. }
        split.
        { apply (chain_place _ _ _ Hch). intros a X Hle HX.
          destruct (decide (a = p)) as [->|Hne].
          - rewrite list_lookup_insert_eq
              by (rewrite length_insert; eapply lookup_lt_Some, HP0).
            rewrite HP0 in HX. injection HX as <-.
            eexists. split; [reflexivity|done].
          - rewrite !list_lookup_insert_ne by lia. eauto. }
        split; [exact HD|].
        eexists. split.
        { apply list_lookup_insert_eq. rewrite length_insert.
          eapply lookup_lt_Some, HP0. }
        exact HP.
      * apply ret_Ok in H as [_ ->].
        exists s, j. split; [|lia].
        apply (turning_update _ _ _ A); auto.
        unfold calm_future. cbn. exact I.
    + rewrite (bind_eq _ _ _ _ _ (update_action_again _ _ _ _ _ Hs)) in H.
      apply Z.leb_gt in Hrep.
      specialize (Hall ltac:(lia)).
      destruct (py_index (a_actions A) 0) as [action|] eqn:Hnode0;
        [|discriminate].
      unfold py_index in Hnode0. cbn in Hnode0.
      destruct (forallb_calm_lookup _ 0 _ Hall Hnode0) as [Hcalm Hrest'].
      eapply turn_turning in H; eauto.
      apply (turning_update _ _ _ A); auto.
      unfold calm_future. cbn. split; [lia|]. split; [exact Hrest'|].
      intros _. exact Hall.
Qed.

(** The head of [Action.step] turns the owner once more, while the change
    lasts. *)
Lemma step_changes_plain A B :
  a_aiming A = false ->
  place (step_changes A B).1 = place A
  /\ a_wait_frames (step_changes A B).1 = a_wait_frames A
  /\ a_params (step_changes A B).1 = a_params A
  /\ b_actions (step_changes A B).2 = b_actions B
  /\ b_rank (step_changes A B).2 = b_rank B
  /\ pending (step_changes A B).1
     = (a_direction A,
        if (0 <? a_direction_frames A)%Z
        then (a_direction_frames A - 1)%Z else a_direction_frames A,
        false)
  /\ b_direction (step_changes A B).2
     = if (0 <? a_direction_frames A)%Z
       then (b_direction B + a_direction A)%R else b_direction B.
Proof.
  intros Ha.
  unfold step_changes, step_speed, step_direction, step_accel, place, pending.
  repeat (case_match; simplify_eq; cbn in * ); rewrite ?Ha in *;
    cbn in *; simplify_eq; repeat split.
Qed.

Lemma Action_step_with_turning run :
  run_spec run -> step_spec (Action_step_with run).
Proof.
  intros Hrun s j w u w' Ht H.
  pose proof Ht as (Hj & HL & Hc & HD & A & HA & HP).
  assert (Hs : s < length (w_heap w)) by (eapply lookup_lt_Some, HA).
  injection HP as Hdelta Hframes Haim.
  destruct (step_changes_plain A (w_owner w) Haim)
    as (Eplace & Ewait & Eparams & Eactions & Erank & Epend & Edir).
  unfold Action_step_with in H.
  rewrite (bind_eq _ _ _ _ _ (arm_eq _ _ _ _ HA)) in H.
  set (A1 := (step_changes A (w_owner w)).1) in *.
  set (B1 := (step_changes A (w_owner w)).2) in *.
  set (j1 := if (0 <? n - j)%Z then (j + 1)%Z else j).
  assert (Ht1 : turning s j1
                  (set_w_owner B1 (set_w_heap (<[s := A1]> (w_heap w)) w))).
  { rewrite Hframes in Epend, Edir. subst j1.
    split; [destruct (0 <? n - j)%Z eqn:E; [apply Z.ltb_lt in E|]; lia|].
    cbn. split; [rewrite Eactions; exact HL|]. split.
    { apply (chain_place _ _ _ Hc). intros a X Hle HX.
      destruct (decide (a = s)) as [->|Hne].
      - rewrite list_lookup_insert_eq by exact Hs.
        rewrite HA in HX. injection HX as <-. eauto.
      - rewrite list_lookup_insert_ne by congruence. eauto. }
    split.
    { rewrite Edir, HD, Hdelta. destruct (0 <? n - j)%Z; [|reflexivity].
      rewrite plus_IZR. ring. }
    exists A1. split; [now apply list_lookup_insert_eq|].
    rewrite Epend, Hdelta. destruct (0 <? n - j)%Z; do 2 f_equal; lia. }
  assert (Hj1 : (j <= j1)%Z /\ ((j < n)%Z -> (j < j1)%Z)).
  { subst j1. destruct (0 <? n - j)%Z eqn:E; [lia|].
    apply Z.ltb_ge in E. lia. }
  assert (HA1 : w_heap (set_w_owner B1
                          (set_w_heap (<[s := A1]> (w_heap w)) w)) !! s
                = Some A1) by (cbn; now apply list_lookup_insert_eq).
  rewrite (bind_eq _ _ _ _ _ (get_action_eq _ _ _ HA1)) in H.
  destruct (a_pc A1) as [pc|].
  - destruct (0 <? a_wait_frames A1)%Z.
    + exists s, j1. split; [|exact Hj1].
      eapply turning_quiet; [|exact Ht1].
      eapply quietly_update_action; [|exact H]. done.
    + unfold get_owner in H. cbn [bind] in H.
      destruct (Hrun _ _ _ _ _ _ _ Ht1 H) as (s' & j' & Ht' & Hle).
      exists s', j'. split; [exact Ht'|]. lia.
  - apply ret_Ok in H as [_ ->]. exists s, j1. split; [exact Ht1|exact Hj1].
Qed.

(** Whatever calm nodes the actions run, the bullet keeps turning. *)
Lemma turning_interpreter fuel :
  step_spec (Action_step tables fuel)
  /\ run_spec (Action_run tables fuel)
  /\ call_spec (Node_call tables fuel).
Proof.
  induction fuel as [|fuel (IHstep & IHrun & IHcall)].
  - repeat split; repeat intro; discriminate.
  - repeat split.
    + apply Action_step_with_turning, IHrun.
    + apply Action_run_with_turning; [apply IHcall | apply IHrun].
    + apply Node_call_with_turning, IHstep.
Qed.

End Turning.

(** ** The frames of a change of direction *)

(** With no change of direction pending, the head of [Action.step] leaves
    the direction alone. *)
Lemma step_changes_idle A B :
  (a_direction_frames A <= 0)%Z ->
  place (step_changes A B).1 = place A
  /\ a_wait_frames (step_changes A B).1 = a_wait_frames A
  /\ a_params (step_changes A B).1 = a_params A
  /\ b_actions (step_changes A B).2 = b_actions B
  /\ b_rank (step_changes A B).2 = b_rank B
  /\ b_direction (step_changes A B).2 = b_direction B.
Proof.
  intros Hf. apply Z.ltb_ge in Hf.
  unfold step_changes, step_speed, step_direction, step_accel, place.
  repeat (case_match; simplify_eq; cbn in * ); repeat split; congruence.
Qed.

Lemma get_owner_eq w : get_owner w = Ok (w_owner w, w).
Proof. reflexivity. Qed.

(** A step of a bullet with one action steps this action; the rest of the
    step is quiet. *)
Lemma Bullet_step_one tables fuel s w created w' :
  w_lists w !! b_actions (w_owner w) = Some [s] ->
  Bullet_step tables fuel w = Ok (created, w') ->
  exists u w1,
    Action_step tables fuel s (set_w_created [] w) = Ok (u, w1)
    /\ forall s', quiet s' w1 w'.
Proof.
  intros HL H. unfold Bullet_step in H.
  inv_bind H as u0 w0 H0. injection H0 as <- <-.
  rewrite (bind_eq _ _ _ _ _ (get_owner_eq _)) in H.
  rewrite (bind_eq _ _ _ _ _ (get_list_eq _ _ (set_w_created [] w) HL)) in H.
  inv_bind H as f1 w2 H2. cbn [length step_actions] in H2.
  rewrite (bind_eq _ _ _ _ _ (get_list_eq _ _ (set_w_created [] w) HL)) in H2.
  cbn [lookup list_lookup] in H2.
  inv_bind H2 as u1 w1 H1. exists u1, w1. split; [exact H1|]. intros s'.
  inv_bind H2 as A1 w3 H3. apply ret_Ok in H2 as [_ ->].
  assert (w3 = w1) as ->.
  { unfold get_action in H3. destruct (w_heap w1 !! s); [|discriminate].
    now injection H3. }
  inv_bind H as f2 w4 H4.
  assert (w4 = w1) as ->.
  { destruct f1; [eapply all_finished_inv, H4|].
    now apply ret_Ok in H4 as [_ ->]. }
  inv_bind H as u5 w5 H5. injection H5 as <- <-.
  injection H as <- <-. repeat split; cbn; eauto.
Qed.

Lemma quiet_created s c w : quiet s w (set_w_created c w).
Proof. repeat split; eauto. Qed.

Lemma Bullet_step_turning tables d0 delta n fuel s j w created w' :
  calm_tables tables ->
  turning d0 delta n s j w ->
  Bullet_step tables fuel w = Ok (created, w') ->
  exists s' j',
    turning d0 delta n s' j' w' /\ (j <= j')%Z /\ ((j < n)%Z -> (j < j')%Z).
Proof.
  intros Hcalm Ht H.
  destruct (Bullet_step_one _ _ s _ _ _ (proj1 (proj2 Ht)) H)
    as (u & w1 & H1 & Hq).
  eapply (proj1 (turning_interpreter tables Hcalm d0 delta n fuel)) in H1
    as (s' & j' & Ht' & Hle);
    [|eapply turning_quiet; [apply quiet_created|exact Ht]].
  exists s', j'. split; [|exact Hle].
  eapply turning_quiet; [apply Hq|exact Ht'].
Qed.

Lemma Bullet_steps_turning tables d0 delta n fuels : forall s j w created w',
  calm_tables tables ->
  turning d0 delta n s j w ->
  Bullet_steps tables fuels w = Ok (created, w') ->
  exists s' j',
    turning d0 delta n s' j' w'
    /\ (Z.min n (j + Z.of_nat (length fuels)) <= j')%Z.
Proof.
  induction fuels as [|fuel fuels IH]; intros s j w created w' Hcalm Ht H;
    cbn [Bullet_steps] in H.
  - apply ret_Ok in H as [_ ->]. exists s, j. split; [exact Ht|].
    cbn. destruct Ht as (Hj & _). lia.
  - inv_bind H as c1 w1 H1. inv_bind H as cs w2 H2.
    apply ret_Ok in H as [_ ->].
    destruct (Bullet_step_turning _ _ _ _ _ _ _ _ _ _ Hcalm Ht H1)
      as (s1 & j1 & Ht1 & Hle & Hlt).
    destruct (IH _ _ _ _ _ Hcalm Ht1 H2) as (s2 & j2 & Ht2 & Hle2).
    exists s2, j2. split; [exact Ht2|].
    cbn [length]. destruct Ht as (Hj & _). lia.
Qed.

(** [runs_next w s A node]: the bullet of [w] has one running action, [s],
    which is not waiting; in the next step it runs [node], and what it and
    the actions it returns to run after [node] is calm. *)
Definition runs_next (w : World) (s : addr) (A : Action) (node : Node)
  : Prop :=
  w_lists w !! b_actions (w_owner w) = Some [s]
  /\ w_heap w !! s = Some A
  /\ (a_wait_frames A <= 0)%Z
  /\ (a_repeat A <= 1)%Z
  /\ (forall p : addr, a_parent A = Some p -> p < s /\ chain (w_heap w) p)
  /\ exists pc,
       a_pc A = Some pc /\ (-1 <= pc)%Z
       /\ py_index (a_actions A) (pc + 1) = Some node
       /\ forallb calm (drop (Z.to_nat (pc + 2)) (a_actions A)) = true.

Lemma bind_ret_l {S A B} (a : A) (k : A -> ST S B) s :
  bind (ret a) k s = k a s.
Proof. reflexivity. Qed.

(** What a [ChangeDirection] node does, once its expressions evaluate. *)
Lemma ChangeDirection_call_eq term direction self params rank w A frames v
    g1 g2 :
  w_heap w !! self = Some A ->
  INumberDef_call term params rank (w_random w) = Ok (frames, g1) ->
  NumberDef_call (dir_value direction) params rank g1 = Ok (v, g2) ->
  ChangeDirection_call term direction self params rank w
  = Ok (false,
        let AB := ChangeDirection_arm frames (radians v) (dir_kind direction)
                    A (w_owner w) in
        set_w_owner AB.2
          (set_w_heap (<[self := AB.1]> (w_heap w)) (set_w_random g2 w))).
Proof.
  intros HA Hterm Hval. unfold ChangeDirection_call, Direction_call.
  rewrite (bind_eq _ _ _ _ _ (with_random_eq _ _ _ _ Hterm)).
  rewrite bind_assoc.
  rewrite (bind_eq _ _ _ _ _ (with_random_eq _ (set_w_random g1 w) v g2 Hval)).
  rewrite bind_ret_l. cbn [fst snd].
  rewrite (bind_eq _ _ _ _ _
             (arm_eq self _ A (set_w_random g2 (set_w_random g1 w)) HA)).
  reflexivity.
Qed.

(** The step in which the action arms a change of direction. *)
Lemma Action_step_arming tables fuel term direction s A frames v g1 g2 w u w' :
  calm_tables tables ->
  runs_next w s A (ChangeDirection term direction) ->
  (a_direction_frames A <= 0)%Z ->
  INumberDef_call term (a_params A) (b_rank (w_owner w)) (w_random w)
    = Ok (frames, g1) ->
  NumberDef_call (dir_value direction) (a_params A) (b_rank (w_owner w)) g1
    = Ok (v, g2) ->
  (0 < frames)%Z ->
  dir_kind direction = absolute \/ dir_kind direction = relative ->
  Action_step tables fuel s w = Ok (u, w') ->
  exists delta s' j',
    turning (b_direction (w_owner w)) delta frames s' j' w'
    /\ congruent (b_direction (w_owner w) + IZR frames * delta)
         (intended_direction (dir_kind direction) (radians v) (w_owner w)).
Proof.
  intros Hcalm (HL & HA & Hwait & Hrep & Hpar & pc & Hpc & Hpc1 & Hnode & Hrest)
    Hidle Hterm Hval Hf Hkind H.
  assert (Hs : s < length (w_heap w)) by (eapply lookup_lt_Some, HA).
  destruct (step_changes_idle A (w_owner w) Hidle)
    as (Eplace & Ewait & Eparams & Eactions & Erank & Edir).
  injection Eplace as Eacts Eparent Erepeat Epc.
  destruct fuel as [|f1]; [discriminate|].
  rewrite Action_step_unfold in H. unfold Action_step_with in H.
  rewrite (bind_eq _ _ _ _ _ (arm_eq _ _ _ _ HA)) in H.
  set (A1 := (step_changes A (w_owner w)).1) in *.
  set (B1 := (step_changes A (w_owner w)).2) in *.
  set (W1 := set_w_owner B1 (set_w_heap (<[s := A1]> (w_heap w)) w)) in *.
  assert (HA1 : w_heap W1 !! s = Some A1)
    by (cbn; now apply list_lookup_insert_eq).
  rewrite (bind_eq _ _ _ _ _ (get_action_eq _ _ _ HA1)) in H.
  rewrite Epc, Hpc, Ewait, (proj2 (Z.ltb_ge 0 _) Hwait) in H.
  rewrite (bind_eq _ _ _ _ _ (get_owner_eq W1)) in H.
  change (w_owner W1) with B1 in H. rewrite Eparams, Erank in H.
  destruct f1 as [|f2]; [discriminate|].
  rewrite Action_run_unfold in H. unfold Action_run_with in H.
  rewrite (bind_eq _ _ _ _ _ (get_action_eq _ _ _ HA1)) in H.
  rewrite Epc, Hpc, Eacts, Hnode in H.
  rewrite (bind_eq _ _ _ _ _ (update_action_eq _ _ _ _ HA1)) in H.
  set (A2 := set_a_pc (Some (pc + 1)%Z) A1) in *.
  set (W2 := set_w_heap (<[s := A2]> (w_heap W1)) W1) in *.
  assert (HA2 : w_heap W2 !! s = Some A2).
  { cbn. apply list_lookup_insert_eq. now rewrite length_insert. }
  destruct f2 as [|f3]; [discriminate|].
  rewrite Node_call_unfold in H. cbn [Node_call_with] in H.
  rewrite (bind_eq _ _ _ _ _
             (ChangeDirection_call_eq term direction s (a_params A)
                (b_rank (w_owner w)) W2 A2 frames v g1 g2 HA2 Hterm Hval))
    in H.
  change (w_owner W2) with B1 in H.
  set (turn := (match dir_kind direction with
                | absolute => radians v - b_direction B1
                | _ => radians v
                end)%R).
  set (delta := ((py_mod (turn + PI) PI_2 - PI) / IZR frames)%R).
  assert (Harmed : ChangeDirection_arm frames (radians v) (dir_kind direction)
                     A2 B1
                   = (set_a_direction delta
                        (set_a_aiming false
                           (set_a_direction_frames frames A2)), B1)).
  { unfold ChangeDirection_arm.
    rewrite (proj2 (Z.leb_gt frames 0) Hf).
    subst delta turn. now destruct Hkind as [-> | ->]. }
  rewrite Harmed in H. cbn [fst snd] in H.
  set (A3 := set_a_direction delta _) in *.
  match type of H with
  | _ ?W = _ =>
      assert (Ht : turning (b_direction (w_owner w)) delta frames s 0 W)
  end.
  { split; [lia|]. cbn. split; [rewrite Eactions; exact HL|].
    rewrite !list_insert_insert_eq. split.
    { apply chain_intro with A3.
      - now apply list_lookup_insert_eq.
      - unfold calm_future. cbn. rewrite Eacts, Erepeat.
        split; [lia|]. split; [|lia].
        replace (pc + 1 + 1)%Z with (pc + 2)%Z by lia. exact Hrest.
      - cbn. rewrite Eparent. intros p Hp. apply Hpar, Hp.
      - cbn. rewrite Eparent. intros p Hp.
        destruct (Hpar p Hp) as [Hlt Hch].
        apply (chain_place _ _ _ Hch). intros a X Hle HX.
        exists X. split; [|done]. rewrite list_lookup_insert_ne; [done|lia]. }
    split; [rewrite Edir; ring|].
    exists A3. split; [now apply list_lookup_insert_eq|].
    unfold pending. cbn. do 2 f_equal. lia. }
  cbv beta iota in H.
  destruct (proj1 (proj2 (turning_interpreter tables Hcalm _ _ _ _))
              _ _ _ _ _ _ _ Ht H) as (s' & j' & Ht' & _).
  exists delta, s', j'. split; [exact Ht'|].
  assert (Hz : IZR frames <> 0%R) by (apply not_0_IZR; lia).
  subst delta turn. rewrite Edir.
  destruct Hkind as [-> | ->]; cbn [intended_direction].
  - destruct (py_mod_congruent (radians v - b_direction (w_owner w)))
      as [k Hk].
    exists k. rewrite <- Hk. field. exact Hz.
  - destruct (py_mod_congruent (radians v)) as [k Hk].
    exists k. rewrite <- Hk. field. exact Hz.
Qed.

(** C1, amended.  A bullet has one running action, which is about to run a
    [ChangeDirection] of type absolute or relative over [frames > 0]
    frames, and no change of direction is pending.  When, after this node,
    the bullet runs calm nodes only (no other [ChangeDirection] and no
    [Vanish], but waits, fires, changes of speed, and actions that start
    and end), the step that runs the node and [frames] further steps, or
    more, bring its direction to the intended direction, up to a multiple
    of 2 pi. *)
Theorem ChangeDirection_turns_to_target tables fuels term direction s A frames
    v g1 g2 w created w' :
  calm_tables tables ->
  runs_next w s A (ChangeDirection term direction) ->
  (a_direction_frames A <= 0)%Z ->
  INumberDef_call term (a_params A) (b_rank (w_owner w)) (w_random w)
    = Ok (frames, g1) ->
  NumberDef_call (dir_value direction) (a_params A) (b_rank (w_owner w)) g1
    = Ok (v, g2) ->
  (0 < frames)%Z ->
  dir_kind direction = absolute \/ dir_kind direction = relative ->
  Z.to_nat frames < length fuels ->
  Bullet_steps tables fuels w = Ok (created, w') ->
  congruent (b_direction (w_owner w'))
    (intended_direction (dir_kind direction) (radians v) (w_owner w)).
Proof.
  intros Hcalm Hnext Hidle Hterm Hval Hf Hkind Hlen H.
  destruct fuels as [|fuel fuels]; [cbn in Hlen; lia|].
  cbn [Bullet_steps] in H.
  inv_bind H as c1 w1 H1. inv_bind H as cs w2 H2. apply ret_Ok in H as [_ ->].
  destruct (Bullet_step_one _ _ s _ _ _ (proj1 Hnext) H1)
    as (u & w0 & H0 & Hq).
  eapply (Action_step_arming _ _ _ _ _ A) in H0
    as (delta & s1 & j1 & Ht1 & Hcong); eauto.
  apply (turning_quiet _ _ _ _ _ _ _ (Hq s1)) in Ht1.
  destruct (Bullet_steps_turning _ _ _ _ _ _ _ _ _ _ Hcalm Ht1 H2)
    as (s2 & j2 & Ht2 & Hle).
  destruct Ht1 as (Hj1 & _). destruct Ht2 as (Hj2 & _ & _ & HD & _).
  cbn [length] in Hlen.
  assert (j2 = frames) as -> by lia.
  cbn in HD. rewrite HD. exact Hcong.
Qed.

(** A bullet that heads for direction 1, with no target, and runs [prog]
    as its one top action. *)
Definition turning_world (prog : list Node) : World :=
  Bullet_FromDocument (mkBulletML "none" [mkActionDef prog] no_tables)
    0 0 1 0 None [] (1 / 2) (fun _ => 0%R).

(** Turn to direction 0 in two frames, and start an action that waits. *)
Definition turn_and_wait : list Node :=
  [ChangeDirection (iconst 2) (mkDirection absolute (const 0));
   Act (ADef (mkActionDef [Wait (iconst 5)]))].

(** Turn by the aim in one frame. *)
Definition turn_to_aim : list Node :=
  [ChangeDirection (iconst 1) (mkDirection aim (const 0))].

(** C1, as stated, fails for the type aim: in the last frame of the change
    the owner's direction gains the aim, not the pending change.  Here the
    bullet has no target, so that the aim is 0: the direction stays 1, and
    the intended direction is 0. *)
Lemma ChangeDirection_aim_misses_target :
  exists created w',
    Bullet_steps no_tables [9; 9] (turning_world turn_to_aim)
      = Ok (created, w')
    /\ ~ congruent (b_direction (w_owner w'))
           (intended_direction aim (radians 0)
              (w_owner (turning_world turn_to_aim))).
Proof.
  eexists _, _. split.
  - run. reflexivity.
  - cbn [w_owner set_w_owner b_direction set_b_direction].
    rewrite radians_0. exact not_congruent_1_0.
Qed.

Lemma ChangeDirection_turns_to_target_witness :
  exists created w',
    Bullet_steps no_tables [9; 9; 9] (turning_world turn_and_wait)
      = Ok (created, w')
    /\ congruent (b_direction (w_owner w')) (radians 0).
Proof.
  eexists _, _.
  refine ((fun E =>
             conj E
               (ChangeDirection_turns_to_target no_tables [9; 9; 9] (iconst 2)
                  (mkDirection absolute (const 0)) 0
                  (Action_fresh None turn_and_wait [] 1) 2 0 _ _
                  (turning_world turn_and_wait) _ _ _ _ _ eq_refl eq_refl
                  _ (or_introl eq_refl) _ E)) _).
  - intros l d H. discriminate H.
  - split; [reflexivity|]. split; [reflexivity|]. split; [cbn; lia|].
    split; [cbn; lia|]. split; [intros p H; discriminate H|].
    exists (-1)%Z. split; [reflexivity|]. split; [lia|].
    split; reflexivity.
  - cbn. lia.
  - lia.
  - cbn. lia.
  - run. reflexivity.
Defined.
